(** * A tick-stepped multi-core CPU scheduling simulator

    Shallow embedding of the scheduler simulator of
    [CSE4300/josh-alex-zach-viraj] ([sim.c], [dispatch.c], [dispatch.h]) and
    of the array-based shortest-job pass of
    [CSE4300/abhinav-daniel-eric-vin/sjf.c].

    Thread objects are allocated once by [make_thread] and then shared by
    pointer between the queues and the core slots.  The embedding keeps that
    sharing: [heap] is the table of allocated Thread objects in allocation
    order, a [Thread*] is an index into it, queues are lists of pointers and a
    core slot is an optional pointer.  C [int]s are modelled as [Z], without
    wrap-around; array indices that the source keeps in an [int] with [-1]
    as the "none" value are kept that way.  The header [sim.h] and the
    implementation of the queue and CPU primitives are not among the
    sources: those primitives are modelled from the specification, each
    under a comment that says so. *)

From Stdlib Require Import ZArith Lia.
From stdpp Require Import base list.

Local Open Scope Z_scope.

(** ** Data model *)

(** Modelled from the spec: the thread states of [sim.h] (section 3).
    [ST_NEW], [ST_READY] and [ST_FINISHED] occur in sim.c; the names of the
    Running and Waiting states follow them. *)
Inductive ThreadState : Set :=
  | ST_NEW | ST_READY | ST_RUNNING | ST_WAITING | ST_FINISHED.

Global Instance ThreadState_eq_dec : EqDecision ThreadState.
Proof. solve_decision. Defined.

(** The fields of [Thread] that [make_thread] initialises ([sim.h] is not
    among the sources).  The [next] link of the intrusive list is the list
    structure of the queue that holds the pointer. *)
Record Thread : Set := mkThread {
  tid : Z;
  arrival_time : Z;
  burst_time : Z;
  remaining : Z;
  state : ThreadState;
  unblocked_at : Z;
  start_time : Z;
  finish_time : Z;
  wait_time : Z
}.

(* sim.c: make_thread *)
Definition make_thread (id arrival burst : Z) : Thread :=
  {| tid := id; arrival_time := arrival; burst_time := burst;
     remaining := burst; state := ST_NEW; unblocked_at := -1;
     start_time := -1; finish_time := -1; wait_time := 0 |}.

Global Instance Thread_inhabited : Inhabited Thread :=
  populate (make_thread 0 0 0).

(** Field writes [t->f = v]. *)
Definition set_state (st : ThreadState) (t : Thread) : Thread :=
  {| tid := tid t; arrival_time := arrival_time t; burst_time := burst_time t;
     remaining := remaining t; state := st; unblocked_at := unblocked_at t;
     start_time := start_time t; finish_time := finish_time t;
     wait_time := wait_time t |}.

Definition set_remaining (r : Z) (t : Thread) : Thread :=
  {| tid := tid t; arrival_time := arrival_time t; burst_time := burst_time t;
     remaining := r; state := state t; unblocked_at := unblocked_at t;
     start_time := start_time t; finish_time := finish_time t;
     wait_time := wait_time t |}.

Definition set_unblocked_at (u : Z) (t : Thread) : Thread :=
  {| tid := tid t; arrival_time := arrival_time t; burst_time := burst_time t;
     remaining := remaining t; state := state t; unblocked_at := u;
     start_time := start_time t; finish_time := finish_time t;
     wait_time := wait_time t |}.

Definition set_start_time (v : Z) (t : Thread) : Thread :=
  {| tid := tid t; arrival_time := arrival_time t; burst_time := burst_time t;
     remaining := remaining t; state := state t; unblocked_at := unblocked_at t;
     start_time := v; finish_time := finish_time t;
     wait_time := wait_time t |}.

Definition set_finish_time (v : Z) (t : Thread) : Thread :=
  {| tid := tid t; arrival_time := arrival_time t; burst_time := burst_time t;
     remaining := remaining t; state := state t; unblocked_at := unblocked_at t;
     start_time := start_time t; finish_time := v;
     wait_time := wait_time t |}.

Definition set_wait_time (v : Z) (t : Thread) : Thread :=
  {| tid := tid t; arrival_time := arrival_time t; burst_time := burst_time t;
     remaining := remaining t; state := state t; unblocked_at := unblocked_at t;
     start_time := start_time t; finish_time := finish_time t;
     wait_time := v |}.

(** The whole simulation context: the global clock [SIM_TIME], the Thread
    objects, the four queues of [main], the core slots of the [CPU]
    ([ncores] is the length of [core]) and the number of calls made to
    [rand()] so far. *)
Record Sim : Type := mkSim {
  SIM_TIME : Z;
  heap : list Thread;
  workload : list nat;
  ready : list nat;
  waiting : list nat;
  finished : list nat;
  core : list (option nat);
  rand_calls : nat
}.

(* dispatch.h *)
Inductive DispatchAlgo : Set := DISP_FIFO | DISP_SJF | DISP_SRTCF.

(** The fields of [InterruptConfig], as [main] initialises them. *)
Record InterruptConfig : Set := mkIntr {
  enable_random : bool;
  pct_io : Z;
  io_min : Z;
  io_max : Z
}.

(** ** Queue operations *)

(** Modelled from the spec: [q_push], [q_pop], [q_empty] (section 4.2); the
    queue implementation is not among the sources.  Push appends at the tail,
    pop removes the head or reports "none". *)
Definition q_push (q : list nat) (t : nat) : list nat := q ++ [t].

(** Modelled from the spec: [q_pop] (section 4.2), "none" on an empty
    queue. *)
Definition q_pop (q : list nat) : option (nat * list nat) :=
  match q with
  | [] => None
  | t :: q' => Some (t, q')
  end.

(** Modelled from the spec: [q_empty]. *)
Definition q_empty (q : list nat) : bool :=
  match q with [] => true | _ => false end.

(** Modelled from the spec: the scan shared by [q_pop_min_burst] and
    [q_pop_min_remaining] (section 4.2): scan all elements, remove and
    return the one with the smallest key, the earliest one on ties; "none"
    on an empty queue. *)
Fixpoint q_pop_min_by (key : nat → Z) (q : list nat) : option (nat * list nat) :=
  match q with
  | [] => None
  | t :: q' =>
      match q_pop_min_by key q' with
      | None => Some (t, [])
      | Some (m, rest) =>
          if key m <? key t then Some (m, t :: rest) else Some (t, q')
      end
  end.

(** Modelled from the spec: [q_pop_min_burst], keyed on [burst_time]. *)
Definition q_pop_min_burst (h : list Thread) (q : list nat) :=
  q_pop_min_by (λ p, burst_time (h !!! p)) q.

(** Modelled from the spec: [q_pop_min_remaining], keyed on [remaining]. *)
Definition q_pop_min_remaining (h : list Thread) (q : list nat) :=
  q_pop_min_by (λ p, remaining (h !!! p)) q.

(** ** CoreArray operations *)

(** Threads bound to a core, in core order. *)
Definition occupants (cs : list (option nat)) : list nat := omap id cs.

(** Modelled from the spec: the scan of [cpu_first_idle] from core [i] on. *)
Fixpoint first_idle_from (cs : list (option nat)) (i : Z) : Z :=
  match cs with
  | [] => -1
  | None :: _ => i
  | Some _ :: cs' => first_idle_from cs' (i + 1)
  end.

(** Modelled from the spec: [cpu_first_idle] (section 4.3): the
    lowest-index idle core, [-1] when there is none (the caller in
    dispatch.c tests [idle >= 0]). *)
Definition cpu_first_idle (cs : list (option nat)) : Z := first_idle_from cs 0.

(** Modelled from the spec: [cpu_any_idle] (section 4.3): true iff at least
    one core is idle. *)
Definition cpu_any_idle (cs : list (option nat)) : bool :=
  0 <=? cpu_first_idle cs.

(** Modelled from the spec: the writes of [cpu_bind_core] to the thread
    (section 4.3 [bind]): it becomes Running and [start_time] is recorded if
    unset. *)
Definition mark_running (now : Z) (t : Thread) : Thread :=
  set_state ST_RUNNING
    (if start_time t <? 0 then set_start_time now t else t).

(** Modelled from the spec: [cpu_bind_core] (section 4.3 [bind]): the slot
    takes the thread. *)
Definition cpu_bind_core (i : Z) (t : nat) (s : Sim) : Sim :=
  {| SIM_TIME := SIM_TIME s;
     heap := alter (mark_running (SIM_TIME s)) t (heap s);
     workload := workload s; ready := ready s; waiting := waiting s;
     finished := finished s;
     core := <[Z.to_nat i := Some t]> (core s);
     rand_calls := rand_calls s |}.

(** Modelled from the spec: [cpu_bind_first_idle], bind on the slot that
    [cpu_first_idle] reports.  Every caller checks [cpu_any_idle] first. *)
Definition cpu_bind_first_idle (t : nat) (s : Sim) : Sim :=
  let i := cpu_first_idle (core s) in
  if 0 <=? i then cpu_bind_core i t s else s.

(** Modelled from the spec: [cpu_unbind_core] (section 4.3 [unbind]) clears
    the slot and returns the prior occupant. *)
Definition cpu_unbind_core (i : nat) (cs : list (option nat))
  : option nat * list (option nat) :=
  (mjoin (cs !! i), <[i := None]> cs).

(** Modelled from the spec: [preempt_to_ready] (section 4.4): the occupant
    of the core goes back to Ready, [remaining] untouched. *)
Definition preempt_to_ready (i : Z) (s : Sim) : Sim :=
  match cpu_unbind_core (Z.to_nat i) (core s) with
  | (Some t, cs) =>
      {| SIM_TIME := SIM_TIME s;
         heap := alter (set_state ST_READY) t (heap s);
         workload := workload s; ready := q_push (ready s) t;
         waiting := waiting s; finished := finished s;
         core := cs; rand_calls := rand_calls s |}
  | (None, _) => s
  end.

(** Modelled from the spec: [block_to_waiting] (section 4.5): the occupant
    of the core moves to Waiting with its [unblocked_at] set. *)
Definition block_to_waiting (c : nat) (unblock : Z) (s : Sim) : Sim :=
  match cpu_unbind_core c (core s) with
  | (Some t, cs) =>
      {| SIM_TIME := SIM_TIME s;
         heap := alter (λ th, set_unblocked_at unblock (set_state ST_WAITING th))
                   t (heap s);
         workload := workload s; ready := ready s;
         waiting := q_push (waiting s) t; finished := finished s;
         core := cs; rand_calls := rand_calls s |}
  | (None, _) => s
  end.

(** Modelled from the spec: the per-core part of [cpu_step] (section 4.3
    [step]): one tick less of [remaining], floored at 0. *)
Definition step_one (t : Thread) : Thread :=
  if 0 <? remaining t then set_remaining (remaining t - 1) t else t.

(** Modelled from the spec: [cpu_step] (section 4.3 [step], section 4.6
    steps 6-7): every occupied core's thread is stepped and the clock
    advances (collect_completions reads the post-step clock: "SIM_TIME
    advanced after cpu_step_one"). *)
Definition cpu_step (s : Sim) : Sim :=
  {| SIM_TIME := SIM_TIME s + 1;
     heap := foldl (λ h t, alter step_one t h) (heap s) (occupants (core s));
     workload := workload s; ready := ready s; waiting := waiting s;
     finished := finished s; core := core s; rand_calls := rand_calls s |}.

(** Modelled from the spec: the write of [bump_queue_wait] to one thread. *)
Definition bump_wait (t : Thread) : Thread := set_wait_time (wait_time t + 1) t.

(** Modelled from the spec: [bump_queue_wait] (section 4.6 step 5): every
    thread still in Ready accrues one tick of [wait_time]. *)
Definition bump_queue_wait (s : Sim) : Sim :=
  {| SIM_TIME := SIM_TIME s;
     heap := foldl (λ h t, alter bump_wait t h) (heap s) (ready s);
     workload := workload s; ready := ready s; waiting := waiting s;
     finished := finished s; core := core s; rand_calls := rand_calls s |}.

(** Modelled from the spec: the scan of [waiting_io_resolve] (sections 4.5
    and 4.6 step 2): every Waiting thread whose unblock time equals the
    clock moves to Ready; the others stay, in order. *)
Fixpoint resolve_scan (now : Z) (wq : list nat) (h : list Thread)
    (rdy keep : list nat) : list Thread * list nat * list nat :=
  match wq with
  | [] => (h, rdy, keep)
  | t :: wq' =>
      if unblocked_at (h !!! t) =? now
      then resolve_scan now wq' (alter (set_state ST_READY) t h) (q_push rdy t) keep
      else resolve_scan now wq' h rdy (q_push keep t)
  end.

(** Modelled from the spec: [waiting_io_resolve]. *)
Definition waiting_io_resolve (now : Z) (s : Sim) : Sim :=
  let '(h, rdy, keep) := resolve_scan now (waiting s) (heap s) (ready s) [] in
  {| SIM_TIME := SIM_TIME s; heap := h; workload := workload s; ready := rdy;
     waiting := keep; finished := finished s; core := core s;
     rand_calls := rand_calls s |}.

(** ** sim.c *)

(* workload_add: make_thread, then q_push on the workload queue *)
Definition workload_add (id arrival burst : Z) (s : Sim) : Sim :=
  {| SIM_TIME := SIM_TIME s;
     heap := heap s ++ [make_thread id arrival burst];
     workload := q_push (workload s) (length (heap s));
     ready := ready s; waiting := waiting s; finished := finished s;
     core := core s; rand_calls := rand_calls s |}.

(* workload_admit_tick, first loop: pop every thread of the workload; the
   arrivals of this tick go to Ready, the others to [keep]. *)
Fixpoint admit_scan (now : Z) (wl : list nat) (h : list Thread)
    (rdy keep : list nat) : list Thread * list nat * list nat :=
  match wl with
  | [] => (h, rdy, keep)
  | t :: wl' =>
      if arrival_time (h !!! t) =? now
      then admit_scan now wl' (alter (set_state ST_READY) t h) (q_push rdy t) keep
      else admit_scan now wl' h rdy (q_push keep t)
  end.

(* workload_admit_tick, second loop: while (!q_empty(&keep)) q_push(workload, q_pop(&keep)) *)
Fixpoint q_move_all (src dst : list nat) : list nat :=
  match src with
  | [] => dst
  | t :: src' => q_move_all src' (q_push dst t)
  end.

Definition workload_admit_tick (now : Z) (s : Sim) : Sim :=
  if q_empty (workload s) then s
  else
    let '(h, rdy, keep) := admit_scan now (workload s) (heap s) (ready s) [] in
    {| SIM_TIME := SIM_TIME s; heap := h; workload := q_move_all keep [];
       ready := rdy; waiting := waiting s; finished := finished s;
       core := core s; rand_calls := rand_calls s |}.

(* collect_completions, body of the loop at core i *)
Definition mark_finished (now : Z) (t : Thread) : Thread :=
  let t1 := set_state ST_FINISHED t in
  if finish_time t1 <? 0 then set_finish_time now t1 else t1.

Definition collect_at (s : Sim) (i : nat) : Sim :=
  match core s !! i with
  | Some (Some t) =>
      if remaining (heap s !!! t) =? 0 then
        {| SIM_TIME := SIM_TIME s;
           heap := alter (mark_finished (SIM_TIME s)) t (heap s);
           workload := workload s; ready := ready s; waiting := waiting s;
           finished := q_push (finished s) t;
           core := (cpu_unbind_core i (core s)).2;
           rand_calls := rand_calls s |}
      else s
  | _ => s
  end.

Definition collect_completions (s : Sim) : Sim :=
  foldl collect_at s (seq 0 (length (core s))).

(* all_done *)
Definition all_done (s : Sim) : bool :=
  if negb (q_empty (ready s)) then false
  else if negb (q_empty (waiting s)) then false
  else forallb (λ c, match c with Some _ => false | None => true end) (core s).

(** ** Random interrupts (sim.c) *)

(** [rand()] is an explicit stream: the k-th call returns [rand k].  C's [%]
    truncates, as [Z.rem] does. *)
Definition use_rand (s : Sim) : Sim :=
  {| SIM_TIME := SIM_TIME s; heap := heap s; workload := workload s;
     ready := ready s; waiting := waiting s; finished := finished s;
     core := core s; rand_calls := S (rand_calls s) |}.

(* rnd: a + rand() % (b - a + 1), with the rand() call number k.  This is
   the value on the integers; it is the value the int computation of sim.c
   yields where that computation stays inside int and does not divide by 0
   ([rnd_int] and [rnd_defined] below). *)
Definition rnd (rand : nat → Z) (a b : Z) (k : nat) : Z :=
  a + Z.rem (rand k) (b - a + 1).

Definition INT_MIN : Z := -2147483648.
Definition INT_MAX : Z := 2147483647.

(* the 32-bit two's complement int that an integer result is stored as *)
Definition wrap_int (z : Z) : Z := (z + 2147483648) mod 4294967296 - 2147483648.

(* rnd as sim.c computes it, every operation in int: b - a, + 1, %, a + ...
   The expression has no value where the divisor is 0 or where INT_MIN is
   divided by -1 (the division traps). *)
Definition rnd_int (rand : nat → Z) (a b : Z) (k : nat) : option Z :=
  let d := wrap_int (wrap_int (b - a) + 1) in
  if d =? 0 then None
  else if (rand k =? INT_MIN) && (d =? -1) then None
  else Some (wrap_int (a + Z.rem (rand k) d)).

(* the bounds within which no int operation of rnd wraps and the divisor
   is positive *)
Definition rnd_defined (a b : Z) : Prop :=
  INT_MIN ≤ a ∧ a ≤ b ∧ b ≤ INT_MAX ∧ b - a < INT_MAX.

(* random_interrupts, body of the loop at core c.  The call to log_io_event
   only writes to the log, which the simulation never reads back. *)
Definition interrupt_at (cfg : InterruptConfig) (rand : nat → Z)
    (s : Sim) (c : nat) : Sim :=
  match core s !! c with
  | Some (Some _) =>
      let r := Z.rem (rand (rand_calls s)) 100 in
      let s1 := use_rand s in
      if r <? pct_io cfg then
        let dur := rnd rand (io_min cfg) (io_max cfg) (rand_calls s1) in
        let s2 := use_rand s1 in
        let unblock := SIM_TIME s2 + dur in
        block_to_waiting c unblock s2
      else s1
  | _ => s
  end.

Definition random_interrupts (cfg : InterruptConfig) (rand : nat → Z)
    (s : Sim) : Sim :=
  if enable_random cfg
  then foldl (interrupt_at cfg rand) s (seq 0 (length (core s)))
  else s.

(** ** Dispatch policies (dispatch.c) *)

Definition set_ready (q : list nat) (s : Sim) : Sim :=
  {| SIM_TIME := SIM_TIME s; heap := heap s; workload := workload s;
     ready := q; waiting := waiting s; finished := finished s;
     core := core s; rand_calls := rand_calls s |}.

(** The loop shared by the three policies:
    [while (cpu_any_idle(cpu)) { t = pop(ready); if (!t) break; cpu_bind_first_idle(cpu, t); }].
    Every iteration that continues removes one thread from Ready, so the
    policies run it with [length (ready s)] units of fuel (see
    [fill_idle_fuel]). *)
Fixpoint fill_idle (pop : list Thread → list nat → option (nat * list nat))
    (fuel : nat) (s : Sim) : Sim :=
  match fuel with
  | O => s
  | S fuel' =>
      if cpu_any_idle (core s) then
        match pop (heap s) (ready s) with
        | None => s
        | Some (t, q') =>
            fill_idle pop fuel' (cpu_bind_first_idle t (set_ready q' s))
        end
      else s
  end.

Definition dispatch_fifo (s : Sim) : Sim :=
  fill_idle (λ _ q, q_pop q) (length (ready s)) s.

Definition dispatch_sjf (s : Sim) : Sim :=
  fill_idle q_pop_min_burst (length (ready s)) s.

(* core_with_largest_remaining_above: the loop from core i on *)
Fixpoint largest_above_from (h : list Thread) (threshold : Z)
    (cs : list (option nat)) (i best_core best_rem : Z) : Z :=
  match cs with
  | [] => best_core
  | None :: cs' => largest_above_from h threshold cs' (i + 1) best_core best_rem
  | Some r :: cs' =>
      if (threshold <? remaining (h !!! r)) && (best_rem <? remaining (h !!! r))
      then largest_above_from h threshold cs' (i + 1) i (remaining (h !!! r))
      else largest_above_from h threshold cs' (i + 1) best_core best_rem
  end.

Definition core_with_largest_remaining_above (h : list Thread)
    (cs : list (option nat)) (threshold : Z) : Z :=
  largest_above_from h threshold cs 0 (-1) (-1).

(** How the preemption loop of [dispatch_srtcf] was left: through
    [if (!best) break;] or through the final [q_push(ready, best); break;]. *)
Inductive PreemptExit : Set := ExitReadyEmpty | ExitNoVictim.

(* dispatch_srtcf, the for(;;) loop; None when the fuel runs out *)
Fixpoint srtcf_preempt (fuel : nat) (s : Sim) : option (PreemptExit * Sim) :=
  match fuel with
  | O => None
  | S fuel' =>
      match q_pop_min_remaining (heap s) (ready s) with
      | None => Some (ExitReadyEmpty, s)
      | Some (best, q') =>
          let s1 := set_ready q' s in
          let idle := cpu_first_idle (core s1) in
          if 0 <=? idle then srtcf_preempt fuel' (cpu_bind_core idle best s1)
          else
            let victim :=
              core_with_largest_remaining_above (heap s1) (core s1)
                (remaining (heap s1 !!! best)) in
            if 0 <=? victim
            then srtcf_preempt fuel'
                   (cpu_bind_core victim best (preempt_to_ready victim s1))
            else Some (ExitNoVictim, set_ready (q_push (ready s1) best) s1)
      end
  end.

(** [dispatch_srtcf]: the fill phase, then the preemption loop.  One more
    unit of fuel than there are cores always suffices
    ([srtcf_preempt_terminates]). *)
Definition srtcf_fill (s : Sim) : Sim :=
  fill_idle q_pop_min_remaining (length (ready s)) s.

Definition dispatch_srtcf (s : Sim) : Sim :=
  let s1 := srtcf_fill s in
  match srtcf_preempt (S (length (core s1))) s1 with
  | Some (_, s2) => s2
  | None => s1
  end.

Definition dispatch_get (algo : DispatchAlgo) : Sim → Sim :=
  match algo with
  | DISP_FIFO => dispatch_fifo
  | DISP_SJF => dispatch_sjf
  | DISP_SRTCF => dispatch_srtcf
  end.

(** ** The simulation loop (sim.c, main) *)

(** One iteration of the main loop up to the [log_snapshot] call: admission,
    I/O resolution, random interrupts, the dispatch policy and the wait
    accrual. *)
Definition tick_dispatch (algo : DispatchAlgo) (cfg : InterruptConfig)
    (rand : nat → Z) (s : Sim) : Sim :=
  let s1 := workload_admit_tick (SIM_TIME s) s in
  let s2 := waiting_io_resolve (SIM_TIME s1) s1 in
  let s3 := random_interrupts cfg rand s2 in
  let s4 := dispatch_get algo s3 in
  bump_queue_wait s4.

(** One full iteration, up to and including [collect_completions]. *)
Definition tick (algo : DispatchAlgo) (cfg : InterruptConfig)
    (rand : nat → Z) (s : Sim) : Sim :=
  collect_completions (cpu_step (tick_dispatch algo cfg rand s)).

(** [for (;;) { ...; if (all_done(...)) break; }]: [None] when [fuel]
    iterations were not enough to reach the [break]. *)
Fixpoint main_loop (algo : DispatchAlgo) (cfg : InterruptConfig)
    (rand : nat → Z) (fuel : nat) (s : Sim) : option Sim :=
  match fuel with
  | O => None
  | S fuel' =>
      let s' := tick algo cfg rand s in
      if all_done s' then Some s' else main_loop algo cfg rand fuel' s'
  end.

(** The state at every tick boundary, whether or not the loop has stopped. *)
Fixpoint ticks (algo : DispatchAlgo) (cfg : InterruptConfig)
    (rand : nat → Z) (n : nat) (s : Sim) : Sim :=
  match n with
  | O => s
  | S n' => ticks algo cfg rand n' (tick algo cfg rand s)
  end.

(** [main] before the loop: empty queues, [cpu_init] with [ncores] idle
    cores, the workload entries [(tid, arrival, burst)] added in order, the
    clock at 0 and the arrivals of tick 0 admitted. *)
Definition sim_empty (ncores : nat) : Sim :=
  {| SIM_TIME := 0; heap := []; workload := []; ready := []; waiting := [];
     finished := []; core := replicate ncores None; rand_calls := 0 |}.

Definition load_workload (entries : list (Z * Z * Z)) (s : Sim) : Sim :=
  foldl (λ s e, workload_add e.1.1 e.1.2 e.2 s) s entries.

Definition sim_start (ncores : nat) (entries : list (Z * Z * Z)) : Sim :=
  let s := load_workload entries (sim_empty ncores) in
  workload_admit_tick (SIM_TIME s) s.

Definition simulate (algo : DispatchAlgo) (cfg : InterruptConfig)
    (rand : nat → Z) (ncores : nat) (entries : list (Z * Z * Z))
    (fuel : nat) : option Sim :=
  main_loop algo cfg rand fuel (sim_start ncores entries).

(** The small preset of [main] and its interrupt configuration. *)
Definition preset_small : list (Z * Z * Z) :=
  [(1, 0, 5); (2, 0, 3); (3, 2, 6); (4, 4, 4)].

Definition intr_main : InterruptConfig :=
  {| enable_random := false; pct_io := 10; io_min := 2; io_max := 6 |}.

Definition finish_times (s : Sim) : list (Z * Z) :=
  (λ t, (tid t, finish_time t)) <$> heap s.

Definition start_times (s : Sim) : list (Z * Z) :=
  (λ t, (tid t, start_time t)) <$> heap s.

(** The per-core execution trace: for each of the next [n] ticks, the tid
    running on every core during that tick ([-1] for an idle core). *)
Definition core_tids (s : Sim) : list Z :=
  (λ c, match c with Some t => tid (heap s !!! t) | None => -1 end) <$> core s.

Fixpoint run_trace (algo : DispatchAlgo) (cfg : InterruptConfig)
    (rand : nat → Z) (n : nat) (s : Sim) : list (list Z) :=
  match n with
  | O => []
  | S n' =>
      let s5 := tick_dispatch algo cfg rand s in
      core_tids s5 :: run_trace algo cfg rand n' (collect_completions (cpu_step s5))
  end.

(** ** The array-based shortest-job pass (abhinav-daniel-eric-vin/sjf.c) *)

Module SjfArray.

(** The fields of [struct process] that [sjf] uses. *)
Record process : Set := mkProcess {
  remainingTime : Z;
  finishTime : Z
}.

(** Result of a computation that indexes the process array: a value, or the
    first index that was read outside the entries the array holds. *)
Inductive access (A : Type) : Type :=
  | InBounds (a : A)
  | OutOfBounds (i : nat).
Arguments InBounds {A} a.
Arguments OutOfBounds {A} i.

(** The selection loop of [sjf] from index [i] on, with [n] iterations to
    go: [if (procArray[i]->remainingTime <= shortest) { shortest = ...; pid = i; }].
    [pid] starts uninitialised. *)
Fixpoint scan_from (procArray : list process) (n i : nat) (shortest : Z)
    (pid : option nat) : access (Z * option nat) :=
  match n with
  | O => InBounds (shortest, pid)
  | S n' =>
      match procArray !! i with
      | None => OutOfBounds i
      | Some p =>
          if remainingTime p <=? shortest
          then scan_from procArray n' (S i) (remainingTime p) (Some i)
          else scan_from procArray n' (S i) shortest pid
      end
  end.

(** [for (int i = 0; i <= len; i++)]: [len + 1] iterations, where [len] is
    the number of entries the caller's array holds.  (The source declares
    the parameter as [int* len] and still writes the bound as [i <= len];
    the entry count is the smallest bound that comparison can stand for, and
    already with it the loop reaches index [len].) *)
Definition sjf_scan (procArray : list process) (len : nat)
  : access (Z * option nat) :=
  scan_from procArray (S len) 0 2147483647 None.

End SjfArray.

(** Two small start states used as examples: three threads that all arrive
    at tick 0 on one core, and a single thread. *)
Definition three_ready : Sim := sim_start 1 [(1, 0, 5); (2, 0, 2); (3, 0, 7)].

Definition single_arrival : Sim := sim_start 1 [(1, 0, 1)].


(** ** Properties of states *)

(** The scan shared by admission and I/O resolution, with the tested field
    as a parameter ([admit_scan_move_due], [resolve_scan_move_due]). *)
Fixpoint move_due (key : Thread → Z) (now : Z) (src : list nat)
    (h : list Thread) (rdy keep : list nat)
  : list Thread * list nat * list nat :=
  match src with
  | [] => (h, rdy, keep)
  | t :: src' =>
      if key (h !!! t) =? now
      then move_due key now src' (alter (set_state ST_READY) t h) (q_push rdy t) keep
      else move_due key now src' h rdy (q_push keep t)
  end.


(** Threads that still have work to do, and every place a thread can be. *)
Definition active (s : Sim) : list nat :=
  workload s ++ ready s ++ waiting s ++ occupants (core s).

Definition places (s : Sim) : list nat := finished s ++ active s.

(** Monotonicity of the bookkeeping fields of one thread between two
    states. *)
Definition thread_mono (t t' : Thread) : Prop :=
  remaining t' ≤ remaining t ∧
  wait_time t ≤ wait_time t' ∧
  (0 ≤ start_time t → start_time t' = start_time t) ∧
  (0 ≤ finish_time t → finish_time t' = finish_time t).

(** What the steps before [cpu_step] may do to a thread: its progress and
    identity are untouched, waiting time can only grow and a recorded start
    time stays. *)
Definition sched_stable (t t' : Thread) : Prop :=
  tid t' = tid t ∧ arrival_time t' = arrival_time t ∧
  burst_time t' = burst_time t ∧ remaining t' = remaining t ∧
  finish_time t' = finish_time t ∧ wait_time t ≤ wait_time t' ∧
  (0 ≤ start_time t → start_time t' = start_time t).

(** What an interrupt may do to a thread: only [state] and [unblocked_at]
    can differ. *)
Definition intr_frame (t t' : Thread) : Prop :=
  tid t' = tid t ∧ arrival_time t' = arrival_time t ∧
  burst_time t' = burst_time t ∧ remaining t' = remaining t ∧
  start_time t' = start_time t ∧ finish_time t' = finish_time t ∧
  wait_time t' = wait_time t.

(** Overwrite the [remaining] field of every Thread object: entry [i] gets
    [g i]. *)
Definition scramble_remaining (g : nat → Z) (s : Sim) : Sim :=
  {| SIM_TIME := SIM_TIME s;
     heap := imap (λ i t, set_remaining (g i) t) (heap s);
     workload := workload s; ready := ready s; waiting := waiting s;
     finished := finished s; core := core s; rand_calls := rand_calls s |}.

(** Relation between the state before and after the steps of a tick that
    precede [cpu_step]. *)
Record pre_step (s s' : Sim) : Prop := mkPreStep {
  ps_time : SIM_TIME s' = SIM_TIME s;
  ps_heap_len : length (heap s') = length (heap s);
  ps_core_len : length (core s') = length (core s);
  ps_finished : finished s' = finished s;
  ps_active : active s' ≡ₚ active s;
  ps_fields : ∀ p, sched_stable (heap s !!! p) (heap s' !!! p)
}.

(** What a dispatch policy may do on top of [pre_step]: it leaves the
    workload and Waiting queues, the unblock times and the random stream
    alone. *)
Record dispatch_rel (s s' : Sim) : Prop := mkDispatchRel {
  dr_pre : pre_step s s';
  dr_workload : workload s' = workload s;
  dr_waiting : waiting s' = waiting s;
  dr_rand : rand_calls s' = rand_calls s;
  dr_unblock : ∀ p, unblocked_at (heap s' !!! p) = unblocked_at (heap s !!! p)
}.

(** A pop operation on the Ready queue: "none" exactly on the empty queue,
    otherwise one element is taken out. *)
Definition pop_ok (pop : list Thread → list nat → option (nat * list nat)) : Prop :=
  ∀ h q, match pop h q with
         | None => q = []
         | Some (t, q') => q ≡ₚ t :: q'
         end.

(** Loop invariant of the scan in [core_with_largest_remaining_above] over
    the cores [pre] already visited. *)
Definition scan_inv (h : list Thread) (th : Z) (pre : list (option nat))
    (bc br : Z) : Prop :=
  (bc = -1 ∧ br = -1 ∧
   ∀ t, t ∈ occupants pre →
     ¬ (th < remaining (h !!! t) ∧ -1 < remaining (h !!! t))) ∨
  (∃ (k t : nat), bc = Z.of_nat k ∧ pre !! k = Some (Some t) ∧
     remaining (h !!! t) = br ∧ th < br ∧ -1 < br ∧
     ∀ t', t' ∈ occupants pre → th < remaining (h !!! t') →
       remaining (h !!! t') ≤ br).

(** What [collect_completions] may do: it only clears core slots and moves
    their threads to Finished; progress and unblock times are not written. *)
Record collect_rel (s s' : Sim) : Prop := mkCollectRel {
  cr_time : SIM_TIME s' = SIM_TIME s;
  cr_heap_len : length (heap s') = length (heap s);
  cr_core_len : length (core s') = length (core s);
  cr_workload : workload s' = workload s;
  cr_ready : ready s' = ready s;
  cr_waiting : waiting s' = waiting s;
  cr_places : places s' ≡ₚ places s;
  cr_active : active s' ⊆+ active s;
  cr_remaining : ∀ p, remaining (heap s' !!! p) = remaining (heap s !!! p);
  cr_unblock : ∀ p, unblocked_at (heap s' !!! p) = unblocked_at (heap s !!! p);
  cr_slots : ∀ i t, core s' !! i = Some (Some t) → core s !! i = Some (Some t)
}.

(** A core slot that the preemption loop can still improve for a candidate
    of remaining time [th]: an idle one, or one whose thread has more left. *)
Definition improvable_slot (h : list Thread) (th : Z) (c : option nat) : nat :=
  match c with
  | None => 1
  | Some t => if th <? remaining (h !!! t) then 1 else 0
  end.

Definition preempt_need (s : Sim) : nat :=
  match q_pop_min_remaining (heap s) (ready s) with
  | None => 0
  | Some (best, _) =>
      sum_list_with (improvable_slot (heap s) (remaining (heap s !!! best)))
        (core s)
  end.

(** Well-formed workload and configuration ([workload_prompt] accepts
    exactly these entries; [rand()] is never negative). *)
Definition entry_ok (e : Z * Z * Z) : Prop := 0 ≤ e.1.2 ∧ 0 < e.2.

Definition intr_ok (cfg : InterruptConfig) : Prop :=
  0 < io_min cfg ∧ io_min cfg ≤ io_max cfg.

(** Invariant of the simulation loop at tick boundaries. *)
Record sim_inv (s : Sim) : Prop := mkSimInv {
  inv_places : places s ≡ₚ seq 0 (length (heap s));
  inv_work : ∀ p, p ∈ active s → 1 ≤ remaining (heap s !!! p);
  inv_unblock : ∀ p, p ∈ waiting s → SIM_TIME s ≤ unblocked_at (heap s !!! p);
  inv_cores : (1 ≤ length (core s))%nat
}.

(** Work left in the system, and total time the Waiting threads still have
    to wait. *)
Definition work_left (s : Sim) : nat :=
  sum_list_with (λ p, Z.to_nat (remaining (heap s !!! p))) (active s).

Definition wait_left (s : Sim) : nat :=
  sum_list_with (λ p, Z.to_nat (unblocked_at (heap s !!! p) - SIM_TIME s))
    (waiting s).

Definition all_idle (cs : list (option nat)) : Prop := Forall (λ c, c = None) cs.

(** Invariant of the interrupt pass at clock [now]: every Waiting thread
    unblocks strictly later, and the core slots hold allocated threads. *)
Definition intr_inv (now : Z) (s : Sim) : Prop :=
  (∀ p, p ∈ waiting s → now < unblocked_at (heap s !!! p)) ∧
  (∀ p, p ∈ occupants (core s) → (p < length (heap s))%nat).

(** The main loop started in [s] reaches its [break]. *)
Definition terminates (algo : DispatchAlgo) (cfg : InterruptConfig)
    (rand : nat → Z) (s : Sim) : Prop :=
  ∃ fuel s', main_loop algo cfg rand fuel s = Some s' ∧ all_done s' = true.


(** ** Further notions used to describe the code *)

(** Number of idle cores. *)
Definition idle_count (cs : list (option nat)) : nat :=
  (length cs - length (occupants cs))%nat.

(** A second loop invariant of the victim scan, which also records that the
    cores before the current best one hold threads with strictly less
    remaining time. *)
Definition scan_first_inv (h : list Thread) (th : Z) (pre : list (option nat))
    (bc br : Z) : Prop :=
  -1 ≤ br ∧
  (∀ t', t' ∈ occupants pre → th < remaining (h !!! t') →
     remaining (h !!! t') ≤ br) ∧
  (bc = -1 ∨
   ∃ (k t : nat), bc = Z.of_nat k ∧ pre !! k = Some (Some t) ∧
     remaining (h !!! t) = br ∧
     ∀ (j t' : nat), (j < k)%nat → pre !! j = Some (Some t') →
       th < remaining (h !!! t') → remaining (h !!! t') < br).

(** What [collect_completions] does to one core slot, given the Thread
    objects. *)
Definition collect_slot (h : list Thread) (c : option nat) : option nat :=
  match c with
  | Some t => if remaining (h !!! t) =? 0 then None else Some t
  | None => None
  end.

(** [n] more calls to [rand()] have been made. *)
Definition skip_rand (n : nat) (s : Sim) : Sim :=
  {| SIM_TIME := SIM_TIME s; heap := heap s; workload := workload s;
     ready := ready s; waiting := waiting s; finished := finished s;
     core := core s; rand_calls := (n + rand_calls s)%nat |}.


(** The places a thread can be in, and every thread with its place. *)
Inductive Place : Set := P_NEW | P_READY | P_WAITING | P_CORE | P_FINISHED.

Definition tagged (s : Sim) : list (Place * nat) :=
  (pair P_NEW <$> workload s) ++ (pair P_READY <$> ready s)
  ++ (pair P_WAITING <$> waiting s) ++ (pair P_CORE <$> occupants (core s))
  ++ (pair P_FINISHED <$> finished s).

(** Every thread is in one place only, is allocated, and its Thread object
    satisfies what [ok] asks of a thread in that place. *)
Definition placed (ok : Place → Thread → Prop) (s : Sim) : Prop :=
  NoDup (snd <$> tagged s) ∧
  (∀ p, p ∈ (snd <$> tagged s) → (p < length (heap s))%nat) ∧
  Forall (λ x, ok x.1 (heap s !!! x.2)) (tagged s).

(** The state field and the time stamps that go with each place at clock
    [now]. *)
Definition state_ok (now : Z) (pl : Place) (t : Thread) : Prop :=
  match pl with
  | P_NEW => state t = ST_NEW ∧ start_time t = -1 ∧ finish_time t = -1
  | P_READY => state t = ST_READY ∧ start_time t ≤ now ∧ finish_time t = -1
  | P_WAITING =>
      state t = ST_WAITING ∧ 0 ≤ start_time t ∧ start_time t ≤ now ∧
      finish_time t = -1
  | P_CORE =>
      state t = ST_RUNNING ∧ 0 ≤ start_time t ∧ start_time t ≤ now ∧
      finish_time t = -1
  | P_FINISHED =>
      state t = ST_FINISHED ∧ remaining t = 0 ∧ 0 ≤ start_time t ∧
      start_time t ≤ finish_time t ∧ finish_time t ≤ now
  end.

(** The accounts of a thread in each place.  [na] is the least arrival time
    of a thread still in the workload queue, [nr] and [nc] the clock up to
    which a Ready and a running thread are charged, [lo] the least
    remaining time of a running thread.  No thread is in Waiting. *)
Definition acct (na nr nc lo : Z) (pl : Place) (t : Thread) : Prop :=
  match pl with
  | P_NEW =>
      na ≤ arrival_time t ∧ remaining t = burst_time t ∧ wait_time t = 0 ∧
      1 ≤ burst_time t
  | P_READY =>
      nr - arrival_time t = burst_time t - remaining t + wait_time t ∧
      1 ≤ remaining t ∧ remaining t ≤ burst_time t ∧ 0 ≤ wait_time t ∧
      (start_time t < 0 ∨ arrival_time t ≤ start_time t)
  | P_WAITING => False
  | P_CORE =>
      nc - arrival_time t = burst_time t - remaining t + wait_time t ∧
      lo ≤ remaining t ∧ remaining t ≤ burst_time t ∧ 0 ≤ wait_time t ∧
      arrival_time t ≤ start_time t
  | P_FINISHED =>
      finish_time t - arrival_time t = burst_time t + wait_time t ∧
      0 ≤ wait_time t ∧ arrival_time t ≤ start_time t
  end.

(** State and accounts at a tick boundary with clock [now]: a thread that
    has arrived and is not finished has spent every tick since its arrival
    either running or waiting in Ready; the turnaround time of a finished
    thread is its burst time plus its wait time. *)
Definition acct_ok (now : Z) (pl : Place) (t : Thread) : Prop :=
  state_ok now pl t ∧ acct now now now 1 pl t.

(** * Verification *)

(** ** Thread records and the heap *)

Lemma sched_stable_refl t : sched_stable t t.
Proof. unfold sched_stable. repeat split; auto; lia. Qed.

Lemma sched_stable_trans t1 t2 t3 :
  sched_stable t1 t2 → sched_stable t2 t3 → sched_stable t1 t3.
Proof.
  unfold sched_stable.
  intros (?&?&?&?&?&?&Hs1) (?&?&?&?&?&?&Hs2).
  repeat split; try congruence; try lia.
Qed.

Lemma sched_stable_mono t t' : sched_stable t t' → thread_mono t t'.
Proof.
  unfold sched_stable, thread_mono. intros (?&?&?&?&?&?&?).
  repeat split; auto; try lia.
Qed.

Lemma thread_mono_refl t : thread_mono t t.
Proof. unfold thread_mono. repeat split; auto; lia. Qed.

Lemma thread_mono_trans t1 t2 t3 :
  thread_mono t1 t2 → thread_mono t2 t3 → thread_mono t1 t3.
Proof.
  unfold thread_mono. intros (?&?&Hs1&Hf1) (?&?&Hs2&Hf2).
  repeat split; lia.
Qed.

Lemma intr_frame_refl t : intr_frame t t.
Proof. unfold intr_frame. repeat split; auto. Qed.

Lemma intr_frame_trans t1 t2 t3 :
  intr_frame t1 t2 → intr_frame t2 t3 → intr_frame t1 t3.
Proof.
  unfold intr_frame. intros (?&?&?&?&?&?&?) (?&?&?&?&?&?&?).
  repeat split; congruence.
Qed.

Lemma set_state_stable st t : sched_stable t (set_state st t).
Proof. unfold sched_stable; simpl. repeat split; auto; lia. Qed.

Lemma mark_running_stable now t : sched_stable t (mark_running now t).
Proof.
  unfold sched_stable, mark_running. destruct (start_time t <? 0) eqn:E; simpl;
    repeat split; auto; try lia.
Qed.

Lemma bump_wait_stable t : sched_stable t (bump_wait t).
Proof. unfold sched_stable, bump_wait; simpl. repeat split; auto; lia. Qed.

Lemma block_stable u t :
  sched_stable t (set_unblocked_at u (set_state ST_WAITING t)).
Proof. unfold sched_stable; simpl. repeat split; auto; lia. Qed.

Lemma block_frame u t :
  intr_frame t (set_unblocked_at u (set_state ST_WAITING t)).
Proof. unfold intr_frame; simpl. repeat split; auto. Qed.

Lemma step_one_mono t : thread_mono t (step_one t).
Proof.
  unfold thread_mono, step_one. destruct (0 <? remaining t); simpl;
    repeat split; auto; lia.
Qed.

Lemma mark_finished_mono now t : thread_mono t (mark_finished now t).
Proof.
  unfold thread_mono, mark_finished. simpl.
  destruct (finish_time t <? 0) eqn:E; simpl; repeat split; auto; try lia.
Qed.

(** A write through one pointer relates every heap cell to itself or to
    its update. *)
Lemma alter_rel (R : Thread → Thread → Prop) f (p q : nat) (h : list Thread) :
  (∀ t, R t t) → (∀ t, R t (f t)) → R (h !!! q) (alter f p h !!! q).
Proof.
  intros Hrefl Hf. rewrite list_lookup_total_alter.
  case_decide as Hd; [destruct Hd as [-> _]; apply Hf | apply Hrefl].
Qed.

Lemma foldl_alter_rel (R : Thread → Thread → Prop) f (ps : list nat)
    (h : list Thread) (q : nat) :
  (∀ t, R t t) → (∀ t1 t2 t3, R t1 t2 → R t2 t3 → R t1 t3) →
  (∀ t, R t (f t)) →
  R (h !!! q) (foldl (λ h t, alter f t h) h ps !!! q).
Proof.
  intros Hrefl Htrans Hf. revert h.
  induction ps as [|p ps IH]; intros h; simpl; [apply Hrefl|].
  eapply Htrans; [|apply IH]. by apply alter_rel.
Qed.

Lemma foldl_alter_length f (ps : list nat) (h : list Thread) :
  length (foldl (λ h t, alter f t h) h ps) = length h.
Proof.
  revert h. induction ps as [|p ps IH]; intros h; simpl; [done|].
  by rewrite IH, length_alter.
Qed.

(** ** Queues *)

Lemma q_pop_min_by_None key q : q_pop_min_by key q = None ↔ q = [].
Proof.
  destruct q as [|t q]; simpl; [done|].
  destruct (q_pop_min_by key q) as [[m rest]|]; [|done].
  by destruct (key m <? key t).
Qed.

Lemma q_pop_min_by_Some key q m rest :
  q_pop_min_by key q = Some (m, rest) →
  q ≡ₚ m :: rest ∧ ∀ x, x ∈ q → key m ≤ key x.
Proof.
  revert m rest. induction q as [|t q IH]; intros m rest; simpl; [done|].
  destruct (q_pop_min_by key q) as [[m' rest']|] eqn:E.
  - destruct (IH _ _ eq_refl) as [Hperm Hmin].
    destruct (key m' <? key t) eqn:Hlt; intros [= <- <-].
    + apply Z.ltb_lt in Hlt. split.
      * rewrite Hperm. apply Permutation_swap.
      * intros x [->|Hx]%elem_of_cons; [lia | by apply Hmin].
    + apply Z.ltb_ge in Hlt. split; [done|].
      intros x [->|Hx]%elem_of_cons; [lia|].
      specialize (Hmin x Hx). lia.
  - apply q_pop_min_by_None in E as ->. intros [= <- <-].
    split; [done|]. intros x ->%list_elem_of_singleton. lia.
Qed.

Lemma q_move_all_app src dst : q_move_all src dst = dst ++ src.
Proof.
  revert dst. induction src as [|t src IH]; intros dst; simpl.
  - by rewrite app_nil_r.
  - unfold q_push. by rewrite IH, <- app_assoc.
Qed.

(** ** Core slots *)

Lemma first_idle_from_spec cs i :
  0 ≤ i →
  (first_idle_from cs i = -1 ∧ Forall is_Some cs) ∨
  (∃ k : nat, first_idle_from cs i = i + Z.of_nat k ∧ cs !! k = Some None).
Proof.
  revert i. induction cs as [|[t|] cs IH]; intros i Hi; simpl.
  - left. by split.
  - destruct (IH (i + 1) ltac:(lia)) as [[-> Hall]|(k & -> & Hk)].
    + left. split; [done|]. constructor; [by eexists | done].
    + right. exists (S k). split; [lia | done].
  - right. exists 0%nat. split; [lia | done].
Qed.

Lemma cpu_first_idle_spec cs :
  (cpu_first_idle cs = -1 ∧ Forall is_Some cs) ∨
  (∃ k : nat, cpu_first_idle cs = Z.of_nat k ∧ cs !! k = Some None).
Proof.
  destruct (first_idle_from_spec cs 0 ltac:(lia)) as [?|(k & Hk & ?)];
    [by left | right; exists k; split; [unfold cpu_first_idle; lia | done]].
Qed.

Lemma occupants_insert_idle cs (k t : nat) :
  cs !! k = Some None → occupants (<[k := Some t]> cs) ≡ₚ t :: occupants cs.
Proof.
  revert k. induction cs as [|c cs IH]; intros [|k] Hk; simplify_eq/=; [done|].
  unfold occupants in *. simpl. destruct c as [c|]; simpl.
  - rewrite (IH k Hk). apply Permutation_swap.
  - by apply IH.
Qed.

Lemma occupants_clear cs (k t : nat) :
  cs !! k = Some (Some t) → occupants cs ≡ₚ t :: occupants (<[k := None]> cs).
Proof.
  revert k. induction cs as [|c cs IH]; intros [|k] Hk; simplify_eq/=; [done|].
  unfold occupants in *. simpl. destruct c as [c|]; simpl.
  - rewrite (IH k Hk). apply Permutation_swap.
  - by apply IH.
Qed.

Lemma occupants_all_busy cs : Forall is_Some cs → cs ≠ [] → occupants cs ≠ [].
Proof.
  intros Hall Hne. destruct cs as [|c cs]; [done|].
  apply Forall_cons in Hall as [[t ->] _]. done.
Qed.

Lemma occupants_nil_idle cs : occupants cs = [] ↔ all_idle cs.
Proof.
  unfold all_idle, occupants. induction cs as [|[t|] cs IH]; simpl.
  - split; [constructor | done].
  - split; [done | by intros [? _]%Forall_cons].
  - rewrite IH. split; [by constructor | by intros [_ ?]%Forall_cons].
Qed.

Lemma occupants_lookup cs (p : nat) :
  p ∈ occupants cs ↔ ∃ i, cs !! i = Some (Some p).
Proof.
  unfold occupants. rewrite list_elem_of_omap. split.
  - intros (c & Hc & Hp). simpl in Hp. subst c.
    by apply list_elem_of_lookup_1 in Hc.
  - intros (i & Hi). exists (Some p). split; [|done].
    by eapply list_elem_of_lookup_2.
Qed.

(** ** The selection scan of sjf.c *)

Module SjfArrayFacts.
Import SjfArray.

(** While the scan stays inside the array it never faults. *)
Lemma scan_from_in_bounds procArray n i shortest pid :
  (i + n ≤ length procArray)%nat →
  ∃ r, scan_from procArray n i shortest pid = InBounds r.
Proof.
  revert i shortest pid. induction n as [|n IH]; intros i shortest pid Hlen; simpl.
  - by eexists.
  - destruct (lookup_lt_is_Some_2 procArray i ltac:(lia)) as [p ->].
    destruct (remainingTime p <=? shortest); apply IH; lia.
Qed.

(** A scan that runs one iteration past the entries faults at the first
    index after them. *)
Lemma scan_from_overrun procArray n i shortest pid :
  (i ≤ length procArray)%nat →
  (i + n = S (length procArray))%nat →
  scan_from procArray n i shortest pid = OutOfBounds (length procArray).
Proof.
  revert i shortest pid.
  induction n as [|n IH]; intros i shortest pid Hi Hlen; simpl.
  - lia.
  - destruct (procArray !! i) as [p|] eqn:Hp.
    + apply lookup_lt_Some in Hp.
      destruct (remainingTime p <=? shortest); apply IH; lia.
    + apply lookup_ge_None in Hp. f_equal. lia.
Qed.

(** C10: the selection scan of [sjf] runs with the bound [i <= len] over an
    array whose valid entries are at indices [0 .. len-1]; on every such
    array it reads index [len], one past the entries, so the out-of-bounds
    branch of the indexing is reached (while the same scan stopped at
    [i < len] stays in bounds). *)
Theorem sjf_scan_reads_past_end (procArray : list process) :
  sjf_scan procArray (length procArray) = OutOfBounds (length procArray) ∧
  ∃ r, scan_from procArray (length procArray) 0 2147483647 None = InBounds r.
Proof.
  split.
  - unfold sjf_scan. apply scan_from_overrun; lia.
  - apply scan_from_in_bounds. lia.
Qed.

End SjfArrayFacts.

(** ** The scenarios of the small preset *)

(** C4: one core, FIFO, interrupts disabled, workload A(0,5), B(0,3),
    C(2,6), D(4,4) (tids 1-4): the loop stops after tick 18 with finish times
    A=5, B=8, C=14, D=18; threads are bound in arrival order (start times 0,
    5, 8, 14, completion order A B C D) and each runs on the core without
    interruption from its start to its finish. *)
Theorem fifo_scenario (rand : nat → Z) :
  ∃ s',
    simulate DISP_FIFO intr_main rand 1 preset_small 18 = Some s' ∧
    finish_times s' = [(1, 5); (2, 8); (3, 14); (4, 18)] ∧
    start_times s' = [(1, 0); (2, 5); (3, 8); (4, 14)] ∧
    finished s' = [0; 1; 2; 3]%nat ∧
    run_trace DISP_FIFO intr_main rand 18 (sim_start 1 preset_small) =
      replicate 5 [1] ++ replicate 3 [2] ++ replicate 6 [3] ++ replicate 4 [4].
Proof. eexists. split; [vm_compute; reflexivity|]. by vm_compute. Qed.

(** C5: one core, non-preemptive SJF, interrupts disabled, same workload:
    finish times B=3, A=8, D=12, C=18; each time the core is free the ready
    thread with the smallest burst is bound, and a bound thread keeps the
    core until it finishes. *)
Theorem sjf_scenario (rand : nat → Z) :
  ∃ s',
    simulate DISP_SJF intr_main rand 1 preset_small 18 = Some s' ∧
    finish_times s' = [(1, 8); (2, 3); (3, 18); (4, 12)] ∧
    start_times s' = [(1, 3); (2, 0); (3, 12); (4, 8)] ∧
    finished s' = [1; 0; 3; 2]%nat ∧
    run_trace DISP_SJF intr_main rand 18 (sim_start 1 preset_small) =
      replicate 3 [2] ++ replicate 5 [1] ++ replicate 4 [4] ++ replicate 6 [3].
Proof. eexists. split; [vm_compute; reflexivity|]. by vm_compute. Qed.

(** C7: the termination check does not look at the workload queue.  With a
    first thread arriving at tick 0 with burst 1 and a second one arriving
    at tick 10, the loop stops after the first tick, under each of the three
    policies: the second thread is still in the workload queue, still New,
    was never started and is not in the Finished queue. *)
Theorem early_stop_strands_late_arrival (algo : DispatchAlgo) (rand : nat → Z) :
  ∃ s',
    simulate algo intr_main rand 1 [(1, 0, 1); (2, 10, 3)] 1 = Some s' ∧
    all_done s' = true ∧
    SIM_TIME s' = 1 ∧
    workload s' = [1%nat] ∧
    finished s' = [0%nat] ∧
    state <$> heap s' = [ST_FINISHED; ST_NEW] ∧
    finish_times s' = [(1, 1); (2, -1)] ∧
    start_times s' = [(1, 0); (2, -1)].
Proof. destruct algo; eexists; (split; [vm_compute; reflexivity|]); by vm_compute. Qed.

(** ** Steps that precede [cpu_step] *)

Lemma pre_step_refl s : pre_step s s.
Proof. split; auto. intros p. apply sched_stable_refl. Qed.

Lemma pre_step_trans s1 s2 s3 : pre_step s1 s2 → pre_step s2 s3 → pre_step s1 s3.
Proof.
  intros [] []. split; try congruence.
  - etrans; eauto.
  - intros p. eapply sched_stable_trans; eauto.
Qed.

Lemma foldl_pre_step {A} (f : Sim → A → Sim) (l : list A) s :
  (∀ s a, pre_step s (f s a)) → pre_step s (foldl f s l).
Proof.
  intros Hf. revert s. induction l as [|a l IH]; intros s; simpl.
  - apply pre_step_refl.
  - eapply pre_step_trans; [apply Hf | apply IH].
Qed.

Lemma use_rand_pre_step s : pre_step s (use_rand s).
Proof. split; auto. intros p. apply sched_stable_refl. Qed.

Lemma bind_popped_pre_step s (k t : nat) q' :
  ready s ≡ₚ t :: q' → core s !! k = Some None →
  pre_step s (cpu_bind_core (Z.of_nat k) t (set_ready q' s)).
Proof.
  intros Hr Hk. split; simpl; auto.
  - apply length_alter.
  - apply length_insert.
  - unfold active; simpl. rewrite Nat2Z.id, occupants_insert_idle by done.
    rewrite Hr. solve_Permutation.
  - intros p. apply (alter_rel sched_stable); auto using sched_stable_refl, mark_running_stable.
Qed.

Lemma preempt_bind_pre_step s (k v best : nat) q' :
  ready s ≡ₚ best :: q' → core s !! k = Some (Some v) →
  pre_step s (cpu_bind_core (Z.of_nat k) best
                (preempt_to_ready (Z.of_nat k) (set_ready q' s))).
Proof.
  intros Hr Hk. unfold preempt_to_ready, cpu_unbind_core. simpl.
  rewrite Nat2Z.id, Hk. simpl.
  assert (k < length (core s))%nat as Hlt by (by eapply lookup_lt_Some).
  split; simpl; auto.
  - by rewrite !length_alter.
  - by rewrite !length_insert.
  - unfold active; simpl. rewrite Nat2Z.id.
    rewrite occupants_insert_idle by (by apply list_lookup_insert_eq).
    rewrite Hr, (occupants_clear _ _ _ Hk). unfold q_push. solve_Permutation.
  - intros p. eapply sched_stable_trans.
    + apply (alter_rel sched_stable (set_state ST_READY) v);
        auto using sched_stable_refl, set_state_stable.
    + apply (alter_rel sched_stable); auto using sched_stable_refl, mark_running_stable.
Qed.

Lemma block_to_waiting_pre_step c u s : pre_step s (block_to_waiting c u s).
Proof.
  unfold block_to_waiting, cpu_unbind_core.
  destruct (core s !! c) as [[t|]|] eqn:Hc; simpl; try apply pre_step_refl.
  split; simpl; auto.
  - apply length_alter.
  - apply length_insert.
  - unfold active; simpl. rewrite (occupants_clear _ _ _ Hc).
    unfold q_push. solve_Permutation.
  - intros p. apply (alter_rel sched_stable); auto using sched_stable_refl, block_stable.
Qed.

Lemma interrupt_at_pre_step cfg rand s c : pre_step s (interrupt_at cfg rand s c).
Proof.
  unfold interrupt_at. destruct (core s !! c) as [[t|]|]; try apply pre_step_refl.
  destruct (_ <? _).
  - eapply pre_step_trans; [apply use_rand_pre_step|].
    eapply pre_step_trans; [apply use_rand_pre_step|].
    apply block_to_waiting_pre_step.
  - apply use_rand_pre_step.
Qed.

Lemma random_interrupts_pre_step cfg rand s :
  pre_step s (random_interrupts cfg rand s).
Proof.
  unfold random_interrupts. destruct (enable_random cfg).
  - apply foldl_pre_step, interrupt_at_pre_step.
  - apply pre_step_refl.
Qed.

Lemma bump_queue_wait_pre_step s : pre_step s (bump_queue_wait s).
Proof.
  split; simpl; auto.
  - apply foldl_alter_length.
  - intros p. apply (foldl_alter_rel sched_stable);
      eauto using sched_stable_refl, sched_stable_trans, bump_wait_stable.
Qed.

(** *** Admission and I/O resolution *)

Lemma admit_scan_move_due now wl h rdy keep :
  admit_scan now wl h rdy keep = move_due arrival_time now wl h rdy keep.
Proof.
  revert h rdy keep. induction wl as [|t wl IH]; intros; simpl; [done|].
  by rewrite !IH.
Qed.

Lemma resolve_scan_move_due now wq h rdy keep :
  resolve_scan now wq h rdy keep = move_due unblocked_at now wq h rdy keep.
Proof.
  revert h rdy keep. induction wq as [|t wq IH]; intros; simpl; [done|].
  by rewrite !IH.
Qed.

(** The scan moves exactly the due threads, in order, and only marks them
    Ready. *)
Lemma move_due_spec key now src h rdy keep :
  (∀ st t, key (set_state st t) = key t) →
  move_due key now src h rdy keep =
    (foldl (λ h t, alter (set_state ST_READY) t h) h
       (filter (λ p, key (h !!! p) = now) src),
     rdy ++ filter (λ p, key (h !!! p) = now) src,
     keep ++ filter (λ p, ¬ key (h !!! p) = now) src).
Proof.
  intros Hkey. revert h rdy keep.
  induction src as [|t src IH]; intros h rdy keep; simpl.
  - by rewrite !app_nil_r.
  - assert (∀ p, key (alter (set_state ST_READY) t h !!! p) = key (h !!! p))
      as Hsame.
    { intros p. apply (alter_rel (λ a b, key b = key a)); auto. }
    rewrite !filter_cons. destruct (key (h !!! t) =? now) eqn:E.
    + apply Z.eqb_eq in E. rewrite IH.
      rewrite !decide_True by done. rewrite decide_False by (intros HH; done).
      unfold q_push. simpl. rewrite <- !app_assoc. simpl.
      rewrite (list_filter_iff _ (λ p, key (h !!! p) = now))
        by (intros p; by rewrite Hsame).
      rewrite (list_filter_iff (λ p, ¬ key (alter _ t h !!! p) = now)
                (λ p, ¬ key (h !!! p) = now)) by (intros p; by rewrite Hsame).
      done.
    + apply Z.eqb_neq in E. rewrite IH.
      rewrite decide_False by done. rewrite decide_True by done.
      unfold q_push. by rewrite <- !app_assoc.
Qed.

Lemma workload_admit_tick_pre_step now s : pre_step s (workload_admit_tick now s).
Proof.
  unfold workload_admit_tick. destruct (q_empty (workload s)); [apply pre_step_refl|].
  rewrite admit_scan_move_due, move_due_spec by done.
  rewrite q_move_all_app. split; simpl; auto.
  - apply foldl_alter_length.
  - unfold active; simpl.
    rewrite <- (filter_app_complement (λ p, arrival_time (heap s !!! p) = now)
                 (workload s)) at 3.
    solve_Permutation.
  - intros p. apply (foldl_alter_rel sched_stable);
      eauto using sched_stable_refl, sched_stable_trans, set_state_stable.
Qed.

Lemma waiting_io_resolve_pre_step now s : pre_step s (waiting_io_resolve now s).
Proof.
  unfold waiting_io_resolve.
  rewrite resolve_scan_move_due, move_due_spec by done.
  split; simpl; auto.
  - apply foldl_alter_length.
  - unfold active; simpl.
    rewrite <- (filter_app_complement (λ p, unblocked_at (heap s !!! p) = now)
                 (waiting s)) at 3.
    solve_Permutation.
  - intros p. apply (foldl_alter_rel sched_stable);
      eauto using sched_stable_refl, sched_stable_trans, set_state_stable.
Qed.

(** ** Dispatch policies *)

Lemma dispatch_rel_refl s : dispatch_rel s s.
Proof. split; auto using pre_step_refl. Qed.

Lemma dispatch_rel_trans s1 s2 s3 :
  dispatch_rel s1 s2 → dispatch_rel s2 s3 → dispatch_rel s1 s3.
Proof.
  intros [] []. split; try congruence.
  eapply pre_step_trans; eauto.
Qed.

Lemma bind_popped_rel s (k t : nat) q' :
  ready s ≡ₚ t :: q' → core s !! k = Some None →
  dispatch_rel s (cpu_bind_core (Z.of_nat k) t (set_ready q' s)).
Proof.
  intros Hr Hk. split; simpl; auto using bind_popped_pre_step.
  intros p. unfold mark_running.
  apply (alter_rel (λ a b, unblocked_at b = unblocked_at a)); auto.
  intros t0. by destruct (start_time t0 <? 0).
Qed.

Lemma preempt_bind_rel s (k v best : nat) q' :
  ready s ≡ₚ best :: q' → core s !! k = Some (Some v) →
  dispatch_rel s (cpu_bind_core (Z.of_nat k) best
                    (preempt_to_ready (Z.of_nat k) (set_ready q' s))).
Proof.
  intros Hr Hk. split; [by eapply preempt_bind_pre_step|..];
    unfold preempt_to_ready, cpu_unbind_core; simpl;
    rewrite Nat2Z.id, Hk; simpl; auto.
  intros p. etrans.
  - apply (alter_rel (λ a b, unblocked_at b = unblocked_at a)); auto.
    intros t0. unfold mark_running. by destruct (start_time t0 <? 0).
  - apply (alter_rel (λ a b, unblocked_at b = unblocked_at a)); auto.
Qed.

Lemma bump_queue_wait_rel s : dispatch_rel s (bump_queue_wait s).
Proof.
  split; simpl; auto using bump_queue_wait_pre_step.
  intros p. symmetry.
  apply (foldl_alter_rel (λ a b, unblocked_at a = unblocked_at b)); auto.
  intros; congruence.
Qed.

Lemma q_pop_ok : pop_ok (λ _ q, q_pop q).
Proof. intros h [|t q]; simpl; done. Qed.

Lemma q_pop_min_by_ok key : pop_ok (λ h q, q_pop_min_by (key h) q).
Proof.
  intros h q. destruct (q_pop_min_by (key h) q) as [[m rest]|] eqn:E.
  - by apply q_pop_min_by_Some in E as [? _].
  - by apply q_pop_min_by_None in E.
Qed.

Lemma q_pop_min_burst_ok : pop_ok q_pop_min_burst.
Proof. apply (q_pop_min_by_ok (λ h p, burst_time (h !!! p))). Qed.

Lemma q_pop_min_remaining_ok : pop_ok q_pop_min_remaining.
Proof. apply (q_pop_min_by_ok (λ h p, remaining (h !!! p))). Qed.

Lemma cpu_any_idle_true cs :
  cpu_any_idle cs = true →
  ∃ k : nat, cpu_first_idle cs = Z.of_nat k ∧ cs !! k = Some None.
Proof.
  unfold cpu_any_idle. intros H%Z.leb_le.
  destruct (cpu_first_idle_spec cs) as [[? _]|?]; [lia | done].
Qed.

Lemma cpu_any_idle_false cs : cpu_any_idle cs = false → Forall is_Some cs.
Proof.
  unfold cpu_any_idle. intros H%Z.leb_gt.
  destruct (cpu_first_idle_spec cs) as [[_ ?]|(k & ? & _)]; [done | lia].
Qed.

Lemma fill_idle_rel pop fuel s : pop_ok pop → dispatch_rel s (fill_idle pop fuel s).
Proof.
  intros Hpop. revert s. induction fuel as [|fuel IH]; intros s; simpl.
  - apply dispatch_rel_refl.
  - destruct (cpu_any_idle (core s)) eqn:Hidle; [|apply dispatch_rel_refl].
    specialize (Hpop (heap s) (ready s)).
    destruct (pop (heap s) (ready s)) as [[t q']|]; [|apply dispatch_rel_refl].
    eapply dispatch_rel_trans; [|apply IH].
    apply cpu_any_idle_true in Hidle as (k & Hk & Hslot).
    unfold cpu_bind_first_idle. simpl. rewrite Hk.
    rewrite (proj2 (Z.leb_le 0 (Z.of_nat k))) by lia.
    by apply bind_popped_rel.
Qed.

Lemma cpu_bind_first_idle_ready t s : ready (cpu_bind_first_idle t s) = ready s.
Proof. unfold cpu_bind_first_idle. by destruct (0 <=? _). Qed.

(** The fill loop leaves an idle core only when Ready has run dry. *)
Lemma fill_idle_post pop fuel s :
  pop_ok pop → (length (ready s) ≤ fuel)%nat →
  cpu_any_idle (core (fill_idle pop fuel s)) = true →
  ready (fill_idle pop fuel s) = [].
Proof.
  intros Hpop. revert s. induction fuel as [|fuel IH]; intros s Hlen; simpl.
  - intros _. destruct (ready s); [done | simpl in Hlen; lia].
  - destruct (cpu_any_idle (core s)) eqn:Hidle; [|congruence].
    specialize (Hpop (heap s) (ready s)).
    destruct (pop (heap s) (ready s)) as [[t q']|]; [|done].
    apply IH. rewrite cpu_bind_first_idle_ready. simpl.
    rewrite Hpop in Hlen. simpl in Hlen. lia.
Qed.

(** More fuel than the length of Ready changes nothing: the fuel the
    policies pass is exactly what the source loop can consume. *)
Lemma fill_idle_fuel pop fuel s :
  pop_ok pop → (length (ready s) ≤ fuel)%nat →
  fill_idle pop fuel s = fill_idle pop (length (ready s)) s.
Proof.
  intros Hpop. revert s. induction fuel as [|fuel IH]; intros s Hlen.
  - by replace (length (ready s)) with 0%nat by lia.
  - pose proof (Hpop (heap s) (ready s)) as Hp.
    destruct (ready s) as [|r q] eqn:Hq.
    + simpl. rewrite Hq. destruct (cpu_any_idle (core s)); [|done].
      destruct (pop (heap s) []) as [[t q']|]; [|done].
      by apply Permutation_nil_cons in Hp.
    + simpl. rewrite Hq. destruct (cpu_any_idle (core s)); [|done].
      destruct (pop (heap s) (r :: q)) as [[t q']|]; [|done].
      assert (length q' = length q) as Hl.
      { apply Permutation_length in Hp. simpl in Hp. lia. }
      rewrite IH by (rewrite cpu_bind_first_idle_ready; simpl in *; lia).
      simpl. rewrite cpu_bind_first_idle_ready. simpl. by rewrite Hl.
Qed.

(** *** The victim scan *)

Section largest_above.
Variables (h : list Thread) (th : Z).
Lemma occupants_snoc pre c : occupants (pre ++ [c]) = occupants pre ++ occupants [c].
Proof. unfold occupants. apply omap_app. Qed.

Lemma largest_above_from_inv cs pre bc br :
  scan_inv h th pre bc br →
  ∃ br', scan_inv h th (pre ++ cs)
           (largest_above_from h th cs (Z.of_nat (length pre)) bc br) br'.
Proof.
  revert pre bc br. induction cs as [|c cs IH]; intros pre bc br Hinv; simpl.
  - rewrite app_nil_r. eauto.
  - replace (Z.of_nat (length pre) + 1) with (Z.of_nat (length (pre ++ [c])))
      by (rewrite length_app; simpl; lia).
    replace (pre ++ c :: cs) with ((pre ++ [c]) ++ cs)
      by (by rewrite <- app_assoc).
    destruct c as [r|].
    + destruct ((th <? remaining (h !!! r)) && (br <? remaining (h !!! r))) eqn:E.
      * apply andb_true_iff in E as [E1%Z.ltb_lt E2%Z.ltb_lt].
        apply IH. right. exists (length pre), r.
        split; [done|]. split; [by rewrite lookup_app_r, Nat.sub_diag by lia|].
        split; [done|]. split; [done|].
        assert (-1 < remaining (h !!! r)) as Hpos.
        { destruct Hinv as [(_ & -> & _)|(? & ? & _ & _ & _ & _ & ? & _)]; lia. }
        split; [done|].
        intros t'. rewrite occupants_snoc. simpl.
        intros [Ht' | ->%list_elem_of_singleton]%elem_of_app Hth; [|lia].
        destruct Hinv as [(_ & _ & Hno)|(? & ? & _ & _ & _ & _ & _ & Hle)].
        -- specialize (Hno t' Ht'). lia.
        -- specialize (Hle t' Ht' Hth). lia.
      * apply andb_false_iff in E.
        apply IH. destruct Hinv as [(-> & -> & Hno)|(k & t & -> & Hk & Ht & ? & ? & Hle)].
        -- left. split; [done|]. split; [done|].
           intros t'. rewrite occupants_snoc. simpl.
           intros [Ht' | ->%list_elem_of_singleton]%elem_of_app; [by apply Hno|].
           destruct E as [E%Z.ltb_ge|E%Z.ltb_ge]; lia.
        -- right. exists k, t. split; [done|].
           split; [by apply lookup_app_l_Some|].
           split; [done|]. split; [done|]. split; [done|].
           intros t'. rewrite occupants_snoc. simpl.
           intros [Ht' | ->%list_elem_of_singleton]%elem_of_app Hth;
             [by apply Hle|].
           destruct E as [E%Z.ltb_ge|E%Z.ltb_ge]; lia.
    + apply IH. destruct Hinv as [(-> & -> & Hno)|(k & t & -> & Hk & Ht & ? & ? & Hle)].
      * left. split; [done|]. split; [done|].
        intros t'. rewrite occupants_snoc. simpl. rewrite app_nil_r. apply Hno.
      * right. exists k, t. split; [done|].
        split; [by apply lookup_app_l_Some|].
        split; [done|]. split; [done|]. split; [done|].
        intros t'. rewrite occupants_snoc. simpl. rewrite app_nil_r. apply Hle.
Qed.

(** The scan returns [-1] when no occupied core has more than [th] (and
    more than the [-1] the scan starts from) left, and otherwise a core
    whose thread has more than [th] left and at least as much as every
    other running thread. *)
Lemma core_with_largest_spec cs :
  (core_with_largest_remaining_above h cs th = -1 ∧
   ∀ t, t ∈ occupants cs → ¬ (th < remaining (h !!! t) ∧ -1 < remaining (h !!! t))) ∨
  (∃ (k t : nat), core_with_largest_remaining_above h cs th = Z.of_nat k ∧
     cs !! k = Some (Some t) ∧ th < remaining (h !!! t) ∧
     ∀ t', t' ∈ occupants cs → remaining (h !!! t') ≤ remaining (h !!! t)).
Proof.
  unfold core_with_largest_remaining_above.
  destruct (largest_above_from_inv cs [] (-1) (-1)) as [br' Hinv].
  { left. split; [done|]. split; [done|]. intros t Ht. inversion Ht. }
  change (Z.of_nat (length (@nil (option nat)))) with 0 in Hinv.
  change ([] ++ cs) with cs in Hinv.
  destruct Hinv as [(-> & _ & Hno)|(k & t & -> & Hk & <- & ? & ? & Hle)].
  - left. by split.
  - right. exists k, t. split; [done|]. split; [done|]. split; [done|].
    intros t' Ht'. destruct (decide (th < remaining (h !!! t'))); [by apply Hle | lia].
Qed.
End largest_above.

(** *** The preemption loop of [dispatch_srtcf] *)

Lemma pre_step_remaining s s' p :
  pre_step s s' → remaining (heap s' !!! p) = remaining (heap s !!! p).
Proof. intros [_ _ _ _ _ Hf]. by destruct (Hf p) as (_ & _ & _ & ? & _). Qed.

Lemma requeue_rel s best q' :
  ready s ≡ₚ best :: q' →
  dispatch_rel s (set_ready (q_push q' best) (set_ready q' s)).
Proof.
  intros Hr. split; simpl; auto. split; simpl; auto.
  - unfold active; simpl. rewrite Hr. unfold q_push. solve_Permutation.
  - intros p. apply sched_stable_refl.
Qed.

Lemma srtcf_preempt_rel fuel s e s' :
  srtcf_preempt fuel s = Some (e, s') → dispatch_rel s s'.
Proof.
  revert s. induction fuel as [|fuel IH]; intros s; simpl; [done|].
  pose proof (q_pop_min_remaining_ok (heap s) (ready s)) as Hpop.
  destruct (q_pop_min_remaining (heap s) (ready s)) as [[best q']|].
  2: { intros [= <- <-]. apply dispatch_rel_refl. }
  destruct (cpu_first_idle_spec (core s)) as [[Hi _]|(k & Hi & Hk)]; rewrite Hi.
  - change (0 <=? -1) with false. cbv iota.
    destruct (core_with_largest_spec (heap s) (remaining (heap s !!! best)) (core s))
      as [[Hv _]|(k & v & Hv & Hk & _)]; rewrite Hv.
    + change (0 <=? -1) with false. cbv iota. intros [= <- <-].
      by apply requeue_rel.
    + rewrite (proj2 (Z.leb_le 0 (Z.of_nat k))) by lia. intros H.
      eapply dispatch_rel_trans; [|apply (IH _ H)]. by eapply preempt_bind_rel.
  - rewrite (proj2 (Z.leb_le 0 (Z.of_nat k))) by lia. intros H.
    eapply dispatch_rel_trans; [|apply (IH _ H)]. by apply bind_popped_rel.
Qed.

Lemma sum_list_with_replace_lt {A} (f f' : A → nat) (l : list A) k x y :
  l !! k = Some y → f y = 1%nat → f' x = 0%nat → (∀ c, (f' c ≤ f c)%nat) →
  (sum_list_with f' (<[k := x]> l) < sum_list_with f l)%nat.
Proof.
  intros Hk Hy Hx Hle. revert k Hk.
  induction l as [|c l IH]; intros [|k] Hk; simplify_eq/=.
  - assert (sum_list_with f' l ≤ sum_list_with f l)%nat.
    { clear IH. induction l as [|c l IH]; simpl; [lia|]. specialize (Hle c). lia. }
    lia.
  - specialize (IH k Hk). specialize (Hle c). lia.
Qed.

Lemma improvable_slot_mono h h' th th' c :
  (∀ p, remaining (h' !!! p) = remaining (h !!! p)) → th ≤ th' →
  (improvable_slot h' th' c ≤ improvable_slot h th c)%nat.
Proof.
  intros Hrem Hth. destruct c as [t|]; simpl; [|lia]. rewrite Hrem.
  destruct (th' <? remaining (h !!! t)) eqn:E1;
    destruct (th <? remaining (h !!! t)) eqn:E2; lia.
Qed.

(** Every iteration that continues uses up one improvable slot: the new
    occupant of the slot is the best candidate so far, and later candidates
    are no better. *)
Lemma preempt_need_decreases s s2 best q' (k : nat) y :
  q_pop_min_remaining (heap s) (ready s) = Some (best, q') →
  (∀ p, remaining (heap s2 !!! p) = remaining (heap s !!! p)) →
  (∀ x, x ∈ ready s2 → remaining (heap s !!! best) ≤ remaining (heap s !!! x)) →
  core s !! k = Some y →
  improvable_slot (heap s) (remaining (heap s !!! best)) y = 1%nat →
  core s2 = <[k := Some best]> (core s) →
  (preempt_need s2 < preempt_need s)%nat.
Proof.
  intros Hpop Hrem Hmin Hk Hy Hcore. unfold preempt_need. rewrite Hpop.
  destruct (q_pop_min_remaining (heap s2) (ready s2)) as [[best' q'']|] eqn:E2.
  - apply q_pop_min_by_Some in E2 as [Hperm _].
    assert (best' ∈ ready s2) as Hin by (rewrite Hperm; left).
    specialize (Hmin _ Hin). rewrite Hcore.
    eapply sum_list_with_replace_lt; eauto.
    + simpl. rewrite !Hrem.
      destruct (remaining (heap s !!! best') <? remaining (heap s !!! best)) eqn:E;
        [lia | done].
    + intros c. apply improvable_slot_mono; [done|]. rewrite Hrem. lia.
  - pose proof (sum_list_with_in y
      (improvable_slot (heap s) (remaining (heap s !!! best))) (core s)
      (list_elem_of_lookup_2 _ _ _ Hk)). lia.
Qed.

Lemma srtcf_preempt_enough fuel s :
  (preempt_need s < fuel)%nat → ∃ e s', srtcf_preempt fuel s = Some (e, s').
Proof.
  revert s. induction fuel as [|fuel IH]; intros s Hneed; [lia|]. simpl.
  destruct (q_pop_min_remaining (heap s) (ready s)) as [[best q']|] eqn:Hpop;
    [|by eauto].
  pose proof Hpop as [Hperm Hmin]%q_pop_min_by_Some.
  destruct (cpu_first_idle_spec (core s)) as [[Hi _]|(k & Hi & Hk)]; rewrite Hi.
  - change (0 <=? -1) with false. cbv iota.
    destruct (core_with_largest_spec (heap s) (remaining (heap s !!! best)) (core s))
      as [[Hv _]|(k & v & Hv & Hk & Hgt & _)]; rewrite Hv.
    + change (0 <=? -1) with false. cbv iota. eauto.
    + rewrite (proj2 (Z.leb_le 0 (Z.of_nat k))) by lia. apply IH.
      pose proof (preempt_bind_rel s k v best q' Hperm Hk) as Hrel.
      enough (preempt_need
                (cpu_bind_core (Z.of_nat k) best
                   (preempt_to_ready (Z.of_nat k) (set_ready q' s)))
              < preempt_need s)%nat by lia.
      eapply (preempt_need_decreases s _ best q' k (Some v)); eauto.
      * intros p. apply pre_step_remaining, Hrel.
      * unfold preempt_to_ready, cpu_unbind_core. simpl.
        rewrite Nat2Z.id, Hk. simpl. unfold q_push.
        intros x [Hx | ->%list_elem_of_singleton]%elem_of_app; [|lia].
        apply Hmin. rewrite Hperm. by right.
      * simpl. by rewrite (proj2 (Z.ltb_lt _ _) Hgt).
      * unfold preempt_to_ready, cpu_unbind_core. simpl.
        rewrite Nat2Z.id, Hk. simpl. by rewrite list_insert_insert_eq.
  - rewrite (proj2 (Z.leb_le 0 (Z.of_nat k))) by lia. apply IH.
    pose proof (bind_popped_rel s k best q' Hperm Hk) as Hrel.
    enough (preempt_need (cpu_bind_core (Z.of_nat k) best (set_ready q' s))
            < preempt_need s)%nat by lia.
    eapply (preempt_need_decreases s _ best q' k None); eauto.
    + intros p. apply pre_step_remaining, Hrel.
    + simpl. intros x Hx. apply Hmin. rewrite Hperm. by right.
    + simpl. by rewrite Nat2Z.id.
Qed.

Lemma preempt_need_bound s : (preempt_need s ≤ length (core s))%nat.
Proof.
  unfold preempt_need.
  destruct (q_pop_min_remaining (heap s) (ready s)) as [[best q']|]; [|lia].
  induction (core s) as [|c cs IH]; simpl; [lia|].
  assert (improvable_slot (heap s) (remaining (heap s !!! best)) c ≤ 1)%nat.
  { destruct c as [t|]; simpl; [|lia].
    destruct (remaining (heap s !!! best) <? remaining (heap s !!! t)); lia. }
  lia.
Qed.

Lemma srtcf_preempt_terminates s :
  ∃ e s', srtcf_preempt (S (length (core s))) s = Some (e, s').
Proof. apply srtcf_preempt_enough. pose proof (preempt_need_bound s). lia. Qed.



Lemma dispatch_srtcf_unfold s :
  ∃ e, srtcf_preempt (S (length (core (srtcf_fill s)))) (srtcf_fill s)
       = Some (e, dispatch_srtcf s).
Proof.
  unfold dispatch_srtcf.
  destruct (srtcf_preempt_terminates (srtcf_fill s)) as (e & s' & ->). eauto.
Qed.



(** The [-1] that the victim scan starts from matters only for negative
    remaining times, which no thread built from an accepted workload entry
    has: there a running thread with more left than the candidate is not
    found. *)
Remark victim_scan_negative_remaining :
  core_with_largest_remaining_above
    [make_thread 1 0 (-3); make_thread 2 0 (-5)] [Some 0%nat] (-5) = -1.
Proof. reflexivity. Qed.


(** How the loop can be left: with Ready empty, or with every core busy
    and the re-queued candidate at the tail of Ready. *)
Lemma srtcf_preempt_exit_shape fuel s e s' :
  srtcf_preempt fuel s = Some (e, s') →
  match e with
  | ExitReadyEmpty => ready s' = []
  | ExitNoVictim =>
      ∃ best q',
        ready s' = q_push q' best ∧
        Forall is_Some (core s') ∧
        (∀ x, x ∈ q' → remaining (heap s' !!! best) ≤ remaining (heap s' !!! x)) ∧
        core_with_largest_remaining_above (heap s') (core s')
          (remaining (heap s' !!! best)) = -1
  end.
Proof.
  revert s. induction fuel as [|fuel IH]; intros s; simpl; [done|].
  destruct (q_pop_min_remaining (heap s) (ready s)) as [[best q']|] eqn:Hpop.
  2: { intros [= <- <-]. by apply q_pop_min_by_None in Hpop. }
  pose proof Hpop as [Hperm Hmin]%q_pop_min_by_Some.
  destruct (cpu_first_idle_spec (core s)) as [[Hi Hall]|(k & Hi & Hk)]; rewrite Hi.
  - change (0 <=? -1) with false. cbv iota.
    destruct (core_with_largest_remaining_above (heap s) (core s)
                (remaining (heap s !!! best)) ) as [|v|v] eqn:Hv.
    + apply IH.
    + apply IH.
    + destruct (core_with_largest_spec (heap s) (remaining (heap s !!! best))
                  (core s)) as [[Hv' _]|(k & _ & Hv' & _)]; [|lia].
      change (0 <=? Z.neg v) with false. cbv iota.
      intros [= <- <-]. exists best, q'. simpl.
      split; [done|]. split; [done|]. split; [|congruence].
      intros x Hx. apply Hmin. rewrite Hperm. by right.
  - rewrite (proj2 (Z.leb_le 0 (Z.of_nat k))) by lia. apply IH.
Qed.

(** C8 (as stated, refuted): the no-victim branch is not the only way out of
    the preemption loop.  With a single thread, the fill phase binds it, the
    loop finds Ready empty and leaves through [if (!best) break;]. *)
Lemma srtcf_preempt_exit_ready_empty :
  srtcf_preempt (S (length (core (srtcf_fill single_arrival))))
    (srtcf_fill single_arrival)
    = Some (ExitReadyEmpty, dispatch_srtcf single_arrival) ∧
  ExitReadyEmpty ≠ ExitNoVictim.
Proof. split; [reflexivity | discriminate]. Qed.

(** C8 (amended): in the preemption loop of [dispatch_srtcf], when the best
    ready candidate finds no idle core and no running thread has strictly
    more remaining time than it, the loop stops at once through the
    no-victim branch and the state is unchanged except that the candidate
    now sits at the tail of Ready (no Thread field is written); when the
    phase is entered with a non-empty Ready queue no core is idle.  The loop
    always exits, either through the empty-Ready check, with Ready empty, or
    through the no-victim branch, with every core occupied, the re-queued
    candidate at the tail of Ready, no better thread in Ready and no victim
    for it. *)
Theorem srtcf_preempt_exits (s : Sim) :
  (∀ best q' fuel,
     q_pop_min_remaining (heap s) (ready s) = Some (best, q') →
     cpu_any_idle (core s) = false →
     (∀ t, t ∈ occupants (core s) →
        ¬ remaining (heap s !!! best) < remaining (heap s !!! t)) →
     srtcf_preempt (S fuel) s
       = Some (ExitNoVictim, set_ready (q_push q' best) s)) ∧
  (ready (srtcf_fill s) ≠ [] → cpu_any_idle (core (srtcf_fill s)) = false) ∧
  (∃ e, srtcf_preempt (S (length (core (srtcf_fill s)))) (srtcf_fill s)
          = Some (e, dispatch_srtcf s) ∧
        match e with
        | ExitReadyEmpty => ready (dispatch_srtcf s) = []
        | ExitNoVictim =>
            ∃ best q',
              ready (dispatch_srtcf s) = q_push q' best ∧
              Forall is_Some (core (dispatch_srtcf s)) ∧
              (∀ x, x ∈ q' →
                 remaining (heap (dispatch_srtcf s) !!! best)
                   ≤ remaining (heap (dispatch_srtcf s) !!! x)) ∧
              core_with_largest_remaining_above (heap (dispatch_srtcf s))
                (core (dispatch_srtcf s))
                (remaining (heap (dispatch_srtcf s) !!! best)) = -1
        end).
Proof.
  split; [|split].
  - intros best q' fuel Hpop Hbusy Hno. simpl. rewrite Hpop.
    unfold cpu_any_idle in Hbusy. simpl. rewrite Hbusy.
    destruct (core_with_largest_spec (heap s) (remaining (heap s !!! best)) (core s))
      as [[Hv _]|(k & v & _ & Hk & Hgt & _)].
    + by rewrite Hv.
    + exfalso. apply (Hno v); [|done]. apply occupants_lookup. eauto.
  - intros Hne. destruct (cpu_any_idle (core (srtcf_fill s))) eqn:E; [|done].
    apply (fill_idle_post q_pop_min_remaining (length (ready s)) s) in E;
      auto using q_pop_min_remaining_ok.
    by destruct Hne.
  - destruct (dispatch_srtcf_unfold s) as [e He]. exists e. split; [done|].
    by eapply srtcf_preempt_exit_shape.
Qed.

Lemma srtcf_preempt_exits_witness :
  srtcf_preempt 1 (srtcf_fill three_ready)
    = Some (ExitNoVictim, set_ready (q_push [2%nat] 0%nat) (srtcf_fill three_ready)).
Proof.
  apply (proj1 (srtcf_preempt_exits (srtcf_fill three_ready)) 0%nat [2%nat]).
  - reflexivity.
  - reflexivity.
  - vm_compute. intros t Ht Hlt. apply list_elem_of_In in Ht.
    destruct Ht as [<-|[]]. discriminate Hlt.
Defined.

(** ** Random interrupts *)

Lemma block_to_waiting_frame c u s p :
  intr_frame (heap s !!! p) (heap (block_to_waiting c u s) !!! p).
Proof.
  unfold block_to_waiting, cpu_unbind_core.
  destruct (mjoin (core s !! c)) as [t|]; simpl; [|apply intr_frame_refl].
  apply (alter_rel intr_frame); auto using intr_frame_refl, block_frame.
Qed.

Lemma interrupt_at_frame cfg rand s c p :
  intr_frame (heap s !!! p) (heap (interrupt_at cfg rand s c) !!! p).
Proof.
  unfold interrupt_at.
  destruct (core s !! c) as [[t|]|]; try apply intr_frame_refl.
  destruct (_ <? _); [|apply intr_frame_refl].
  apply (block_to_waiting_frame c _ (use_rand (use_rand s))).
Qed.

Lemma foldl_interrupt_at_frame cfg rand cs s p :
  intr_frame (heap s !!! p) (heap (foldl (interrupt_at cfg rand) s cs) !!! p).
Proof.
  revert s. induction cs as [|c cs IH]; intros s; simpl; [apply intr_frame_refl|].
  eapply intr_frame_trans; [apply interrupt_at_frame | apply IH].
Qed.

Lemma imap_alter_comm {A} (F : nat → A → A) (f : A → A) (t : nat) (l : list A) :
  (∀ i x, F i (f x) = f (F i x)) →
  imap F (alter f t l) = alter f t (imap F l).
Proof.
  intros Hcomm. revert F t Hcomm.
  induction l as [|x l IH]; intros F [|t] Hcomm; simpl; try done.
  - by rewrite Hcomm.
  - f_equal. apply IH. intros i y. apply Hcomm.
Qed.

Lemma block_to_waiting_scramble g c u s :
  block_to_waiting c u (scramble_remaining g s)
  = scramble_remaining g (block_to_waiting c u s).
Proof.
  unfold block_to_waiting, cpu_unbind_core. simpl.
  destruct (mjoin (core s !! c)) as [t|]; [|done].
  unfold scramble_remaining. simpl. f_equal.
  symmetry. by apply imap_alter_comm.
Qed.

Lemma interrupt_at_scramble cfg rand g s c :
  interrupt_at cfg rand (scramble_remaining g s) c
  = scramble_remaining g (interrupt_at cfg rand s c).
Proof.
  unfold interrupt_at. simpl.
  destruct (core s !! c) as [[t|]|]; try done.
  destruct (_ <? _); [|done].
  apply (block_to_waiting_scramble g c _ (use_rand (use_rand s))).
Qed.

Lemma foldl_interrupt_at_scramble cfg rand g cs s :
  foldl (interrupt_at cfg rand) (scramble_remaining g s) cs
  = scramble_remaining g (foldl (interrupt_at cfg rand) s cs).
Proof.
  revert s. induction cs as [|c cs IH]; intros s; simpl; [done|].
  by rewrite interrupt_at_scramble, IH.
Qed.

(** C9: the random-interrupt pass leaves [remaining], [burst_time],
    [start_time] and [wait_time] (and [tid], [arrival_time], [finish_time])
    of every thread exactly as they were: only [state] and [unblocked_at] of
    a thread can differ afterwards.  It does not look at [remaining] either:
    overwriting every thread's [remaining] with arbitrary values before the
    pass gives the same result as overwriting them after it. *)
Theorem random_interrupts_frame (cfg : InterruptConfig) (rand : nat → Z) (s : Sim) :
  (∀ p, intr_frame (heap s !!! p) (heap (random_interrupts cfg rand s) !!! p)) ∧
  (∀ g, random_interrupts cfg rand (scramble_remaining g s)
        = scramble_remaining g (random_interrupts cfg rand s)).
Proof.
  unfold random_interrupts. split.
  - intros p. destruct (enable_random cfg); [|apply intr_frame_refl].
    apply foldl_interrupt_at_frame.
  - intros g. destruct (enable_random cfg); [|done].
    apply foldl_interrupt_at_scramble.
Qed.

(** ** Monotonicity of the bookkeeping fields *)

Lemma dispatch_get_rel algo s : dispatch_rel s (dispatch_get algo s).
Proof.
  destruct algo; simpl.
  - apply fill_idle_rel, q_pop_ok.
  - apply fill_idle_rel, q_pop_min_burst_ok.
  - destruct (dispatch_srtcf_unfold s) as [e He].
    eapply dispatch_rel_trans; [|eapply srtcf_preempt_rel, He].
    apply fill_idle_rel, q_pop_min_remaining_ok.
Qed.

Lemma tick_dispatch_pre_step algo cfg rand s :
  pre_step s (tick_dispatch algo cfg rand s).
Proof.
  unfold tick_dispatch.
  eapply pre_step_trans; [apply workload_admit_tick_pre_step|].
  eapply pre_step_trans; [apply waiting_io_resolve_pre_step|].
  eapply pre_step_trans; [apply random_interrupts_pre_step|].
  eapply pre_step_trans; [apply dr_pre, dispatch_get_rel|].
  apply bump_queue_wait_pre_step.
Qed.

Lemma collect_at_mono s i p :
  thread_mono (heap s !!! p) (heap (collect_at s i) !!! p).
Proof.
  unfold collect_at. destruct (core s !! i) as [[t|]|]; try apply thread_mono_refl.
  destruct (_ =? 0); simpl; [|apply thread_mono_refl].
  apply (alter_rel thread_mono); auto using thread_mono_refl, mark_finished_mono.
Qed.

Lemma collect_completions_mono s p :
  thread_mono (heap s !!! p) (heap (collect_completions s) !!! p).
Proof.
  unfold collect_completions. generalize (seq 0 (length (core s))) as l.
  intros l. revert s. induction l as [|i l IH]; intros s; simpl.
  - apply thread_mono_refl.
  - eapply thread_mono_trans; [apply collect_at_mono | apply IH].
Qed.

Lemma cpu_step_mono s p : thread_mono (heap s !!! p) (heap (cpu_step s) !!! p).
Proof.
  simpl. apply (foldl_alter_rel thread_mono);
    eauto using thread_mono_refl, thread_mono_trans, step_one_mono.
Qed.

Lemma tick_mono algo cfg rand s p :
  thread_mono (heap s !!! p) (heap (tick algo cfg rand s) !!! p).
Proof.
  unfold tick.
  eapply thread_mono_trans;
    [apply sched_stable_mono, (ps_fields _ _ (tick_dispatch_pre_step algo cfg rand s))|].
  eapply thread_mono_trans; [apply cpu_step_mono | apply collect_completions_mono].
Qed.

(** C3: over any number of iterations of the simulation loop, from any
    state and for every thread, [remaining] does not increase, [wait_time]
    does not decrease, and a [start_time] or [finish_time] that is already
    set (non-negative) keeps its value. *)
Theorem fields_monotone (algo : DispatchAlgo) (cfg : InterruptConfig)
    (rand : nat → Z) (n : nat) (s : Sim) (p : nat) :
  thread_mono (heap s !!! p) (heap (ticks algo cfg rand n s) !!! p).
Proof.
  revert s. induction n as [|n IH]; intros s; simpl.
  - apply thread_mono_refl.
  - eapply thread_mono_trans; [apply tick_mono | apply IH].
Qed.

(** ** The partition of the threads over the queues and the cores *)

Lemma pre_step_places s s' : pre_step s s' → places s' ≡ₚ places s.
Proof. intros [_ _ _ Hf Ha _]. unfold places. by rewrite Hf, Ha. Qed.

Lemma collect_rel_refl s : collect_rel s s.
Proof. split; auto. Qed.

Lemma collect_rel_trans s1 s2 s3 :
  collect_rel s1 s2 → collect_rel s2 s3 → collect_rel s1 s3.
Proof.
  intros [] []. split; try congruence; try (etrans; eauto); auto.
Qed.

Lemma collect_at_rel s i : collect_rel s (collect_at s i).
Proof.
  unfold collect_at.
  destruct (core s !! i) as [[t|]|] eqn:Hi; try apply collect_rel_refl.
  destruct (_ =? 0); [|apply collect_rel_refl].
  pose proof (occupants_clear _ _ _ Hi) as Hocc.
  split; simpl; auto.
  - apply length_alter.
  - apply length_insert.
  - unfold places, active; simpl. rewrite Hocc. unfold q_push. solve_Permutation.
  - unfold active; simpl. rewrite Hocc.
    do 3 apply submseteq_skips_l. apply submseteq_cons.
    reflexivity.
  - intros p. apply (alter_rel (λ a b, remaining b = remaining a)); auto.
    intros t0. unfold mark_finished. simpl. by destruct (finish_time t0 <? 0).
  - intros p. apply (alter_rel (λ a b, unblocked_at b = unblocked_at a)); auto.
    intros t0. unfold mark_finished. simpl. by destruct (finish_time t0 <? 0).
  - intros j t0. destruct (decide (i = j)) as [->|Hne].
    + rewrite list_lookup_insert_eq by (by eapply lookup_lt_Some). done.
    + by rewrite list_lookup_insert_ne.
Qed.

Lemma foldl_collect_at_rel l s : collect_rel s (foldl collect_at s l).
Proof.
  revert s. induction l as [|i l IH]; intros s; simpl.
  - apply collect_rel_refl.
  - eapply collect_rel_trans; [apply collect_at_rel | apply IH].
Qed.

Lemma collect_completions_rel s : collect_rel s (collect_completions s).
Proof. apply foldl_collect_at_rel. Qed.

Lemma tick_places algo cfg rand s : places (tick algo cfg rand s) ≡ₚ places s.
Proof.
  unfold tick. rewrite (cr_places _ _ (collect_completions_rel _)).
  change (places (cpu_step ?x)) with (places x).
  apply pre_step_places, tick_dispatch_pre_step.
Qed.

Lemma tick_heap_length algo cfg rand s :
  length (heap (tick algo cfg rand s)) = length (heap s).
Proof.
  unfold tick. rewrite (cr_heap_len _ _ (collect_completions_rel _)). simpl.
  rewrite foldl_alter_length.
  apply (ps_heap_len _ _ (tick_dispatch_pre_step algo cfg rand s)).
Qed.

Lemma load_workload_spec entries s :
  heap (load_workload entries s)
    = heap s ++ ((λ e, make_thread e.1.1 e.1.2 e.2) <$> entries) ∧
  workload (load_workload entries s)
    = workload s ++ seq (length (heap s)) (length entries) ∧
  ready (load_workload entries s) = ready s ∧
  waiting (load_workload entries s) = waiting s ∧
  finished (load_workload entries s) = finished s ∧
  core (load_workload entries s) = core s ∧
  SIM_TIME (load_workload entries s) = SIM_TIME s.
Proof.
  unfold load_workload. revert s.
  induction entries as [|e entries IH]; intros s; simpl.
  - by rewrite !app_nil_r.
  - destruct (IH (workload_add e.1.1 e.1.2 e.2 s)) as (-> & -> & -> & -> & -> & -> & ->).
    simpl. unfold q_push. rewrite length_app, <- !app_assoc. simpl.
    by rewrite Nat.add_1_r.
Qed.

Lemma occupants_replicate_None n : occupants (replicate n None) = [].
Proof. induction n; simpl; auto. Qed.

Lemma sim_start_places ncores entries :
  places (sim_start ncores entries) ≡ₚ seq 0 (length entries) ∧
  length (heap (sim_start ncores entries)) = length entries.
Proof.
  unfold sim_start.
  destruct (load_workload_spec entries (sim_empty ncores))
    as (Hh & Hw & Hr & Hwt & Hf & Hc & Ht).
  pose proof (workload_admit_tick_pre_step
                (SIM_TIME (load_workload entries (sim_empty ncores)))
                (load_workload entries (sim_empty ncores))) as Hpre.
  split.
  - rewrite (pre_step_places _ _ Hpre). unfold places, active.
    rewrite Hw, Hr, Hwt, Hf, Hc. simpl.
    rewrite occupants_replicate_None. by rewrite !app_nil_r.
  - rewrite (ps_heap_len _ _ Hpre), Hh. simpl. by rewrite length_fmap.
Qed.

Lemma ticks_places algo cfg rand n s :
  places (ticks algo cfg rand n s) ≡ₚ places s ∧
  length (heap (ticks algo cfg rand n s)) = length (heap s).
Proof.
  revert s. induction n as [|n IH]; intros s; simpl; [done|].
  destruct (IH (tick algo cfg rand s)) as [-> ->].
  by rewrite tick_places, tick_heap_length.
Qed.

(** C2: at every tick boundary of a run, the Finished, workload, Ready and
    Waiting queues and the core slots together hold every constructed thread
    exactly once: their concatenation is a permutation of the list of all
    Thread objects, without duplicates. *)
Theorem partition_invariant (algo : DispatchAlgo) (cfg : InterruptConfig)
    (rand : nat → Z) (ncores : nat) (entries : list (Z * Z * Z)) (n : nat) :
  places (ticks algo cfg rand n (sim_start ncores entries))
    ≡ₚ seq 0 (length entries) ∧
  length (heap (ticks algo cfg rand n (sim_start ncores entries)))
    = length entries ∧
  NoDup (places (ticks algo cfg rand n (sim_start ncores entries))).
Proof.
  destruct (ticks_places algo cfg rand n (sim_start ncores entries)) as [Hp Hl].
  destruct (sim_start_places ncores entries) as [Hp0 Hl0].
  assert (places (ticks algo cfg rand n (sim_start ncores entries))
            ≡ₚ seq 0 (length entries)) as Hperm by (by rewrite Hp).
  split; [done|]. split; [congruence|].
  rewrite Hperm. apply NoDup_seq.
Qed.

(** ** Termination of the simulation loop *)

(** *** Sums over queues *)

Lemma sum_list_with_submseteq {A} (f : A → nat) (l k : list A) :
  l ⊆+ k → (sum_list_with f l ≤ sum_list_with f k)%nat.
Proof.
  intros [k' Hk]%submseteq_Permutation.
  rewrite Hk, sum_list_with_app. lia.
Qed.

Lemma sum_list_with_le {A} (f g : A → nat) (l : list A) :
  (∀ x, x ∈ l → (f x ≤ g x)%nat) →
  (sum_list_with f l ≤ sum_list_with g l)%nat.
Proof.
  induction l as [|a l IH]; intros Hle; simpl; [lia|].
  pose proof (Hle a ltac:(left)).
  assert (sum_list_with f l ≤ sum_list_with g l)%nat
    by (apply IH; intros x Hx; apply Hle; by right).
  lia.
Qed.

Lemma sum_list_with_lt {A} (f g : A → nat) (l : list A) (a : A) :
  (∀ x, x ∈ l → (f x ≤ g x)%nat) → a ∈ l → (f a < g a)%nat →
  (sum_list_with f l < sum_list_with g l)%nat.
Proof.
  intros Hle Ha Hlt. apply list_elem_of_split in Ha as (l1 & l2 & ->).
  rewrite !sum_list_with_app. simpl.
  assert (sum_list_with f l1 ≤ sum_list_with g l1)%nat.
  { apply sum_list_with_le. intros x Hx. apply Hle, elem_of_app. by left. }
  assert (sum_list_with f l2 ≤ sum_list_with g l2)%nat.
  { apply sum_list_with_le. intros x Hx. apply Hle, elem_of_app. right. by right. }
  lia.
Qed.

(** *** Admission, resolution and interrupts *)

Lemma workload_admit_tick_keeps now s :
  core (workload_admit_tick now s) = core s ∧
  waiting (workload_admit_tick now s) = waiting s ∧
  ∀ p, unblocked_at (heap (workload_admit_tick now s) !!! p)
       = unblocked_at (heap s !!! p).
Proof.
  unfold workload_admit_tick. destruct (q_empty (workload s)); [done|].
  rewrite admit_scan_move_due, move_due_spec by done. simpl.
  split; [done|]. split; [done|]. intros p. symmetry.
  apply (foldl_alter_rel (λ a b, unblocked_at a = unblocked_at b)); auto.
  intros; congruence.
Qed.

Lemma waiting_io_resolve_keeps now s :
  core (waiting_io_resolve now s) = core s ∧
  waiting (waiting_io_resolve now s)
    = filter (λ p, ¬ unblocked_at (heap s !!! p) = now) (waiting s) ∧
  ∀ p, unblocked_at (heap (waiting_io_resolve now s) !!! p)
       = unblocked_at (heap s !!! p).
Proof.
  unfold waiting_io_resolve.
  rewrite resolve_scan_move_due, move_due_spec by done. simpl.
  split; [done|]. split; [done|]. intros p. symmetry.
  apply (foldl_alter_rel (λ a b, unblocked_at a = unblocked_at b)); auto.
  intros; congruence.
Qed.

Lemma occupants_nil_lookup cs (c t : nat) :
  occupants cs = [] → cs !! c ≠ Some (Some t).
Proof.
  intros Hnil Hc. apply occupants_nil_idle in Hnil.
  apply (Forall_lookup_1 _ _ _ _ Hnil) in Hc. done.
Qed.

Lemma random_interrupts_idle cfg rand s :
  occupants (core s) = [] → random_interrupts cfg rand s = s.
Proof.
  intros Hidle. unfold random_interrupts. destruct (enable_random cfg); [|done].
  induction (seq 0 (length (core s))) as [|c l IH]; simpl; [done|].
  unfold interrupt_at at 2.
  destruct (core s !! c) as [[t|]|] eqn:Hc; try done.
  by apply occupants_nil_lookup in Hc.
Qed.

Lemma block_to_waiting_inv c u s now :
  now < u → intr_inv now s → intr_inv now (block_to_waiting c u s).
Proof.
  intros Hu [Hw Hval]. unfold block_to_waiting, cpu_unbind_core.
  destruct (core s !! c) as [[t|]|] eqn:Hc; simpl; try done.
  assert (t ∈ occupants (core s)) as Ht by (apply occupants_lookup; eauto).
  split; simpl.
  - intros p Hp. rewrite list_lookup_total_alter.
    case_decide as Hd; [simpl; lia|].
    unfold q_push in Hp.
    apply elem_of_app in Hp as [Hp | ->%list_elem_of_singleton]; [by apply Hw|].
    exfalso. apply Hd. split; [done | by apply Hval].
  - intros p Hp. rewrite length_alter. apply Hval.
    rewrite (occupants_clear _ _ _ Hc). by right.
Qed.

Lemma rnd_lower rand a b k : 0 ≤ rand k → a ≤ b → a ≤ rnd rand a b k.
Proof.
  intros Hr Hab. unfold rnd.
  pose proof (Z.rem_nonneg (rand k) (b - a + 1) ltac:(lia) Hr). lia.
Qed.

Lemma interrupt_at_inv cfg rand s c :
  intr_ok cfg → (∀ k, 0 ≤ rand k) →
  intr_inv (SIM_TIME s) s →
  intr_inv (SIM_TIME s) (interrupt_at cfg rand s c).
Proof.
  intros [Hmin Hmax] Hrand Hinv. unfold interrupt_at.
  destruct (core s !! c) as [[t|]|]; try done.
  destruct (_ <? _); [|done].
  apply (block_to_waiting_inv c _ (use_rand (use_rand s))); [|done].
  simpl. pose proof (rnd_lower rand (io_min cfg) (io_max cfg)
                       (S (rand_calls s)) (Hrand _) Hmax). lia.
Qed.

Lemma random_interrupts_inv cfg rand s :
  intr_ok cfg → (∀ k, 0 ≤ rand k) →
  intr_inv (SIM_TIME s) s →
  intr_inv (SIM_TIME s) (random_interrupts cfg rand s).
Proof.
  intros Hcfg Hrand. unfold random_interrupts.
  destruct (enable_random cfg); [|done].
  generalize (seq 0 (length (core s))) as l. intros l. revert s.
  induction l as [|c l IH]; intros s Hinv; simpl; [done|].
  rewrite <- (ps_time _ _ (interrupt_at_pre_step cfg rand s c)).
  apply IH. rewrite (ps_time _ _ (interrupt_at_pre_step cfg rand s c)).
  by apply interrupt_at_inv.
Qed.

(** *** The execution step and the collection of completions *)

Lemma foldl_alter_other f (ps : list nat) (h : list Thread) (p : nat) :
  p ∉ ps → foldl (λ h t, alter f t h) h ps !!! p = h !!! p.
Proof.
  revert h. induction ps as [|a ps IH]; intros h Hp; simpl; [done|].
  apply not_elem_of_cons in Hp as [Hne Hp].
  rewrite IH by done. by apply list_lookup_total_alter_ne.
Qed.

Lemma cpu_step_other s p :
  p ∉ occupants (core s) → heap (cpu_step s) !!! p = heap s !!! p.
Proof. apply foldl_alter_other. Qed.

Lemma cpu_step_nonneg s p :
  0 ≤ remaining (heap s !!! p) → 0 ≤ remaining (heap (cpu_step s) !!! p).
Proof.
  simpl. apply (foldl_alter_rel (λ a b, 0 ≤ remaining a → 0 ≤ remaining b)); auto.
  intros t. unfold step_one. destruct (0 <? remaining t) eqn:E; simpl; lia.
Qed.

Lemma cpu_step_unblock s p :
  unblocked_at (heap (cpu_step s) !!! p) = unblocked_at (heap s !!! p).
Proof.
  simpl. symmetry.
  apply (foldl_alter_rel (λ a b, unblocked_at a = unblocked_at b)); auto.
  - intros; congruence.
  - intros t. unfold step_one. by destruct (0 <? remaining t).
Qed.

Lemma foldl_step_one_dec (ps : list nat) (h : list Thread) (p : nat) :
  p ∈ ps → (p < length h)%nat → 1 ≤ remaining (h !!! p) →
  remaining (foldl (λ h t, alter step_one t h) h ps !!! p) < remaining (h !!! p).
Proof.
  revert h. induction ps as [|a ps IH]; intros h Hp Hlen Hrem; [inversion Hp|].
  simpl. destruct (decide (a = p)) as [->|Hne].
  - pose proof (foldl_alter_rel thread_mono step_one ps (alter step_one p h) p
                  thread_mono_refl thread_mono_trans step_one_mono) as [Hle _].
    rewrite list_lookup_total_alter_eq in Hle by done.
    assert (remaining (step_one (h !!! p)) = remaining (h !!! p) - 1) as Hone.
    { unfold step_one.
      rewrite (proj2 (Z.ltb_lt 0 (remaining (h !!! p)))) by lia. done. }
    lia.
  - apply elem_of_cons in Hp as [->|Hp]; [done|].
    rewrite <- (list_lookup_total_alter_ne step_one h a p Hne).
    apply IH; [done | by rewrite length_alter |].
    by rewrite list_lookup_total_alter_ne.
Qed.

Lemma cpu_step_dec s p :
  p ∈ occupants (core s) → (p < length (heap s))%nat →
  1 ≤ remaining (heap s !!! p) →
  remaining (heap (cpu_step s) !!! p) < remaining (heap s !!! p).
Proof. apply foldl_step_one_dec. Qed.

Lemma collect_at_untouched s i j :
  i ≠ j → core (collect_at s i) !! j = core s !! j.
Proof.
  intros Hne. unfold collect_at.
  destruct (core s !! i) as [[t|]|]; try done.
  destruct (_ =? 0); [|done]. simpl. by apply list_lookup_insert_ne.
Qed.

(** A thread still on a core after the collection pass has work left. *)
Lemma foldl_collect_at_kept l s i t :
  i ∈ l → core (foldl collect_at s l) !! i = Some (Some t) →
  remaining (heap s !!! t) ≠ 0.
Proof.
  revert s. induction l as [|a l IH]; intros s Hi Hslot; [inversion Hi|].
  simpl in Hslot.
  pose proof (cr_slots _ _ (foldl_collect_at_rel l (collect_at s a)) _ _ Hslot)
    as Hslot1.
  destruct (decide (a = i)) as [->|Hne].
  - unfold collect_at in Hslot1.
    destruct (core s !! i) as [[t0|]|] eqn:Hc; simplify_eq/=; try done.
    destruct (remaining (heap s !!! t0) =? 0) eqn:E.
    + simpl in Hslot1.
      rewrite list_lookup_insert_eq in Hslot1 by (by eapply lookup_lt_Some).
      done.
    + apply Z.eqb_neq in E. congruence.
  - apply elem_of_cons in Hi as [->|Hi]; [done|].
    rewrite <- (cr_remaining _ _ (collect_at_rel s a)).
    by apply (IH (collect_at s a)).
Qed.

Lemma collect_completions_kept s t :
  t ∈ occupants (core (collect_completions s)) →
  remaining (heap s !!! t) ≠ 0.
Proof.
  intros (i & Hi)%occupants_lookup.
  eapply (foldl_collect_at_kept (seq 0 (length (core s))) s i); [|exact Hi].
  apply elem_of_seq. apply lookup_lt_Some in Hi.
  rewrite (cr_core_len _ _ (collect_completions_rel s)) in Hi. lia.
Qed.

Lemma collect_completions_idle s :
  occupants (core s) = [] → collect_completions s = s.
Proof.
  intros Hidle. unfold collect_completions.
  induction (seq 0 (length (core s))) as [|c l IH]; simpl; [done|].
  unfold collect_at at 2.
  destruct (core s !! c) as [[t|]|] eqn:Hc; try done.
  by apply occupants_nil_lookup in Hc.
Qed.

(** *** What a dispatch policy leaves behind *)

Lemma dispatch_get_post algo s :
  ready (dispatch_get algo s) = [] ∨ Forall is_Some (core (dispatch_get algo s)).
Proof.
  destruct algo; simpl.
  - unfold dispatch_fifo.
    destruct (cpu_any_idle (core (fill_idle (λ _ q, q_pop q) (length (ready s)) s)))
      eqn:E; [left | right; by apply cpu_any_idle_false].
    apply fill_idle_post; auto using q_pop_ok.
  - unfold dispatch_sjf.
    destruct (cpu_any_idle (core (fill_idle q_pop_min_burst (length (ready s)) s)))
      eqn:E; [left | right; by apply cpu_any_idle_false].
    apply fill_idle_post; auto using q_pop_min_burst_ok.
  - destruct (dispatch_srtcf_unfold s) as [e He].
    apply srtcf_preempt_exit_shape in He. destruct e; [by left|].
    destruct He as (_ & _ & _ & ? & _). by right.
Qed.

Lemma all_done_true s :
  ready s = [] → waiting s = [] → occupants (core s) = [] → all_done s = true.
Proof.
  intros Hr Hw Hc. unfold all_done. rewrite Hr, Hw. simpl.
  apply occupants_nil_idle in Hc. apply forallb_forall.
  intros c Hin. apply list_elem_of_In in Hin.
  by rewrite (proj1 (Forall_forall _ _) Hc c Hin).
Qed.

Lemma all_done_inv s :
  all_done s = true → ready s = [] ∧ waiting s = [] ∧ all_idle (core s).
Proof.
  unfold all_done. destruct (ready s); [|done]. destruct (waiting s); [|done].
  simpl. intros H. split; [done|]. split; [done|].
  apply Forall_forall. intros c Hin%list_elem_of_In.
  rewrite forallb_forall in H. specialize (H c Hin). by destruct c.
Qed.

Lemma sum_list_with_ext {A} (f g : A → nat) (l : list A) :
  (∀ x, x ∈ l → f x = g x) → sum_list_with f l = sum_list_with g l.
Proof.
  intros Heq. apply Nat.le_antisymm; apply sum_list_with_le;
    intros x Hx; rewrite (Heq x Hx); lia.
Qed.

Lemma sim_inv_valid s p : sim_inv s → p ∈ places s → (p < length (heap s))%nat.
Proof.
  intros Hinv Hp. rewrite (inv_places _ Hinv) in Hp.
  apply elem_of_seq in Hp. lia.
Qed.

Lemma active_places s p : p ∈ active s → p ∈ places s.
Proof. intros Hp. unfold places. apply elem_of_app. by right. Qed.

Lemma occupants_active s p : p ∈ occupants (core s) → p ∈ active s.
Proof. intros Hp. unfold active. rewrite !elem_of_app. auto. Qed.

(** *** One iteration of the loop *)

Section one_tick.
Variables (algo : DispatchAlgo) (cfg : InterruptConfig) (rand : nat → Z).
Hypothesis Hcfg : intr_ok cfg.
Hypothesis Hrand : ∀ k, 0 ≤ rand k.

(** After the dispatch half of a tick every Waiting thread unblocks at a
    later tick. *)
Lemma tick_dispatch_waiting s p :
  sim_inv s →
  p ∈ waiting (tick_dispatch algo cfg rand s) →
  SIM_TIME s < unblocked_at (heap (tick_dispatch algo cfg rand s) !!! p).
Proof.
  intros Hinv. unfold tick_dispatch.
  pose proof (workload_admit_tick_pre_step (SIM_TIME s) s) as P1.
  pose proof (workload_admit_tick_keeps (SIM_TIME s) s) as (C1 & W1 & U1).
  revert P1 C1 W1 U1. generalize (workload_admit_tick (SIM_TIME s) s) as s1.
  intros s1 P1 C1 W1 U1.
  pose proof (waiting_io_resolve_pre_step (SIM_TIME s1) s1) as P2.
  pose proof (waiting_io_resolve_keeps (SIM_TIME s1) s1) as (C2 & W2 & U2).
  revert P2 C2 W2 U2. generalize (waiting_io_resolve (SIM_TIME s1) s1) as s2.
  intros s2 P2 C2 W2 U2.
  assert (intr_inv (SIM_TIME s2) s2) as J2.
  { split.
    - intros q Hq. rewrite W2 in Hq. apply list_elem_of_filter in Hq as [Hne Hq].
      rewrite W1 in Hq. pose proof (inv_unblock _ Hinv q Hq) as Hge.
      rewrite U2, (ps_time _ _ P2). rewrite U1 in Hne |- *.
      rewrite (ps_time _ _ P1) in *. lia.
    - intros q Hq. rewrite C2, C1 in Hq.
      rewrite (ps_heap_len _ _ P2), (ps_heap_len _ _ P1).
      by apply sim_inv_valid, active_places, occupants_active. }
  pose proof (random_interrupts_inv cfg rand s2 Hcfg Hrand J2) as [J3 _].
  revert J3. generalize (random_interrupts cfg rand s2) as s3. intros s3 J3.
  pose proof (dispatch_get_rel algo s3) as D4.
  revert D4. generalize (dispatch_get algo s3) as s4. intros s4 D4.
  pose proof (bump_queue_wait_rel s4) as D5.
  intros Hp. rewrite (dr_waiting _ _ D5), (dr_waiting _ _ D4) in Hp.
  rewrite (dr_unblock _ _ D5), (dr_unblock _ _ D4).
  specialize (J3 p Hp). rewrite (ps_time _ _ P2), (ps_time _ _ P1) in J3. done.
Qed.

(** With no thread on a core at the start of the tick, nothing joins the
    Waiting queue during the dispatch half. *)
Lemma tick_dispatch_idle s :
  occupants (core s) = [] →
  waiting (tick_dispatch algo cfg rand s) ⊆+ waiting s ∧
  ∀ p, unblocked_at (heap (tick_dispatch algo cfg rand s) !!! p)
       = unblocked_at (heap s !!! p).
Proof.
  intros Hidle. unfold tick_dispatch.
  pose proof (workload_admit_tick_keeps (SIM_TIME s) s) as (C1 & W1 & U1).
  revert C1 W1 U1. generalize (workload_admit_tick (SIM_TIME s) s) as s1.
  intros s1 C1 W1 U1.
  pose proof (waiting_io_resolve_keeps (SIM_TIME s1) s1) as (C2 & W2 & U2).
  revert C2 W2 U2. generalize (waiting_io_resolve (SIM_TIME s1) s1) as s2.
  intros s2 C2 W2 U2.
  rewrite random_interrupts_idle by (by rewrite C2, C1).
  pose proof (dispatch_get_rel algo s2) as D4.
  revert D4. generalize (dispatch_get algo s2) as s4. intros s4 D4.
  pose proof (bump_queue_wait_rel s4) as D5.
  split.
  - rewrite (dr_waiting _ _ D5), (dr_waiting _ _ D4), W2, <- W1.
    apply sublist_submseteq, sublist_filter.
  - intros p. by rewrite (dr_unblock _ _ D5), (dr_unblock _ _ D4), U2, U1.
Qed.

Lemma tick_dispatch_post s :
  ready (tick_dispatch algo cfg rand s) = [] ∨
  Forall is_Some (core (tick_dispatch algo cfg rand s)).
Proof. unfold tick_dispatch. simpl. apply dispatch_get_post. Qed.

(** The loop invariant is kept by a tick. *)
Lemma tick_inv s : sim_inv s → sim_inv (tick algo cfg rand s).
Proof.
  intros Hinv. unfold tick.
  pose proof (tick_dispatch_pre_step algo cfg rand s) as P5.
  pose proof (tick_dispatch_waiting s) as Hw5.
  revert P5 Hw5. generalize (tick_dispatch algo cfg rand s) as s5. intros s5 P5 Hw5.
  pose proof (collect_completions_rel (cpu_step s5)) as C7.
  pose proof (collect_completions_kept (cpu_step s5)) as K7.
  revert C7 K7. generalize (collect_completions (cpu_step s5)) as s7.
  intros s7 C7 K7.
  assert (places s5 ≡ₚ seq 0 (length (heap s5))) as Hpl5.
  { rewrite (pre_step_places _ _ P5), (ps_heap_len _ _ P5). apply Hinv. }
  assert (∀ p, p ∈ active s5 → 1 ≤ remaining (heap s5 !!! p)) as Hr5.
  { intros p Hp. rewrite (pre_step_remaining s s5 p P5).
    apply Hinv. by rewrite <- (ps_active _ _ P5). }
  assert (NoDup (active s5)) as Hnd5.
  { assert (NoDup (places s5)) as Hnd by (rewrite Hpl5; apply NoDup_seq).
    unfold places in Hnd. by apply NoDup_app in Hnd as (_ & _ & ?). }
  split.
  - rewrite (cr_places _ _ C7), (cr_heap_len _ _ C7). simpl.
    by rewrite foldl_alter_length.
  - intros p Hp. rewrite (cr_remaining _ _ C7).
    assert (p ∈ active s5) as Hp5.
    { eapply elem_of_submseteq; [exact Hp | apply C7]. }
    destruct (decide (p ∈ occupants (core s7))) as [Hocc|Hocc].
    + specialize (K7 p Hocc).
      pose proof (cpu_step_nonneg s5 p ltac:(specialize (Hr5 p Hp5); lia)). lia.
    + rewrite cpu_step_other; [by apply Hr5|].
      unfold active in Hp, Hnd5.
      rewrite (cr_workload _ _ C7), (cr_ready _ _ C7), (cr_waiting _ _ C7) in Hp.
      simpl in Hp. rewrite !app_assoc in Hp, Hnd5.
      apply elem_of_app in Hp as [Hp|Hp]; [|done].
      apply NoDup_app in Hnd5 as (_ & Hdisj & _). by apply Hdisj.
  - intros p Hp. rewrite (cr_waiting _ _ C7) in Hp. simpl in Hp.
    rewrite (cr_time _ _ C7), (cr_unblock _ _ C7), cpu_step_unblock. simpl.
    specialize (Hw5 p Hinv Hp). rewrite (ps_time _ _ P5). lia.
  - rewrite (cr_core_len _ _ C7). simpl. rewrite (ps_core_len _ _ P5).
    apply Hinv.
Qed.

(** A tick either does one unit of work on some core, or it finds every
    core idle and Ready empty; an idle tick that starts with idle cores
    brings every Waiting thread one tick closer to its unblock time. *)
Lemma tick_progress s :
  sim_inv s →
  (work_left (tick algo cfg rand s) < work_left s)%nat ∨
  (work_left (tick algo cfg rand s) = work_left s ∧
   occupants (core (tick algo cfg rand s)) = [] ∧
   ready (tick algo cfg rand s) = [] ∧
   (occupants (core s) = [] →
    waiting (tick algo cfg rand s) = [] ∨
    (wait_left (tick algo cfg rand s) < wait_left s)%nat)).
Proof.
  intros Hinv. unfold tick.
  pose proof (tick_dispatch_pre_step algo cfg rand s) as P5.
  pose proof (tick_dispatch_waiting s) as Hw5.
  pose proof (tick_dispatch_idle s) as Hi5.
  pose proof (tick_dispatch_post s) as Hpost.
  revert P5 Hw5 Hi5 Hpost.
  generalize (tick_dispatch algo cfg rand s) as s5. intros s5 P5 Hw5 Hi5 Hpost.
  assert (∀ p, p ∈ active s5 → 1 ≤ remaining (heap s5 !!! p)) as Hr5.
  { intros p Hp. rewrite (pre_step_remaining s s5 p P5).
    apply Hinv. by rewrite <- (ps_active _ _ P5). }
  assert (work_left s5 = work_left s) as Hwl5.
  { unfold work_left. rewrite (ps_active _ _ P5).
    apply sum_list_with_ext. intros p _.
    by rewrite (pre_step_remaining s s5 p P5). }
  destruct (occupants (core s5)) as [|T occ] eqn:Hocc.
  - right. rewrite collect_completions_idle by done.
    assert (heap (cpu_step s5) = heap s5) as Hh6 by (simpl; by rewrite Hocc).
    split; [|split; [done|split]].
    + rewrite <- Hwl5. unfold work_left, active. simpl. by rewrite Hocc.
    + simpl. destruct Hpost as [?|Hbusy]; [done|].
      exfalso. apply (occupants_all_busy _ Hbusy); [|done].
      intros Hnil. pose proof (inv_cores _ Hinv) as Hc.
      rewrite <- (ps_core_len _ _ P5), Hnil in Hc. simpl in Hc. lia.
    + intros Hidle. destruct (Hi5 Hidle) as [Hsub Hu].
      simpl. destruct (waiting s5) as [|w ws] eqn:Hws; [by left | right].
      unfold wait_left. simpl. rewrite Hws.
      eapply Nat.lt_le_trans;
        [|etrans; [|apply (sum_list_with_submseteq _ _ _ Hsub)]].
      * apply (sum_list_with_lt _
                 (λ p, Z.to_nat (unblocked_at (heap s5 !!! p) - SIM_TIME s))
                 _ w); [| left |].
        -- intros x Hx. rewrite Hocc. simpl. rewrite (ps_time _ _ P5). lia.
        -- rewrite Hocc. simpl. rewrite (ps_time _ _ P5).
           pose proof (Hw5 w Hinv ltac:(left)). lia.
      * apply sum_list_with_le. intros x _. rewrite Hu. lia.
  - left. rewrite <- Hwl5.
    pose proof (collect_completions_rel (cpu_step s5)) as C7.
    revert C7. generalize (collect_completions (cpu_step s5)) as s7. intros s7 C7.
    assert (T ∈ occupants (core s5)) as HT by (rewrite Hocc; left).
    unfold work_left.
    eapply Nat.le_lt_trans; [apply (sum_list_with_submseteq _ _ _ (cr_active _ _ C7))|].
    change (active (cpu_step s5)) with (active s5).
    apply (sum_list_with_lt _ _ _ T).
    + intros x _. rewrite (cr_remaining _ _ C7).
      pose proof (cpu_step_mono s5 x) as [Hle _]. lia.
    + by apply occupants_active.
    + rewrite (cr_remaining _ _ C7).
      assert (T ∈ active s5) as HTa by (by apply occupants_active).
      pose proof (Hr5 T HTa).
      assert (T < length (heap s5))%nat as Hlen.
      { rewrite (ps_heap_len _ _ P5). apply sim_inv_valid; [done|].
        apply active_places. by rewrite <- (ps_active _ _ P5). }
      pose proof (cpu_step_dec s5 T HT Hlen ltac:(lia)).
      pose proof (cpu_step_nonneg s5 T ltac:(lia)). lia.
Qed.

End one_tick.

(** *** The loop reaches its [break] *)

Section termination.
Variables (algo : DispatchAlgo) (cfg : InterruptConfig) (rand : nat → Z).
Hypothesis Hcfg : intr_ok cfg.
Hypothesis Hrand : ∀ k, 0 ≤ rand k.

Lemma terminates_step s :
  all_done (tick algo cfg rand s) = true ∨
  terminates algo cfg rand (tick algo cfg rand s) →
  terminates algo cfg rand s.
Proof.
  intros [Hd|(fuel & s' & Hrun & Hdone)].
  - exists 1%nat, (tick algo cfg rand s). simpl. by rewrite Hd.
  - exists (S fuel). simpl.
    destruct (all_done (tick algo cfg rand s)) eqn:E; eauto.
Qed.

(** With every core idle and no work that could be started, the loop only
    waits for the next unblock time; that wait is bounded by [wait_left]. *)
Lemma terminates_idle w s :
  sim_inv s → occupants (core s) = [] → (wait_left s ≤ w)%nat →
  (∀ s2, sim_inv s2 → (work_left s2 < work_left s)%nat →
         terminates algo cfg rand s2) →
  terminates algo cfg rand s.
Proof.
  revert s. induction w as [|w IH]; intros s Hinv Hidle Hw HM;
    apply terminates_step;
    pose proof (tick_inv algo cfg rand Hcfg Hrand s Hinv) as Hinv';
    destruct (tick_progress algo cfg rand Hcfg Hrand s Hinv)
      as [Hlt|(Heq & Hocc & Hr & Hwait)].
  - right. by apply HM.
  - destruct (Hwait Hidle) as [Hnil|Hlt]; [left; by apply all_done_true | lia].
  - right. by apply HM.
  - destruct (Hwait Hidle) as [Hnil|Hlt]; [left; by apply all_done_true |].
    right. apply IH; auto; [lia|].
    intros s2 Hinv2 Hlt2. apply HM; [done | lia].
Qed.

Lemma terminates_from m s :
  sim_inv s → (work_left s ≤ m)%nat → terminates algo cfg rand s.
Proof.
  revert s. induction m as [m IH] using lt_wf_ind. intros s Hinv Hm.
  apply terminates_step.
  pose proof (tick_inv algo cfg rand Hcfg Hrand s Hinv) as Hinv'.
  destruct (tick_progress algo cfg rand Hcfg Hrand s Hinv)
    as [Hlt|(Heq & Hocc & Hr & Hwait)].
  - right. apply (IH (work_left (tick algo cfg rand s))); [lia | done | lia].
  - right. apply (terminates_idle (wait_left (tick algo cfg rand s))); auto.
    intros s2 Hinv2 Hlt2. apply (IH (work_left s2)); [lia | done | lia].
Qed.

End termination.

Lemma sim_start_inv ncores entries :
  (1 ≤ ncores)%nat → Forall entry_ok entries → sim_inv (sim_start ncores entries).
Proof.
  intros Hn Hok.
  destruct (sim_start_places ncores entries) as [Hpl Hlen].
  unfold sim_start in *.
  destruct (load_workload_spec entries (sim_empty ncores))
    as (Hh & Hw & Hr & Hwt & Hf & Hc & Ht).
  revert Hpl Hlen Hh Hw Hr Hwt Hf Hc Ht.
  generalize (load_workload entries (sim_empty ncores)) as s0.
  intros s0 Hpl Hlen Hh Hw Hr Hwt Hf Hc Ht. simpl in *.
  pose proof (workload_admit_tick_pre_step (SIM_TIME s0) s0) as P1.
  pose proof (workload_admit_tick_keeps (SIM_TIME s0) s0) as (C1 & W1 & _).
  split.
  - by rewrite Hlen.
  - intros p Hp. rewrite (pre_step_remaining s0 _ p P1).
    rewrite (ps_active _ _ P1) in Hp. unfold active in Hp.
    rewrite Hw, Hr, Hwt, Hc, occupants_replicate_None, !app_nil_r in Hp.
    apply elem_of_seq in Hp. rewrite Hh.
    destruct (lookup_lt_is_Some_2 entries p ltac:(lia)) as [e He].
    rewrite (list_lookup_total_correct _ p (make_thread e.1.1 e.1.2 e.2))
      by (by rewrite list_lookup_fmap, He).
    simpl. apply (Forall_lookup_1 _ _ _ _ Hok) in He as [_ ?]. lia.
  - intros p Hp. rewrite W1, Hwt in Hp. inversion Hp.
  - rewrite C1, Hc, length_replicate. done.
Qed.

(** C6: for every workload whose entries have a non-negative arrival time
    and a positive burst, at least one core, every policy, every interrupt
    configuration with [0 < io_min <= io_max] and every outcome of [rand()],
    the simulation loop reaches its [break]: after finitely many ticks the
    Ready and Waiting queues are empty and every core is idle. *)
Theorem simulation_terminates (algo : DispatchAlgo) (cfg : InterruptConfig)
    (rand : nat → Z) (ncores : nat) (entries : list (Z * Z * Z)) :
  (1 ≤ ncores)%nat → Forall entry_ok entries → intr_ok cfg →
  (∀ k, 0 ≤ rand k) →
  ∃ fuel s',
    simulate algo cfg rand ncores entries fuel = Some s' ∧
    ready s' = [] ∧ waiting s' = [] ∧ all_idle (core s').
Proof.
  intros Hn Hok Hcfg Hrand.
  destruct (terminates_from algo cfg rand Hcfg Hrand
              (work_left (sim_start ncores entries)) (sim_start ncores entries))
    as (fuel & s' & Hrun & Hdone); [by apply sim_start_inv | done |].
  exists fuel, s'. split; [done|]. by apply all_done_inv.
Qed.

Lemma simulation_terminates_witness :
  ∃ fuel s',
    simulate DISP_SRTCF (mkIntr true 50 2 6) (λ k, 7 * Z.of_nat k) 2
      preset_small fuel = Some s' ∧
    ready s' = [] ∧ waiting s' = [] ∧ all_idle (core s').
Proof.
  apply simulation_terminates.
  - lia.
  - repeat constructor; simpl; lia.
  - split; simpl; lia.
  - intros k. lia.
Defined.

(** * Further properties of the code *)

(** ** Lists *)

Lemma filter_none {A} (P : A → Prop) `{∀ x, Decision (P x)} (l : list A) :
  (∀ x, x ∈ l → ¬ P x) → filter P l = [].
Proof.
  induction l as [|a l IH]; intros Hno; [done|].
  rewrite filter_cons, decide_False by (apply Hno; left).
  apply IH. intros x Hx. apply Hno. by right.
Qed.

Lemma filter_all {A} (P : A → Prop) `{∀ x, Decision (P x)} (l : list A) :
  (∀ x, x ∈ l → P x) → filter P l = l.
Proof.
  induction l as [|a l IH]; intros Hall; [done|].
  rewrite filter_cons, decide_True by (apply Hall; left).
  f_equal. apply IH. intros x Hx. apply Hall. by right.
Qed.

(** ** Admission (sim.c, workload_admit_tick) *)

Lemma foldl_alter_idem f (ps : list nat) (h : list Thread) (p : nat) :
  (∀ t, f (f t) = f t) → p ∈ ps → (p < length h)%nat →
  foldl (λ h t, alter f t h) h ps !!! p = f (h !!! p).
Proof.
  intros Hf. revert h. induction ps as [|a ps IH]; intros h Hp Hlen; [inversion Hp|].
  simpl. destruct (decide (p ∈ ps)) as [Hin|Hnin].
  - rewrite IH by (by rewrite ?length_alter). rewrite list_lookup_total_alter.
    case_decide as Hd; [destruct Hd as [-> _]; apply Hf | done].
  - apply elem_of_cons in Hp as [->|Hp]; [|done].
    rewrite foldl_alter_other by done. by apply list_lookup_total_alter_eq.
Qed.

(** The whole effect of one admission pass, early return included. *)
Lemma workload_admit_tick_effect now s :
  workload_admit_tick now s =
    {| SIM_TIME := SIM_TIME s;
       heap := foldl (λ h t, alter (set_state ST_READY) t h) (heap s)
                 (filter (λ p, arrival_time (heap s !!! p) = now) (workload s));
       workload := filter (λ p, ¬ arrival_time (heap s !!! p) = now) (workload s);
       ready := ready s ++ filter (λ p, arrival_time (heap s !!! p) = now) (workload s);
       waiting := waiting s; finished := finished s; core := core s;
       rand_calls := rand_calls s |}.
Proof.
  unfold workload_admit_tick. destruct (workload s) as [|t wl] eqn:Hwl.
  - simpl. rewrite app_nil_r. destruct s; simpl in *. by subst.
  - cbn [q_empty]. rewrite admit_scan_move_due, move_due_spec by done.
    by rewrite q_move_all_app.
Qed.

(** X1: one admission pass appends to Ready exactly the workload threads
    whose arrival time is the given tick, in workload order, and leaves the
    others in the workload queue in their order; the admitted Thread
    objects only have their state set to Ready, every other Thread object
    and the other queues, the cores and the clock are untouched. *)
Theorem workload_admit_tick_spec (now : Z) (s : Sim) :
  ready (workload_admit_tick now s)
    = ready s ++ filter (λ p, arrival_time (heap s !!! p) = now) (workload s) ∧
  workload (workload_admit_tick now s)
    = filter (λ p, ¬ arrival_time (heap s !!! p) = now) (workload s) ∧
  waiting (workload_admit_tick now s) = waiting s ∧
  finished (workload_admit_tick now s) = finished s ∧
  core (workload_admit_tick now s) = core s ∧
  SIM_TIME (workload_admit_tick now s) = SIM_TIME s ∧
  (∀ p, p ∈ workload s → arrival_time (heap s !!! p) = now →
        (p < length (heap s))%nat →
        heap (workload_admit_tick now s) !!! p = set_state ST_READY (heap s !!! p)) ∧
  (∀ p, ¬ (p ∈ workload s ∧ arrival_time (heap s !!! p) = now) →
        heap (workload_admit_tick now s) !!! p = heap s !!! p).
Proof.
  rewrite workload_admit_tick_effect. simpl. repeat split.
  - intros p Hp Hdue Hlen. apply foldl_alter_idem; [done | | done].
    by apply list_elem_of_filter.
  - intros p Hp. apply foldl_alter_other.
    intros [? ?]%list_elem_of_filter. by apply Hp.
Qed.

(** X2: admission is idempotent at a given tick: a second pass at the same
    clock value (as [main] does at tick 0, once before the loop and once in
    its first iteration) changes nothing. *)
Theorem workload_admit_tick_twice (now : Z) (s : Sim) :
  workload_admit_tick now (workload_admit_tick now s) = workload_admit_tick now s.
Proof.
  rewrite (workload_admit_tick_effect now (workload_admit_tick now s)).
  rewrite (workload_admit_tick_effect now s). simpl.
  set (h' := foldl (λ h t, alter (set_state ST_READY) t h) (heap s)
               (filter (λ p, arrival_time (heap s !!! p) = now) (workload s))).
  assert (∀ p, arrival_time (h' !!! p) = arrival_time (heap s !!! p)) as Harr.
  { intros p. symmetry. unfold h'.
    apply (foldl_alter_rel (λ a b, arrival_time a = arrival_time b)); auto.
    intros; congruence. }
  assert (filter (λ p, arrival_time (h' !!! p) = now)
            (filter (λ p, ¬ arrival_time (heap s !!! p) = now) (workload s)) = [])
    as Hnone.
  { apply filter_none. intros p [Hp _]%list_elem_of_filter. by rewrite Harr. }
  assert (filter (λ p, ¬ arrival_time (h' !!! p) = now)
            (filter (λ p, ¬ arrival_time (heap s !!! p) = now) (workload s))
          = filter (λ p, ¬ arrival_time (heap s !!! p) = now) (workload s))
    as Hall.
  { apply filter_all. intros p [Hp _]%list_elem_of_filter. by rewrite Harr. }
  rewrite Hnone, Hall. simpl. by rewrite app_nil_r.
Qed.

(** ** The random source (sim.c, rnd) *)

Lemma rnd_upper rand a b k : 0 ≤ rand k → a ≤ b → rnd rand a b k ≤ b.
Proof.
  intros Hr Hab. unfold rnd.
  pose proof (Z.rem_bound_pos (rand k) (b - a + 1) Hr ltac:(lia)). lia.
Qed.

Lemma wrap_int_small z : INT_MIN ≤ z → z ≤ INT_MAX → wrap_int z = z.
Proof.
  unfold INT_MIN, INT_MAX, wrap_int. intros Hlo Hhi.
  rewrite Z.mod_small by lia. lia.
Qed.

(** Within [rnd_defined] and for a non-negative [rand()], the int
    computation of sim.c has a value, and it is the one [rnd] gives. *)
Lemma rnd_int_exact rand a b k :
  rnd_defined a b → 0 ≤ rand k → rnd_int rand a b k = Some (rnd rand a b k).
Proof.
  intros (Ha & Hab & Hb & Hd) Hr. unfold rnd_int, rnd. cbv zeta.
  unfold INT_MIN, INT_MAX in *.
  rewrite (wrap_int_small (b - a)) by (unfold INT_MIN, INT_MAX; lia).
  rewrite (wrap_int_small (b - a + 1)) by (unfold INT_MIN, INT_MAX; lia).
  pose proof (Z.rem_bound_pos (rand k) (b - a + 1) Hr ltac:(lia)) as Hrem.
  rewrite (proj2 (Z.eqb_neq (b - a + 1) 0)) by lia.
  rewrite (proj2 (Z.eqb_neq (rand k) (-2147483648))) by lia. simpl.
  by rewrite wrap_int_small by (unfold INT_MIN, INT_MAX; lia).
Qed.

(** X3: for int values [a <= b] with [b - a < INT_MAX] and a non-negative
    value of [rand()], the computation of [rnd(a, b)] in int has a value
    (no operation wraps, the divisor is positive), this value is
    [a + rand() % (b - a + 1)] on the integers, and it lies in the closed
    range from [a] to [b]. *)
Theorem rnd_range (rand : nat → Z) (a b : Z) (k : nat) :
  rnd_defined a b → 0 ≤ rand k →
  rnd_int rand a b k = Some (rnd rand a b k) ∧
  a ≤ rnd rand a b k ∧ rnd rand a b k ≤ b.
Proof.
  intros Hdef Hr. split; [by apply rnd_int_exact|].
  destruct Hdef as (_ & Hab & _).
  split; [by apply rnd_lower | by apply rnd_upper].
Qed.

Lemma rnd_range_witness :
  rnd_int (λ k, 7 * Z.of_nat k) 2 6 3 = Some (rnd (λ k, 7 * Z.of_nat k) 2 6 3) ∧
  2 ≤ rnd (λ k, 7 * Z.of_nat k) 2 6 3 ∧ rnd (λ k, 7 * Z.of_nat k) 2 6 3 ≤ 6.
Proof.
  apply rnd_range; [|lia].
  unfold rnd_defined, INT_MIN, INT_MAX. lia.
Defined.

(** ** The main loop (sim.c, main and all_done) *)

(** X4: the loop runs at least one tick and stops at the first tick boundary
    at which [all_done] holds: it returns a state exactly when that state is
    reached after some number of ticks within the fuel, [all_done] holds
    there and held at no earlier boundary. *)
Theorem main_loop_first_done (algo : DispatchAlgo) (cfg : InterruptConfig)
    (rand : nat → Z) (fuel : nat) (s s' : Sim) :
  main_loop algo cfg rand fuel s = Some s' ↔
  ∃ n, (n < fuel)%nat ∧ s' = ticks algo cfg rand (S n) s ∧
       all_done s' = true ∧
       ∀ m, (m < n)%nat → all_done (ticks algo cfg rand (S m) s) = false.
Proof.
  revert s. induction fuel as [|fuel IH]; intros s; simpl.
  - split; [done | intros (n & ? & _); lia].
  - destruct (all_done (tick algo cfg rand s)) eqn:E.
    + split.
      * intros [= <-]. exists 0%nat. repeat split; [lia | done | intros; lia].
      * intros (n & _ & -> & Hd & Hbefore). destruct n as [|n]; [done|].
        specialize (Hbefore 0%nat ltac:(lia)). simpl in Hbefore. congruence.
    + rewrite IH. split.
      * intros (n & Hn & -> & Hd & Hbefore). exists (S n).
        repeat split; [lia | done |].
        intros [|m] Hm; [done|]. apply Hbefore. lia.
      * intros (n & Hn & -> & Hd & Hbefore). destruct n as [|n].
        { simpl in Hd. congruence. }
        exists n. repeat split; [lia | done |].
        intros m Hm. apply (Hbefore (S m)). lia.
Qed.

(** ** Dispatch policies (dispatch.c) *)

(** X5: a call of any of the three policies only moves threads between the
    Ready queue and the cores, without losing or duplicating one: Ready
    together with the core occupants is a permutation of what it was, the
    number of cores, the other queues, the clock and the random stream are
    unchanged, and no thread's remaining time, burst time or finish time is
    written. *)
Theorem dispatch_only_moves (algo : DispatchAlgo) (s : Sim) :
  ready (dispatch_get algo s) ++ occupants (core (dispatch_get algo s))
    ≡ₚ ready s ++ occupants (core s) ∧
  length (core (dispatch_get algo s)) = length (core s) ∧
  workload (dispatch_get algo s) = workload s ∧
  waiting (dispatch_get algo s) = waiting s ∧
  finished (dispatch_get algo s) = finished s ∧
  SIM_TIME (dispatch_get algo s) = SIM_TIME s ∧
  rand_calls (dispatch_get algo s) = rand_calls s ∧
  length (heap (dispatch_get algo s)) = length (heap s) ∧
  ∀ p, remaining (heap (dispatch_get algo s) !!! p) = remaining (heap s !!! p) ∧
       burst_time (heap (dispatch_get algo s) !!! p) = burst_time (heap s !!! p) ∧
       finish_time (heap (dispatch_get algo s) !!! p) = finish_time (heap s !!! p).
Proof.
  destruct (dispatch_get_rel algo s) as [[Ht Hh Hc Hf Ha Hfld] Hw Hwt Hr Hu].
  repeat split; auto.
  - unfold active in Ha. rewrite Hw, Hwt in Ha.
    apply Permutation_app_inv_l in Ha.
    apply (Permutation_app_inv_l (waiting s)).
    etrans; [|etrans; [exact Ha|]]; solve_Permutation.
  - by destruct (Hfld p) as (_ & _ & _ & ? & _).
  - by destruct (Hfld p) as (_ & _ & ? & _).
  - by destruct (Hfld p) as (_ & _ & _ & _ & ? & _).
Qed.

(** X6: every policy is work-conserving: when a call returns and some core
    is still idle, the Ready queue is empty. *)
Theorem dispatch_work_conserving (algo : DispatchAlgo) (s : Sim) (i : nat) :
  core (dispatch_get algo s) !! i = Some None →
  ready (dispatch_get algo s) = [].
Proof.
  intros Hi. destruct (dispatch_get_post algo s) as [?|Hbusy]; [done|].
  apply (Forall_lookup_1 _ _ _ _ Hbusy) in Hi. by destruct Hi.
Qed.

Lemma dispatch_work_conserving_witness :
  ready (dispatch_get DISP_SRTCF (sim_start 2 [(1, 0, 1)])) = [].
Proof. apply (dispatch_work_conserving _ _ 1%nat). reflexivity. Defined.

Lemma fill_idle_done pop fuel s :
  pop_ok pop → cpu_any_idle (core s) = false ∨ ready s = [] →
  fill_idle pop fuel s = s.
Proof.
  intros Hpop Hdone. destruct fuel as [|fuel]; [done|]. simpl.
  destruct (cpu_any_idle (core s)); [|done].
  destruct Hdone as [?|Hr]; [done|].
  specialize (Hpop (heap s) (ready s)). rewrite Hr in *.
  destruct (pop (heap s) []) as [[t q']|]; [|done].
  by apply Permutation_nil_cons in Hpop.
Qed.

Lemma fill_idle_twice pop s :
  pop_ok pop →
  fill_idle pop (length (ready (fill_idle pop (length (ready s)) s)))
    (fill_idle pop (length (ready s)) s)
  = fill_idle pop (length (ready s)) s.
Proof.
  intros Hpop. apply fill_idle_done; [done|].
  destruct (cpu_any_idle (core (fill_idle pop (length (ready s)) s))) eqn:E;
    [right | by left].
  by apply fill_idle_post.
Qed.

(** X7: FIFO and SJF are idempotent: calling the policy again right after
    it returned changes nothing. *)
Theorem dispatch_nonpreemptive_idempotent (s : Sim) :
  dispatch_fifo (dispatch_fifo s) = dispatch_fifo s ∧
  dispatch_sjf (dispatch_sjf s) = dispatch_sjf s.
Proof.
  split.
  - apply (fill_idle_twice (λ _ q, q_pop q)), q_pop_ok.
  - apply (fill_idle_twice q_pop_min_burst), q_pop_min_burst_ok.
Qed.

Lemma fill_idle_keeps pop fuel s (i t : nat) :
  pop_ok pop → core s !! i = Some (Some t) →
  core (fill_idle pop fuel s) !! i = Some (Some t).
Proof.
  intros Hpop. revert s. induction fuel as [|fuel IH]; intros s Hi; simpl; [done|].
  destruct (cpu_any_idle (core s)) eqn:Hidle; [|done].
  destruct (pop (heap s) (ready s)) as [[t0 q']|]; [|done].
  apply IH. apply cpu_any_idle_true in Hidle as (k & Hk & Hslot).
  unfold cpu_bind_first_idle. simpl. rewrite Hk.
  rewrite (proj2 (Z.leb_le 0 (Z.of_nat k))) by lia. simpl.
  rewrite Nat2Z.id, list_lookup_insert_ne; [done|]. congruence.
Qed.

(** X8: FIFO and SJF never preempt: a core that holds a thread when the
    policy is called holds the same thread when it returns. *)
Theorem dispatch_nonpreemptive_keeps (s : Sim) (i t : nat) :
  core s !! i = Some (Some t) →
  core (dispatch_fifo s) !! i = Some (Some t) ∧
  core (dispatch_sjf s) !! i = Some (Some t).
Proof.
  intros Hi. split.
  - apply fill_idle_keeps; [apply q_pop_ok | done].
  - apply fill_idle_keeps; [apply q_pop_min_burst_ok | done].
Qed.

Lemma dispatch_nonpreemptive_keeps_witness :
  core (dispatch_fifo (dispatch_srtcf three_ready)) !! 0%nat = Some (Some 1%nat) ∧
  core (dispatch_sjf (dispatch_srtcf three_ready)) !! 0%nat = Some (Some 1%nat).
Proof. apply dispatch_nonpreemptive_keeps. reflexivity. Defined.

(** *** How many threads FIFO binds, and which *)

Lemma occupants_length cs : (length (occupants cs) ≤ length cs)%nat.
Proof.
  unfold occupants. induction cs as [|[t|] cs IH]; csimpl; lia.
Qed.

Lemma occupants_length_idle cs (k : nat) :
  cs !! k = Some None → (length (occupants cs) < length cs)%nat.
Proof.
  revert k. induction cs as [|c cs IH]; intros [|k] Hk; simplify_eq/=.
  - pose proof (occupants_length cs). unfold occupants in *. csimpl. lia.
  - specialize (IH k Hk). unfold occupants in *. destruct c; csimpl; lia.
Qed.

Lemma idle_count_busy cs : Forall is_Some cs → idle_count cs = 0%nat.
Proof.
  unfold idle_count.
  induction 1 as [|c cs [t ->] _ IH]; [done|].
  pose proof (occupants_length cs). unfold occupants in *. csimpl. lia.
Qed.

Lemma idle_count_bind cs (k t : nat) :
  cs !! k = Some None →
  idle_count cs = S (idle_count (<[k := Some t]> cs)).
Proof.
  intros Hk. unfold idle_count.
  rewrite length_insert, (Permutation_length (occupants_insert_idle cs k t Hk)).
  simpl. pose proof (occupants_length_idle cs k Hk). lia.
Qed.

Lemma fill_idle_fifo_order fuel s :
  (length (ready s) ≤ fuel)%nat →
  ready (fill_idle (λ _ q, q_pop q) fuel s)
    = drop (idle_count (core s) `min` length (ready s)) (ready s) ∧
  occupants (core (fill_idle (λ _ q, q_pop q) fuel s))
    ≡ₚ occupants (core s)
        ++ take (idle_count (core s) `min` length (ready s)) (ready s).
Proof.
  revert s. induction fuel as [|fuel IH]; intros s Hlen.
  - simpl. destruct (ready s) as [|t q'] eqn:Hr; [|simpl in Hlen; lia].
    rewrite Nat.min_0_r. simpl. by rewrite app_nil_r.
  - simpl. destruct (cpu_any_idle (core s)) eqn:Hidle.
    + destruct (ready s) as [|t q'] eqn:Hr; simpl.
      * rewrite Hr, Nat.min_0_r. simpl. by rewrite app_nil_r.
      * apply cpu_any_idle_true in Hidle as (k & Hk & Hslot).
        unfold cpu_bind_first_idle. simpl. rewrite Hk.
        rewrite (proj2 (Z.leb_le 0 (Z.of_nat k))) by lia.
        destruct (IH (cpu_bind_core (Z.of_nat k) t (set_ready q' s)))
          as [-> ->]; [simpl in *; lia|].
        simpl. rewrite Nat2Z.id, (idle_count_bind _ k t Hslot).
        rewrite <- Nat.succ_min_distr. simpl.
        split; [done|]. rewrite occupants_insert_idle by done.
        solve_Permutation.
    + apply cpu_any_idle_false in Hidle.
      rewrite idle_count_busy by done. simpl. by rewrite app_nil_r.
Qed.

(** X9: FIFO binds the first [k] threads of the Ready queue, where [k] is
    the smaller of the number of idle cores and the length of Ready, and
    leaves the rest of the queue in order. *)
Theorem dispatch_fifo_order (s : Sim) :
  ready (dispatch_fifo s)
    = drop (idle_count (core s) `min` length (ready s)) (ready s) ∧
  occupants (core (dispatch_fifo s))
    ≡ₚ occupants (core s)
        ++ take (idle_count (core s) `min` length (ready s)) (ready s).
Proof. by apply fill_idle_fifo_order. Qed.

(** *** Which threads SJF binds *)

Lemma fill_idle_ready_subset pop fuel s x :
  pop_ok pop → x ∈ ready (fill_idle pop fuel s) → x ∈ ready s.
Proof.
  intros Hpop. revert s. induction fuel as [|fuel IH]; intros s; simpl; [done|].
  destruct (cpu_any_idle (core s)); [|done].
  specialize (Hpop (heap s) (ready s)).
  destruct (pop (heap s) (ready s)) as [[t q']|]; [|done].
  intros Hx%IH. rewrite cpu_bind_first_idle_ready in Hx. simpl in Hx.
  rewrite Hpop. by right.
Qed.

Lemma fill_idle_sjf_shortest fuel s (i t R : nat) :
  core s !! i = Some None →
  core (fill_idle q_pop_min_burst fuel s) !! i = Some (Some t) →
  R ∈ ready (fill_idle q_pop_min_burst fuel s) →
  burst_time (heap s !!! t) ≤ burst_time (heap s !!! R).
Proof.
  revert s. induction fuel as [|fuel IH]; intros s Hi; simpl; [congruence|].
  destruct (cpu_any_idle (core s)) eqn:Hidle; [|congruence].
  destruct (q_pop_min_burst (heap s) (ready s)) as [[m q']|] eqn:Hpop;
    [|congruence].
  pose proof Hpop as [Hperm Hmin]%q_pop_min_by_Some.
  apply cpu_any_idle_true in Hidle as (k & Hk & Hslot).
  unfold cpu_bind_first_idle. simpl. rewrite Hk.
  rewrite (proj2 (Z.leb_le 0 (Z.of_nat k))) by lia.
  pose proof (bind_popped_rel s k m q' Hperm Hslot) as Hrel.
  assert (∀ p, burst_time (heap (cpu_bind_core (Z.of_nat k) m (set_ready q' s)) !!! p)
               = burst_time (heap s !!! p)) as Hb.
  { intros p. by destruct (ps_fields _ _ (dr_pre _ _ Hrel) p) as (_ & _ & ? & _). }
  intros Hslot' HR. destruct (decide (i = k)) as [->|Hne].
  - rewrite (fill_idle_keeps q_pop_min_burst fuel _ k m q_pop_min_burst_ok) in Hslot'.
    + simplify_eq. apply Hmin. rewrite Hperm. right.
      by apply (fill_idle_ready_subset q_pop_min_burst fuel _ R q_pop_min_burst_ok) in HR.
    + simpl. rewrite Nat2Z.id. apply list_lookup_insert_eq.
      by eapply lookup_lt_Some.
  - rewrite <- !Hb. apply IH; [|done|done].
    simpl. rewrite Nat2Z.id, list_lookup_insert_ne by done. done.
Qed.

(** X10: SJF gives an idle core to a thread whose burst time is no larger
    than that of any thread it leaves in the Ready queue. *)
Theorem dispatch_sjf_shortest (s : Sim) (i t R : nat) :
  core s !! i = Some None →
  core (dispatch_sjf s) !! i = Some (Some t) →
  R ∈ ready (dispatch_sjf s) →
  burst_time (heap (dispatch_sjf s) !!! t) ≤ burst_time (heap (dispatch_sjf s) !!! R).
Proof.
  intros Hi Ht HR.
  assert (∀ p, burst_time (heap (dispatch_sjf s) !!! p) = burst_time (heap s !!! p))
    as Hb.
  { intros p. pose proof (fill_idle_rel q_pop_min_burst (length (ready s)) s
                            q_pop_min_burst_ok) as Hrel.
    by destruct (ps_fields _ _ (dr_pre _ _ Hrel) p) as (_ & _ & ? & _). }
  rewrite !Hb. by eapply fill_idle_sjf_shortest.
Qed.

Lemma dispatch_sjf_shortest_witness :
  burst_time (heap (dispatch_sjf three_ready) !!! 1%nat)
    ≤ burst_time (heap (dispatch_sjf three_ready) !!! 0%nat).
Proof.
  apply (dispatch_sjf_shortest three_ready 0%nat).
  - reflexivity.
  - reflexivity.
  - vm_compute. apply list_elem_of_In. simpl. auto.
Defined.

(** *** The victim scan of SRTCF *)

Lemma largest_above_from_first h th cs pre bc br :
  scan_first_inv h th pre bc br →
  ∃ br', scan_first_inv h th (pre ++ cs)
           (largest_above_from h th cs (Z.of_nat (length pre)) bc br) br'.
Proof.
  revert pre bc br. induction cs as [|c cs IH]; intros pre bc br Hinv; simpl.
  - rewrite app_nil_r. eauto.
  - replace (Z.of_nat (length pre) + 1) with (Z.of_nat (length (pre ++ [c])))
      by (rewrite length_app; simpl; lia).
    replace (pre ++ c :: cs) with ((pre ++ [c]) ++ cs)
      by (by rewrite <- app_assoc).
    destruct Hinv as (Hbr & Hle & Hbest).
    destruct c as [r|].
    + destruct ((th <? remaining (h !!! r)) && (br <? remaining (h !!! r))) eqn:E.
      * apply andb_true_iff in E as [E1%Z.ltb_lt E2%Z.ltb_lt].
        apply IH. split; [lia|]. split.
        -- intros t'. rewrite occupants_snoc. simpl.
           intros [Ht' | ->%list_elem_of_singleton]%elem_of_app Hth; [|lia].
           specialize (Hle t' Ht' Hth). lia.
        -- right. exists (length pre), r. split; [done|].
           split; [by rewrite lookup_app_r, Nat.sub_diag by lia|].
           split; [done|]. intros j t' Hj Hjt Hth.
           rewrite lookup_app_l in Hjt by done.
           assert (t' ∈ occupants pre) as Ht' by (apply occupants_lookup; eauto).
           specialize (Hle t' Ht' Hth). lia.
      * apply andb_false_iff in E. apply IH. split; [done|]. split.
        -- intros t'. rewrite occupants_snoc. simpl.
           intros [Ht' | ->%list_elem_of_singleton]%elem_of_app Hth;
             [by apply Hle|].
           destruct E as [E%Z.ltb_ge|E%Z.ltb_ge]; lia.
        -- destruct Hbest as [->|(k & t & -> & Hk & Ht & Hfirst)]; [by left|].
           right. exists k, t. split; [done|].
           split; [by apply lookup_app_l_Some|]. split; [done|].
           intros j t' Hj Hjt. apply (Hfirst j t' Hj).
           apply lookup_lt_Some in Hk. by rewrite lookup_app_l in Hjt by lia.
    + apply IH. split; [done|]. split.
      * intros t'. rewrite occupants_snoc. simpl. rewrite app_nil_r. apply Hle.
      * destruct Hbest as [->|(k & t & -> & Hk & Ht & Hfirst)]; [by left|].
        right. exists k, t. split; [done|].
        split; [by apply lookup_app_l_Some|]. split; [done|].
        intros j t' Hj Hjt. apply (Hfirst j t' Hj).
        apply lookup_lt_Some in Hk. by rewrite lookup_app_l in Hjt by lia.
Qed.

(** X11: [core_with_largest_remaining_above] returns either [-1], and then
    no running thread has a remaining time above both the threshold and
    [-1], or the index of an occupied core whose thread is above the
    threshold, has at least as much remaining time as every running thread
    and strictly more than the threads on the cores before it (on ties the
    lowest core index wins). *)
Theorem core_with_largest_first_max (h : list Thread) (cs : list (option nat))
    (th : Z) :
  (core_with_largest_remaining_above h cs th = -1 ∧
   ∀ t, t ∈ occupants cs →
     ¬ (th < remaining (h !!! t) ∧ -1 < remaining (h !!! t))) ∨
  (∃ (k t : nat),
     core_with_largest_remaining_above h cs th = Z.of_nat k ∧
     cs !! k = Some (Some t) ∧ th < remaining (h !!! t) ∧
     (∀ t', t' ∈ occupants cs → remaining (h !!! t') ≤ remaining (h !!! t)) ∧
     (∀ (j t' : nat), (j < k)%nat → cs !! j = Some (Some t') →
        remaining (h !!! t') < remaining (h !!! t))).
Proof.
  destruct (core_with_largest_spec h th cs)
    as [[Hv Hno]|(k & t & Hv & Hk & Hth & Hmax)]; [by left|].
  right. exists k, t. repeat split; auto.
  intros j t' Hj Hjt.
  destruct (largest_above_from_first h th cs [] (-1) (-1)) as [br' Hinv].
  { split; [lia|]. split; [|by left]. intros t0 Ht0. inversion Ht0. }
  change (Z.of_nat (length (@nil (option nat)))) with 0 in Hinv.
  change ([] ++ cs) with cs in Hinv.
  fold (core_with_largest_remaining_above h cs th) in Hinv.
  rewrite Hv in Hinv.
  destruct Hinv as (_ & _ & [Hbad|(k' & t0 & Hk' & Hk0 & Ht0 & Hfirst)]); [lia|].
  apply Nat2Z.inj in Hk'. subst k'. simplify_eq.
  destruct (decide (th < remaining (h !!! t'))) as [Hlt|Hge].
  - by apply (Hfirst j t' Hj Hjt).
  - lia.
Qed.

(** ** Collection of completions (sim.c, collect_completions) *)

Lemma foldl_collect_at_prefix s (k : nat) :
  (k ≤ length (core s))%nat →
  core (foldl collect_at s (seq 0 k))
    = (collect_slot (heap s) <$> take k (core s)) ++ drop k (core s) ∧
  finished (foldl collect_at s (seq 0 k))
    = finished s
      ++ filter (λ t, remaining (heap s !!! t) = 0) (occupants (take k (core s))).
Proof.
  induction k as [|k IH]; intros Hk.
  - simpl. rewrite drop_0. by rewrite app_nil_r.
  - rewrite seq_S, foldl_app. simpl.
    destruct IH as [IHc IHf]; [lia|].
    pose proof (foldl_collect_at_rel (seq 0 k) s) as Hrel.
    revert IHc IHf Hrel. generalize (foldl collect_at s (seq 0 k)) as sk.
    intros sk IHc IHf Hrel.
    destruct (lookup_lt_is_Some_2 (core s) k ltac:(lia)) as [c Hc].
    assert (length (collect_slot (heap s) <$> take k (core s)) = k) as Hlen.
    { rewrite length_fmap, length_take. lia. }
    assert (core sk !! k = Some c) as Hck.
    { rewrite IHc, lookup_app_r by lia.
      rewrite Hlen, Nat.sub_diag, lookup_drop, Nat.add_0_r. done. }
    rewrite (take_S_r _ _ _ Hc), fmap_app, occupants_snoc, filter_app.
    simpl. unfold collect_at. rewrite Hck.
    destruct c as [t|]; simpl.
    + rewrite (cr_remaining _ _ Hrel).
      destruct (remaining (heap s !!! t) =? 0) eqn:E; simpl.
      * apply Z.eqb_eq in E. rewrite IHc, IHf.
        rewrite insert_app_r_alt by lia. rewrite Hlen, Nat.sub_diag.
        rewrite (drop_S _ _ _ Hc). simpl.
        rewrite filter_cons, decide_True by done.
        unfold q_push. by rewrite <- !app_assoc.
      * apply Z.eqb_neq in E. rewrite IHc, IHf.
        rewrite (drop_S _ _ _ Hc).
        rewrite filter_cons, decide_False by done.
        by rewrite <- !app_assoc, app_nil_r.
    + rewrite IHc, IHf, (drop_S _ _ _ Hc).
      by rewrite <- !app_assoc, !app_nil_r.
Qed.

(** X12: [collect_completions] clears exactly the cores whose thread has
    no remaining time and leaves every other core as it is; the threads
    taken off are appended to the Finished queue in core order; Ready,
    Waiting, the workload, the clock and every thread's remaining time are
    unchanged. *)
Theorem collect_completions_spec (s : Sim) :
  core (collect_completions s) = collect_slot (heap s) <$> core s ∧
  finished (collect_completions s)
    = finished s
      ++ filter (λ t, remaining (heap s !!! t) = 0) (occupants (core s)) ∧
  ready (collect_completions s) = ready s ∧
  waiting (collect_completions s) = waiting s ∧
  workload (collect_completions s) = workload s ∧
  SIM_TIME (collect_completions s) = SIM_TIME s ∧
  ∀ p, remaining (heap (collect_completions s) !!! p) = remaining (heap s !!! p).
Proof.
  destruct (foldl_collect_at_prefix s (length (core s))) as [Hc Hf]; [lia|].
  rewrite firstn_all, drop_all, app_nil_r in Hc. rewrite firstn_all in Hf.
  pose proof (collect_completions_rel s) as Hrel.
  repeat split; auto; apply Hrel.
Qed.

(** ** Random interrupts (sim.c, random_interrupts) *)

Lemma skip_rand_0 s : skip_rand 0 s = s.
Proof. by destruct s. Qed.

Lemma occupants_cons c cs :
  occupants (c :: cs)
  = match c with Some t => t :: occupants cs | None => occupants cs end.
Proof. by destruct c. Qed.

Lemma foldl_interrupt_at_never cfg rand s (k a n : nat) :
  pct_io cfg ≤ 0 → (∀ j, 0 ≤ rand j) → (a + k = length (core s))%nat →
  foldl (interrupt_at cfg rand) (skip_rand n s) (seq a k)
  = skip_rand (n + length (occupants (drop a (core s)))) s.
Proof.
  intros Hpct Hrand. revert a n. induction k as [|k IH]; intros a n Hlen.
  - simpl. rewrite drop_ge by lia. simpl. by rewrite Nat.add_0_r.
  - destruct (lookup_lt_is_Some_2 (core s) a ltac:(lia)) as [c Hc].
    rewrite (drop_S _ _ _ Hc), occupants_cons. simpl.
    unfold interrupt_at at 2. simpl. rewrite Hc. destruct c as [t|].
    + pose proof (Z.rem_nonneg (rand (n + rand_calls s)%nat) 100 ltac:(lia)
                    (Hrand _)) as Hr.
      rewrite (proj2 (Z.ltb_ge _ _)) by lia.
      change (use_rand (skip_rand n s)) with (skip_rand (S n) s).
      rewrite IH by lia. simpl. f_equal. lia.
    + by rewrite IH by lia.
Qed.

(** X13: with [pct_io <= 0] (and [rand()] never negative) the interrupt pass
    interrupts nobody: it only consumes one random number per occupied
    core. *)
Theorem random_interrupts_never (cfg : InterruptConfig) (rand : nat → Z) (s : Sim) :
  pct_io cfg ≤ 0 → (∀ j, 0 ≤ rand j) →
  random_interrupts cfg rand s
  = if enable_random cfg then skip_rand (length (occupants (core s))) s else s.
Proof.
  intros Hpct Hrand. unfold random_interrupts.
  destruct (enable_random cfg); [|done].
  rewrite <- (skip_rand_0 s) at 1.
  rewrite (foldl_interrupt_at_never cfg rand s _ 0 0) by (done || lia).
  by rewrite drop_0.
Qed.

Lemma random_interrupts_never_witness :
  random_interrupts (mkIntr true 0 2 6) (λ k, 7 * Z.of_nat k)
    (dispatch_srtcf three_ready)
  = skip_rand (length (occupants (core (dispatch_srtcf three_ready))))
      (dispatch_srtcf three_ready).
Proof.
  apply (random_interrupts_never (mkIntr true 0 2 6)); simpl; intros; lia.
Defined.

Lemma rem_100_lt x : Z.rem x 100 < 100.
Proof. pose proof (Z.rem_bound_abs x 100 ltac:(lia)). lia. Qed.

Lemma interrupt_at_always cfg rand s (a t : nat) :
  100 ≤ pct_io cfg → core s !! a = Some (Some t) →
  interrupt_at cfg rand s a
  = {| SIM_TIME := SIM_TIME s;
       heap := alter (λ th, set_unblocked_at
                              (SIM_TIME s + rnd rand (io_min cfg) (io_max cfg)
                                              (S (rand_calls s)))
                              (set_state ST_WAITING th)) t (heap s);
       workload := workload s; ready := ready s;
       waiting := q_push (waiting s) t; finished := finished s;
       core := <[a := None]> (core s);
       rand_calls := S (S (rand_calls s)) |}.
Proof.
  intros Hpct Hc. unfold interrupt_at. rewrite Hc.
  pose proof (rem_100_lt (rand (rand_calls s))) as Hr.
  rewrite (proj2 (Z.ltb_lt _ _)) by lia.
  unfold block_to_waiting, cpu_unbind_core. simpl. by rewrite Hc.
Qed.

Lemma interrupt_at_idle_slot cfg rand s (a : nat) :
  core s !! a = Some None → interrupt_at cfg rand s a = s.
Proof. intros Hc. unfold interrupt_at. by rewrite Hc. Qed.

Lemma foldl_interrupt_at_always cfg rand (k a : nat) s :
  100 ≤ pct_io cfg → (a + k = length (core s))%nat →
  core (foldl (interrupt_at cfg rand) s (seq a k))
    = take a (core s) ++ replicate k None ∧
  waiting (foldl (interrupt_at cfg rand) s (seq a k))
    = waiting s ++ occupants (drop a (core s)) ∧
  ready (foldl (interrupt_at cfg rand) s (seq a k)) = ready s ∧
  rand_calls (foldl (interrupt_at cfg rand) s (seq a k))
    = (rand_calls s + 2 * length (occupants (drop a (core s))))%nat.
Proof.
  intros Hpct. revert a s. induction k as [|k IH]; intros a s Hlen.
  - simpl. rewrite drop_ge, take_ge by lia. simpl.
    rewrite !app_nil_r. repeat split; auto.
  - destruct (lookup_lt_is_Some_2 (core s) a ltac:(lia)) as [c Hc].
    rewrite (drop_S _ _ _ Hc), occupants_cons. simpl.
    assert (take a (core s) ++ None :: replicate k None
            = (take a (core s) ++ [None]) ++ replicate k None) as ->
      by (by rewrite <- app_assoc).
    destruct c as [t|].
    + rewrite (interrupt_at_always cfg rand s a t Hpct Hc).
      match goal with |- context [foldl _ ?s1 _] =>
        destruct (IH (S a) s1) as (-> & -> & -> & ->) end.
      { simpl. rewrite length_insert. lia. }
      simpl. rewrite drop_insert_lt by lia.
      rewrite (take_S_r _ _ None), take_insert_ge by
        (lia || (apply list_lookup_insert_eq; lia)).
      unfold q_push. rewrite <- !app_assoc. simpl.
      repeat split; auto. lia.
    + rewrite (interrupt_at_idle_slot cfg rand s a Hc).
      destruct (IH (S a) s) as (-> & -> & -> & ->); [lia|].
      by rewrite (take_S_r _ _ _ Hc).
Qed.

(** X14: with interrupts enabled, [pct_io >= 100], an I/O range
    [io_min <= io_max] of int values with [io_max - io_min < INT_MAX] and
    [rand()] never negative, every call of [rnd] has a value in int (the
    one [rnd] gives) and the interrupt pass interrupts every running
    thread: afterwards all cores are idle, the former occupants are
    appended to the Waiting queue in core order, Ready is unchanged and two
    random numbers were consumed per occupant. *)
Theorem random_interrupts_always (cfg : InterruptConfig) (rand : nat → Z) (s : Sim) :
  enable_random cfg = true → 100 ≤ pct_io cfg →
  rnd_defined (io_min cfg) (io_max cfg) → (∀ k, 0 ≤ rand k) →
  (∀ k, rnd_int rand (io_min cfg) (io_max cfg) k
        = Some (rnd rand (io_min cfg) (io_max cfg) k)) ∧
  core (random_interrupts cfg rand s) = replicate (length (core s)) None ∧
  waiting (random_interrupts cfg rand s) = waiting s ++ occupants (core s) ∧
  ready (random_interrupts cfg rand s) = ready s ∧
  rand_calls (random_interrupts cfg rand s)
    = (rand_calls s + 2 * length (occupants (core s)))%nat.
Proof.
  intros Hen Hpct Hdef Hrand.
  split; [intros k; by apply rnd_int_exact|].
  unfold random_interrupts. rewrite Hen.
  destruct (foldl_interrupt_at_always cfg rand (length (core s)) 0 s Hpct)
    as (-> & -> & -> & ->); [lia|].
  by rewrite drop_0.
Qed.

Lemma random_interrupts_always_witness :
  (∀ k, rnd_int (λ k, 7 * Z.of_nat k) (io_min (mkIntr true 100 2 6))
          (io_max (mkIntr true 100 2 6)) k
        = Some (rnd (λ k, 7 * Z.of_nat k) (io_min (mkIntr true 100 2 6))
                  (io_max (mkIntr true 100 2 6)) k)) ∧
  core (random_interrupts (mkIntr true 100 2 6) (λ k, 7 * Z.of_nat k)
          (dispatch_srtcf three_ready))
    = replicate (length (core (dispatch_srtcf three_ready))) None ∧
  waiting (random_interrupts (mkIntr true 100 2 6) (λ k, 7 * Z.of_nat k)
             (dispatch_srtcf three_ready))
    = waiting (dispatch_srtcf three_ready)
      ++ occupants (core (dispatch_srtcf three_ready)) ∧
  ready (random_interrupts (mkIntr true 100 2 6) (λ k, 7 * Z.of_nat k)
           (dispatch_srtcf three_ready))
    = ready (dispatch_srtcf three_ready) ∧
  rand_calls (random_interrupts (mkIntr true 100 2 6) (λ k, 7 * Z.of_nat k)
                (dispatch_srtcf three_ready))
    = (rand_calls (dispatch_srtcf three_ready)
       + 2 * length (occupants (core (dispatch_srtcf three_ready))))%nat.
Proof.
  apply random_interrupts_always; [reflexivity | simpl; lia | | intros k; lia].
  unfold rnd_defined, INT_MIN, INT_MAX. simpl. lia.
Defined.





(** ** Building the workload (sim.c, make_thread, workload_add and main) *)

Lemma filter_ext_in {A} (P Q : A → Prop) `{∀ x, Decision (P x)}
    `{∀ x, Decision (Q x)} (l : list A) :
  (∀ x, x ∈ l → (P x ↔ Q x)) → filter P l = filter Q l.
Proof.
  induction l as [|a l IH]; intros Hext; [done|].
  rewrite !filter_cons.
  rewrite IH by (intros x Hx; apply Hext; by right).
  destruct (decide (P a)) as [HP|HP], (decide (Q a)) as [HQ|HQ]; try done;
    exfalso; apply (Hext a ltac:(left)) in HP || apply (Hext a ltac:(left)) in HQ;
    done.
Qed.

(** X16: after the set-up done by [main] (threads added with
    [workload_add] in the given order, then the admission for tick 0), the
    Ready queue holds exactly the threads that arrive at tick 0 and the
    workload queue the others, both in the order in which they were added;
    every Thread object is as [make_thread] built it, except that the
    admitted ones are Ready; all cores are idle and the clock is 0. *)
Theorem sim_start_queues (ncores : nat) (entries : list (Z * Z * Z)) :
  ready (sim_start ncores entries)
    = filter (λ p, (entries !!! p).1.2 = 0) (seq 0 (length entries)) ∧
  workload (sim_start ncores entries)
    = filter (λ p, ¬ (entries !!! p).1.2 = 0) (seq 0 (length entries)) ∧
  waiting (sim_start ncores entries) = [] ∧
  finished (sim_start ncores entries) = [] ∧
  core (sim_start ncores entries) = replicate ncores None ∧
  SIM_TIME (sim_start ncores entries) = 0 ∧
  ∀ p e, entries !! p = Some e →
    heap (sim_start ncores entries) !! p
    = Some (set_state (if decide (e.1.2 = 0) then ST_READY else ST_NEW)
              (make_thread e.1.1 e.1.2 e.2)).
Proof.
  unfold sim_start.
  destruct (load_workload_spec entries (sim_empty ncores))
    as (Hh & Hw & Hr & Hwt & Hf & Hc & Ht).
  revert Hh Hw Hr Hwt Hf Hc Ht.
  generalize (load_workload entries (sim_empty ncores)) as s0.
  intros s0 Hh Hw Hr Hwt Hf Hc Ht. simpl in *.
  rewrite workload_admit_tick_effect. simpl. rewrite Hw, Hr, Hwt, Hf, Hc, Ht.
  assert (∀ p, (p < length entries)%nat →
               heap s0 !!! p = make_thread (entries !!! p).1.1 (entries !!! p).1.2
                                 (entries !!! p).2) as Hlook.
  { intros p Hp. rewrite Hh.
    destruct (lookup_lt_is_Some_2 entries p Hp) as [e He].
    rewrite (list_lookup_total_correct entries p e He).
    apply list_lookup_total_correct. by rewrite list_lookup_fmap, He. }
  assert (filter (λ p, arrival_time (heap s0 !!! p) = 0) (seq 0 (length entries))
          = filter (λ p, (entries !!! p).1.2 = 0) (seq 0 (length entries)))
    as Hdue.
  { apply filter_ext_in. intros p Hp%elem_of_seq. by rewrite Hlook by lia. }
  assert (filter (λ p, ¬ arrival_time (heap s0 !!! p) = 0) (seq 0 (length entries))
          = filter (λ p, ¬ (entries !!! p).1.2 = 0) (seq 0 (length entries)))
    as Hnot.
  { apply filter_ext_in. intros p Hp%elem_of_seq. by rewrite Hlook by lia. }
  rewrite Hdue, Hnot. repeat split; auto.
  intros p e He.
  assert (p < length entries)%nat as Hp by (by eapply lookup_lt_Some).
  assert (length (heap s0) = length entries) as Hlen.
  { rewrite Hh. simpl. by rewrite length_fmap. }
  rewrite list_lookup_lookup_total_lt by (by rewrite foldl_alter_length, Hlen).
  f_equal. pose proof (Hlook p Hp) as Hp0.
  rewrite (list_lookup_total_correct entries p e He) in Hp0.
  destruct (decide (e.1.2 = 0)) as [Hz|Hnz].
  - rewrite foldl_alter_idem; [by rewrite Hp0 | done | | lia].
    apply list_elem_of_filter. split.
    + by rewrite (list_lookup_total_correct entries p e He).
    + apply elem_of_seq. lia.
  - rewrite foldl_alter_other; [by rewrite Hp0|].
    intros [Hz _]%list_elem_of_filter.
    by rewrite (list_lookup_total_correct entries p e He) in Hz.
Qed.

(** ** The selection scan of sjf.c, inside the array *)

Module SjfScanFacts.
Import SjfArray.

Lemma scan_from_min procArray n i shortest pid :
  (i + n ≤ length procArray)%nat →
  ∃ m pid',
    scan_from procArray n i shortest pid = InBounds (m, pid') ∧
    m ≤ shortest ∧
    (∀ j q, (i ≤ j < i + n)%nat → procArray !! j = Some q → m ≤ remainingTime q) ∧
    ((m = shortest ∧ pid' = pid ∧
      ∀ j q, (i ≤ j < i + n)%nat → procArray !! j = Some q →
             shortest < remainingTime q) ∨
     (∃ k q, pid' = Some k ∧ (i ≤ k < i + n)%nat ∧ procArray !! k = Some q ∧
        remainingTime q = m ∧
        ∀ j q', (k < j < i + n)%nat → procArray !! j = Some q' →
                m < remainingTime q')).
Proof.
  revert i shortest pid. induction n as [|n IH]; intros i shortest pid Hlen; simpl.
  - exists shortest, pid. split; [done|]. split; [lia|].
    split; [intros; lia|]. left. repeat split; auto. intros; lia.
  - destruct (lookup_lt_is_Some_2 procArray i ltac:(lia)) as [p Hp]. rewrite Hp.
    destruct (remainingTime p <=? shortest) eqn:E.
    + apply Z.leb_le in E.
      destruct (IH (S i) (remainingTime p) (Some i) ltac:(lia))
        as (m & pid' & -> & Hm & Hall & Hcase).
      exists m, pid'. split; [done|]. split; [lia|]. split.
      * intros j q Hj Hq. destruct (decide (j = i)) as [->|Hne].
        -- simplify_eq. done.
        -- apply (Hall j q); [lia | done].
      * right. destruct Hcase as [(-> & -> & Hgt)|(k & q & -> & Hk & Hq & Hqm & Hgt)].
        -- exists i, p. repeat split; auto; try lia.
           intros j q' Hj Hq'. apply (Hgt j q'); [lia | done].
        -- exists k, q. repeat split; auto; try lia.
           intros j q' Hj Hq'. apply (Hgt j q'); [lia | done].
    + apply Z.leb_gt in E.
      destruct (IH (S i) shortest pid ltac:(lia))
        as (m & pid' & -> & Hm & Hall & Hcase).
      exists m, pid'. split; [done|]. split; [lia|]. split.
      * intros j q Hj Hq. destruct (decide (j = i)) as [->|Hne].
        -- simplify_eq. lia.
        -- apply (Hall j q); [lia | done].
      * destruct Hcase as [(-> & -> & Hgt)|(k & q & -> & Hk & Hq & Hqm & Hgt)].
        -- left. repeat split; auto. intros j q Hj Hq.
           destruct (decide (j = i)) as [->|Hne]; [by simplify_eq|].
           apply (Hgt j q); [lia | done].
        -- right. exists k, q. repeat split; auto; try lia.
           intros j q' Hj Hq'. apply (Hgt j q'); [lia | done].
Qed.

(** X17: over the entries the array holds (the iterations before the
    overrun), the selection loop of [sjf] leaves in [shortest] the smallest
    remaining time and in [pid] the last index that has it (the test is
    [<=], so on ties the later process is chosen), provided the array is not
    empty and the remaining times fit the [int] maximum the scan starts
    from. *)
Theorem sjf_scan_selects_last_min (procArray : list process) :
  procArray ≠ [] →
  Forall (λ p, remainingTime p ≤ 2147483647) procArray →
  ∃ m k p,
    scan_from procArray (length procArray) 0 2147483647 None = InBounds (m, Some k) ∧
    procArray !! k = Some p ∧ remainingTime p = m ∧
    (∀ j q, procArray !! j = Some q → m ≤ remainingTime q) ∧
    (∀ j q, (k < j)%nat → procArray !! j = Some q → m < remainingTime q).
Proof.
  intros Hne Hfit.
  destruct (scan_from_min procArray (length procArray) 0 2147483647 None ltac:(lia))
    as (m & pid' & Hscan & Hm & Hall & Hcase).
  destruct Hcase as [(_ & _ & Hgt)|(k & q & -> & Hk & Hq & Hqm & Hgt)].
  - destruct procArray as [|p0 l]; [done|].
    specialize (Hgt 0%nat p0 ltac:(simpl; lia) eq_refl).
    apply Forall_cons in Hfit as [Hp0 _]. lia.
  - exists m, k, q. repeat split; auto.
    + intros j q' Hq'. apply (Hall j q'); [|done].
      apply lookup_lt_Some in Hq'. lia.
    + intros j q' Hj Hq'. apply (Hgt j q'); [|done].
      apply lookup_lt_Some in Hq'. lia.
Qed.

Lemma sjf_scan_selects_last_min_witness :
  ∃ m k p,
    scan_from [mkProcess 4 0; mkProcess 2 0; mkProcess 2 0]
      (length [mkProcess 4 0; mkProcess 2 0; mkProcess 2 0]) 0 2147483647 None
      = InBounds (m, Some k) ∧
    [mkProcess 4 0; mkProcess 2 0; mkProcess 2 0] !! k = Some p ∧
    remainingTime p = m ∧
    (∀ j q, [mkProcess 4 0; mkProcess 2 0; mkProcess 2 0] !! j = Some q →
            m ≤ remainingTime q) ∧
    (∀ j q, (k < j)%nat →
            [mkProcess 4 0; mkProcess 2 0; mkProcess 2 0] !! j = Some q →
            m < remainingTime q).
Proof.
  apply sjf_scan_selects_last_min; [done|].
  repeat constructor; simpl; lia.
Defined.

End SjfScanFacts.

(** ** Threads and their places *)

Lemma snd_pair_fmap {A B} (a : A) (l : list B) : snd <$> (pair a <$> l) = l.
Proof. induction l as [|x l IH]; [done|]. csimpl. by rewrite IH. Qed.

Lemma foldl_alter_NoDup f (ts : list nat) (h : list Thread) (t : nat) :
  NoDup ts → t ∈ ts → (t < length h)%nat →
  foldl (λ h t, alter f t h) h ts !!! t = f (h !!! t).
Proof.
  revert h. induction ts as [|a ts IH]; intros h Hnd Ht Hlen; [inversion Ht|].
  apply NoDup_cons in Hnd as [Ha Hnd]. simpl.
  apply elem_of_cons in Ht as [->|Ht].
  - rewrite foldl_alter_other by done. by apply list_lookup_total_alter_eq.
  - rewrite IH by (by rewrite ?length_alter).
    apply f_equal, list_lookup_total_alter_ne. intros ->. done.
Qed.

(** Moving the threads [ts] from place [A] to place [B] while writing [f]
    to each of them. *)
Lemma placed_move (ok ok' : Place → Thread → Prop) s s' A B ts rest f :
  placed ok s →
  tagged s ≡ₚ (pair A <$> ts) ++ rest →
  tagged s' ≡ₚ (pair B <$> ts) ++ rest →
  heap s' = foldl (λ h t, alter f t h) (heap s) ts →
  (∀ t, t ∈ ts → ok A (heap s !!! t) → ok' B (f (heap s !!! t))) →
  (∀ pl p, (pl, p) ∈ rest → ok pl (heap s !!! p) → ok' pl (heap s !!! p)) →
  placed ok' s'.
Proof.
  intros (Hnd & Hval & Hok) Hs Hs' Hh Hmove Hstay.
  assert (snd <$> tagged s ≡ₚ ts ++ (snd <$> rest)) as Hp
    by (by rewrite Hs, fmap_app, snd_pair_fmap).
  assert (snd <$> tagged s' ≡ₚ ts ++ (snd <$> rest)) as Hp'
    by (by rewrite Hs', fmap_app, snd_pair_fmap).
  rewrite Hs in Hok. apply Forall_app in Hok as [Hok1 Hok2].
  rewrite Forall_fmap in Hok1.
  pose proof Hnd as Hnd'. rewrite Hp in Hnd'.
  apply NoDup_app in Hnd' as (Hndts & Hdisj & _).
  split; [by rewrite Hp', <- Hp|]. split.
  - intros p Hin. rewrite Hh, foldl_alter_length. apply Hval.
    by rewrite Hp, <- Hp'.
  - rewrite Hs'. apply Forall_app. split.
    + rewrite Forall_fmap. apply Forall_forall. intros t Ht. simpl.
      rewrite Hh, foldl_alter_NoDup; [|done|done|].
      * apply Hmove; [done|]. by apply (proj1 (Forall_forall _ _) Hok1 t Ht).
      * apply Hval. rewrite Hp. apply elem_of_app. by left.
    + apply Forall_forall. intros [pl p] Hin. simpl.
      rewrite Hh, foldl_alter_other.
      * apply Hstay; [done|]. by apply (proj1 (Forall_forall _ _) Hok2 _ Hin).
      * intros Hts. apply (Hdisj p Hts).
        apply list_elem_of_fmap. by exists (pl, p).
Qed.

(** A step that writes no Thread object and only reorders the places. *)
Lemma placed_same (ok ok' : Place → Thread → Prop) s s' :
  placed ok s → tagged s' ≡ₚ tagged s → heap s' = heap s →
  (∀ pl p, (pl, p) ∈ tagged s → ok pl (heap s !!! p) → ok' pl (heap s !!! p)) →
  placed ok' s'.
Proof.
  intros Hpl Ht Hh Hw.
  apply (placed_move ok ok' s s' P_NEW P_NEW [] (tagged s) id); auto.
  intros t Hin. inversion Hin.
Qed.

Lemma tagged_not_in (A B : Place) (p : nat) (l : list nat) :
  A ≠ B → (A, p) ∉ (pair B <$> l).
Proof. intros Hne (x & Hx & _)%list_elem_of_fmap. congruence. Qed.

Lemma tagged_in (A : Place) (p : nat) (l : list nat) :
  (A, p) ∈ (pair A <$> l) → p ∈ l.
Proof. intros (x & Hx & Hin)%list_elem_of_fmap. by simplify_eq. Qed.

(** *** The steps of a tick, for any description [ok] of the places *)

Lemma workload_admit_tick_placed (ok ok' : Place → Thread → Prop) now s :
  placed ok s →
  (∀ t, ok P_NEW t → arrival_time t = now → ok' P_READY (set_state ST_READY t)) →
  (∀ pl t, (pl = P_NEW → arrival_time t ≠ now) → ok pl t → ok' pl t) →
  placed ok' (workload_admit_tick now s).
Proof.
  intros Hpl Hmove Hstay. rewrite workload_admit_tick_effect.
  apply (placed_move ok ok' s _ P_NEW P_READY
           (filter (λ p, arrival_time (heap s !!! p) = now) (workload s))
           ((pair P_NEW <$> filter (λ p, ¬ arrival_time (heap s !!! p) = now)
                              (workload s))
            ++ (pair P_READY <$> ready s) ++ (pair P_WAITING <$> waiting s)
            ++ (pair P_CORE <$> occupants (core s))
            ++ (pair P_FINISHED <$> finished s))
           (set_state ST_READY)); auto.
  - unfold tagged.
    rewrite <- (filter_app_complement (λ p, arrival_time (heap s !!! p) = now)
                 (workload s)) at 1.
    rewrite fmap_app. solve_Permutation.
  - unfold tagged. simpl. rewrite fmap_app. solve_Permutation.
  - intros t [Hdue _]%list_elem_of_filter Hok. by apply Hmove.
  - intros pl p Hin. apply Hstay. intros ->.
    apply elem_of_app in Hin as [Hin|Hin].
    + by apply tagged_in, list_elem_of_filter in Hin as [? _].
    + exfalso. rewrite !elem_of_app in Hin.
      destruct Hin as [Hin|[Hin|[Hin|Hin]]];
        by apply tagged_not_in in Hin.
Qed.

Lemma waiting_io_resolve_effect now s :
  waiting_io_resolve now s =
    {| SIM_TIME := SIM_TIME s;
       heap := foldl (λ h t, alter (set_state ST_READY) t h) (heap s)
                 (filter (λ p, unblocked_at (heap s !!! p) = now) (waiting s));
       workload := workload s;
       ready := ready s ++ filter (λ p, unblocked_at (heap s !!! p) = now) (waiting s);
       waiting := filter (λ p, ¬ unblocked_at (heap s !!! p) = now) (waiting s);
       finished := finished s; core := core s; rand_calls := rand_calls s |}.
Proof.
  unfold waiting_io_resolve.
  by rewrite resolve_scan_move_due, move_due_spec by done.
Qed.

Lemma waiting_io_resolve_placed (ok : Place → Thread → Prop) now s :
  placed ok s →
  (∀ t, ok P_WAITING t → ok P_READY (set_state ST_READY t)) →
  placed ok (waiting_io_resolve now s).
Proof.
  intros Hpl Hmove. rewrite waiting_io_resolve_effect.
  apply (placed_move ok ok s _ P_WAITING P_READY
           (filter (λ p, unblocked_at (heap s !!! p) = now) (waiting s))
           ((pair P_NEW <$> workload s) ++ (pair P_READY <$> ready s)
            ++ (pair P_WAITING <$> filter (λ p, ¬ unblocked_at (heap s !!! p) = now)
                                     (waiting s))
            ++ (pair P_CORE <$> occupants (core s))
            ++ (pair P_FINISHED <$> finished s))
           (set_state ST_READY)); auto.
  - unfold tagged.
    rewrite <- (filter_app_complement (λ p, unblocked_at (heap s !!! p) = now)
                 (waiting s)) at 1.
    rewrite fmap_app. solve_Permutation.
  - unfold tagged. simpl. rewrite fmap_app. solve_Permutation.
Qed.

Lemma block_to_waiting_placed (ok : Place → Thread → Prop) c u s :
  placed ok s →
  (∀ t, ok P_CORE t → ok P_WAITING (set_unblocked_at u (set_state ST_WAITING t))) →
  placed ok (block_to_waiting c u s).
Proof.
  intros Hpl Hmove. unfold block_to_waiting, cpu_unbind_core.
  destruct (core s !! c) as [[t|]|] eqn:Hc; simpl; try done.
  apply (placed_move ok ok s _ P_CORE P_WAITING [t]
           ((pair P_NEW <$> workload s) ++ (pair P_READY <$> ready s)
            ++ (pair P_WAITING <$> waiting s)
            ++ (pair P_CORE <$> occupants (<[c := None]> (core s)))
            ++ (pair P_FINISHED <$> finished s))
           (λ th, set_unblocked_at u (set_state ST_WAITING th))); auto.
  - unfold tagged. rewrite (occupants_clear _ _ _ Hc). simpl. solve_Permutation.
  - unfold tagged, q_push. simpl. rewrite fmap_app. simpl. solve_Permutation.
Qed.

Lemma use_rand_placed (ok : Place → Thread → Prop) s :
  placed ok s → placed ok (use_rand s).
Proof. intros Hpl. by apply (placed_same ok ok s). Qed.

Lemma random_interrupts_placed (ok : Place → Thread → Prop) cfg rand s :
  placed ok s →
  (∀ u t, ok P_CORE t → ok P_WAITING (set_unblocked_at u (set_state ST_WAITING t))) →
  placed ok (random_interrupts cfg rand s).
Proof.
  intros Hpl Hmove. unfold random_interrupts. destruct (enable_random cfg); [|done].
  revert Hpl. generalize (seq 0 (length (core s))) as l. intros l. revert s.
  induction l as [|c l IH]; intros s Hpl; simpl; [done|].
  apply IH. unfold interrupt_at.
  destruct (core s !! c) as [[t|]|]; try done.
  destruct (_ <? _).
  - apply block_to_waiting_placed; [|apply Hmove].
    by apply use_rand_placed, use_rand_placed.
  - by apply use_rand_placed.
Qed.

Lemma bind_popped_placed (ok : Place → Thread → Prop) s (k t : nat) q' :
  placed ok s → ready s ≡ₚ t :: q' → core s !! k = Some None →
  (∀ th, ok P_READY th → ok P_CORE (mark_running (SIM_TIME s) th)) →
  placed ok (cpu_bind_core (Z.of_nat k) t (set_ready q' s)).
Proof.
  intros Hpl Hr Hk Hmove.
  apply (placed_move ok ok s _ P_READY P_CORE [t]
           ((pair P_NEW <$> workload s) ++ (pair P_READY <$> q')
            ++ (pair P_WAITING <$> waiting s)
            ++ (pair P_CORE <$> occupants (core s))
            ++ (pair P_FINISHED <$> finished s))
           (mark_running (SIM_TIME s))); auto.
  - unfold tagged. rewrite Hr. simpl. solve_Permutation.
  - unfold tagged. simpl. rewrite Nat2Z.id, occupants_insert_idle by done.
    simpl. solve_Permutation.
Qed.

Lemma preempt_to_ready_placed (ok : Place → Thread → Prop) s (k : nat) :
  placed ok s →
  (∀ th, ok P_CORE th → ok P_READY (set_state ST_READY th)) →
  placed ok (preempt_to_ready (Z.of_nat k) s).
Proof.
  intros Hpl Hmove. unfold preempt_to_ready, cpu_unbind_core. rewrite Nat2Z.id.
  destruct (core s !! k) as [[v|]|] eqn:Hk; simpl; try done.
  apply (placed_move ok ok s _ P_CORE P_READY [v]
           ((pair P_NEW <$> workload s) ++ (pair P_READY <$> ready s)
            ++ (pair P_WAITING <$> waiting s)
            ++ (pair P_CORE <$> occupants (<[k := None]> (core s)))
            ++ (pair P_FINISHED <$> finished s))
           (set_state ST_READY)); auto.
  - unfold tagged. rewrite (occupants_clear _ _ _ Hk). simpl. solve_Permutation.
  - unfold tagged, q_push. simpl. rewrite fmap_app. simpl. solve_Permutation.
Qed.

Lemma preempt_bind_placed (ok : Place → Thread → Prop) s (k v best : nat) q' :
  placed ok s → ready s ≡ₚ best :: q' → core s !! k = Some (Some v) →
  (∀ th, ok P_READY th → ok P_CORE (mark_running (SIM_TIME s) th)) →
  (∀ th, ok P_CORE th → ok P_READY (set_state ST_READY th)) →
  placed ok (cpu_bind_core (Z.of_nat k) best
               (preempt_to_ready (Z.of_nat k) (set_ready q' s))).
Proof.
  intros Hpl Hr Hk Hbind Hpre.
  pose proof (preempt_to_ready_placed ok s k Hpl Hpre) as Hmid.
  assert (cpu_bind_core (Z.of_nat k) best
            (preempt_to_ready (Z.of_nat k) (set_ready q' s))
          = cpu_bind_core (Z.of_nat k) best
              (set_ready (q_push q' v) (preempt_to_ready (Z.of_nat k) s))) as ->.
  { unfold preempt_to_ready, cpu_unbind_core. simpl. rewrite Nat2Z.id, Hk. done. }
  assert (SIM_TIME s = SIM_TIME (preempt_to_ready (Z.of_nat k) s)) as Ht.
  { unfold preempt_to_ready, cpu_unbind_core. rewrite Nat2Z.id, Hk. done. }
  apply bind_popped_placed; auto.
  - unfold preempt_to_ready, cpu_unbind_core. rewrite Nat2Z.id, Hk. simpl.
    unfold q_push. rewrite Hr. solve_Permutation.
  - unfold preempt_to_ready, cpu_unbind_core. rewrite Nat2Z.id, Hk. simpl.
    apply list_lookup_insert_eq. by eapply lookup_lt_Some.
  - by rewrite <- Ht.
Qed.

Lemma requeue_placed (ok : Place → Thread → Prop) s best q' :
  placed ok s → ready s ≡ₚ best :: q' →
  placed ok (set_ready (q_push q' best) (set_ready q' s)).
Proof.
  intros Hpl Hr. apply (placed_same ok ok s); auto.
  unfold tagged, q_push. simpl. rewrite Hr, fmap_app. simpl. solve_Permutation.
Qed.

Lemma fill_idle_placed (ok : Place → Thread → Prop) pop fuel s :
  pop_ok pop → placed ok s →
  (∀ th, ok P_READY th → ok P_CORE (mark_running (SIM_TIME s) th)) →
  placed ok (fill_idle pop fuel s).
Proof.
  intros Hpop. revert s. induction fuel as [|fuel IH]; intros s Hpl Hbind; simpl;
    [done|].
  destruct (cpu_any_idle (core s)) eqn:Hidle; [|done].
  specialize (Hpop (heap s) (ready s)).
  destruct (pop (heap s) (ready s)) as [[t q']|]; [|done].
  apply cpu_any_idle_true in Hidle as (k & Hk & Hslot).
  unfold cpu_bind_first_idle. simpl. rewrite Hk.
  rewrite (proj2 (Z.leb_le 0 (Z.of_nat k))) by lia.
  apply IH; [by apply bind_popped_placed | done].
Qed.

Lemma srtcf_preempt_placed (ok : Place → Thread → Prop) fuel s e s' :
  srtcf_preempt fuel s = Some (e, s') → placed ok s →
  (∀ th, ok P_READY th → ok P_CORE (mark_running (SIM_TIME s) th)) →
  (∀ th, ok P_CORE th → ok P_READY (set_state ST_READY th)) →
  placed ok s'.
Proof.
  revert s. induction fuel as [|fuel IH]; intros s; simpl; [done|].
  pose proof (q_pop_min_remaining_ok (heap s) (ready s)) as Hpop.
  destruct (q_pop_min_remaining (heap s) (ready s)) as [[best q']|].
  2: { by intros [= <- <-]. }
  destruct (cpu_first_idle_spec (core s)) as [[Hi _]|(k & Hi & Hk)]; rewrite Hi.
  - change (0 <=? -1) with false. cbv iota.
    destruct (core_with_largest_spec (heap s) (remaining (heap s !!! best)) (core s))
      as [[Hv _]|(k & v & Hv & Hk & _)]; rewrite Hv.
    + change (0 <=? -1) with false. cbv iota. intros [= <- <-] Hpl _ _.
      by apply requeue_placed.
    + rewrite (proj2 (Z.leb_le 0 (Z.of_nat k))) by lia. intros H Hpl Hbind Hpre.
      apply (IH _ H); [by eapply preempt_bind_placed | |done].
      unfold preempt_to_ready, cpu_unbind_core. simpl. rewrite Nat2Z.id, Hk. done.
  - rewrite (proj2 (Z.leb_le 0 (Z.of_nat k))) by lia. intros H Hpl Hbind Hpre.
    apply (IH _ H); [by apply bind_popped_placed | done | done].
Qed.

Lemma dispatch_get_placed (ok : Place → Thread → Prop) algo s :
  placed ok s →
  (∀ th, ok P_READY th → ok P_CORE (mark_running (SIM_TIME s) th)) →
  (∀ th, ok P_CORE th → ok P_READY (set_state ST_READY th)) →
  placed ok (dispatch_get algo s).
Proof.
  intros Hpl Hbind Hpre. destruct algo; simpl.
  - apply fill_idle_placed; auto using q_pop_ok.
  - apply fill_idle_placed; auto using q_pop_min_burst_ok.
  - destruct (dispatch_srtcf_unfold s) as [e He].
    apply (srtcf_preempt_placed ok _ _ _ _ He); auto.
    + apply fill_idle_placed; auto using q_pop_min_remaining_ok.
    + unfold srtcf_fill.
      rewrite (ps_time _ _ (dr_pre _ _ (fill_idle_rel q_pop_min_remaining
                 (length (ready s)) s q_pop_min_remaining_ok))). done.
Qed.

Lemma bump_queue_wait_placed (ok ok' : Place → Thread → Prop) s :
  placed ok s →
  (∀ t, ok P_READY t → ok' P_READY (bump_wait t)) →
  (∀ pl t, pl ≠ P_READY → ok pl t → ok' pl t) →
  placed ok' (bump_queue_wait s).
Proof.
  intros Hpl Hmove Hstay.
  apply (placed_move ok ok' s _ P_READY P_READY (ready s)
           ((pair P_NEW <$> workload s) ++ (pair P_WAITING <$> waiting s)
            ++ (pair P_CORE <$> occupants (core s))
            ++ (pair P_FINISHED <$> finished s)) bump_wait); auto.
  - unfold tagged. solve_Permutation.
  - unfold tagged. simpl. solve_Permutation.
  - intros pl p Hin. apply Hstay. intros ->. rewrite !elem_of_app in Hin.
    destruct Hin as [Hin|[Hin|[Hin|Hin]]]; by apply tagged_not_in in Hin.
Qed.

Lemma cpu_step_placed (ok ok' : Place → Thread → Prop) s :
  placed ok s →
  (∀ t, ok P_CORE t → ok' P_CORE (step_one t)) →
  (∀ pl t, pl ≠ P_CORE → ok pl t → ok' pl t) →
  placed ok' (cpu_step s).
Proof.
  intros Hpl Hmove Hstay.
  apply (placed_move ok ok' s _ P_CORE P_CORE (occupants (core s))
           ((pair P_NEW <$> workload s) ++ (pair P_READY <$> ready s)
            ++ (pair P_WAITING <$> waiting s)
            ++ (pair P_FINISHED <$> finished s)) step_one); auto.
  - unfold tagged. solve_Permutation.
  - unfold tagged. simpl. solve_Permutation.
  - intros pl p Hin. apply Hstay. intros ->. rewrite !elem_of_app in Hin.
    destruct Hin as [Hin|[Hin|[Hin|Hin]]]; by apply tagged_not_in in Hin.
Qed.

Lemma collect_at_placed (ok : Place → Thread → Prop) s i :
  placed ok s →
  (∀ t, ok P_CORE t → remaining t = 0 → ok P_FINISHED (mark_finished (SIM_TIME s) t)) →
  placed ok (collect_at s i).
Proof.
  intros Hpl Hmove. unfold collect_at.
  destruct (core s !! i) as [[t|]|] eqn:Hi; try done.
  destruct (remaining (heap s !!! t) =? 0) eqn:E; [|done].
  apply Z.eqb_eq in E.
  apply (placed_move ok ok s _ P_CORE P_FINISHED [t]
           ((pair P_NEW <$> workload s) ++ (pair P_READY <$> ready s)
            ++ (pair P_WAITING <$> waiting s)
            ++ (pair P_CORE <$> occupants (<[i := None]> (core s)))
            ++ (pair P_FINISHED <$> finished s))
           (mark_finished (SIM_TIME s))); auto.
  - unfold tagged. rewrite (occupants_clear _ _ _ Hi). simpl. solve_Permutation.
  - unfold tagged, q_push. simpl. rewrite fmap_app. simpl. solve_Permutation.
  - intros t0 ->%list_elem_of_singleton Hok. by apply Hmove.
Qed.

Lemma collect_completions_placed (ok : Place → Thread → Prop) s :
  placed ok s →
  (∀ t, ok P_CORE t → remaining t = 0 → ok P_FINISHED (mark_finished (SIM_TIME s) t)) →
  placed ok (collect_completions s).
Proof.
  intros Hpl Hmove. unfold collect_completions.
  revert Hpl Hmove. generalize (seq 0 (length (core s))) as l. intros l. revert s.
  induction l as [|i l IH]; intros s Hpl Hmove; simpl; [done|].
  apply IH; [by apply collect_at_placed|].
  by rewrite (cr_time _ _ (collect_at_rel s i)).
Qed.

(** *** The state field follows the place *)

Lemma state_ok_mono now now' pl t :
  now ≤ now' → state_ok now pl t → state_ok now' pl t.
Proof. destruct pl; simpl; intros; intuition lia. Qed.

Lemma state_ok_admit now t :
  0 ≤ now → state_ok now P_NEW t → state_ok now P_READY (set_state ST_READY t).
Proof. simpl. intros ? (? & ? & ?). split_and!; [done|lia|done]. Qed.

Lemma state_ok_resolve now t :
  state_ok now P_WAITING t → state_ok now P_READY (set_state ST_READY t).
Proof. simpl. intros (? & ? & ? & ?). done. Qed.

Lemma state_ok_block now u t :
  state_ok now P_CORE t →
  state_ok now P_WAITING (set_unblocked_at u (set_state ST_WAITING t)).
Proof. simpl. intros (? & ? & ? & ?). done. Qed.

Lemma state_ok_bind now t :
  0 ≤ now → state_ok now P_READY t → state_ok now P_CORE (mark_running now t).
Proof.
  unfold mark_running. simpl. intros ? (? & ? & ?).
  destruct (start_time t <? 0) eqn:E; simpl; [split_and!; (done || lia)|].
  apply Z.ltb_ge in E. done.
Qed.

Lemma state_ok_preempt now t :
  state_ok now P_CORE t → state_ok now P_READY (set_state ST_READY t).
Proof. simpl. intros (? & ? & ? & ?). done. Qed.

Lemma state_ok_bump now pl t : state_ok now pl t → state_ok now pl (bump_wait t).
Proof. by destruct pl. Qed.

Lemma state_ok_step now t :
  state_ok now P_CORE t → state_ok (now + 1) P_CORE (step_one t).
Proof.
  unfold step_one. intros H. apply (state_ok_mono now); [lia|].
  by destruct (0 <? remaining t).
Qed.

Lemma state_ok_finish now t :
  state_ok now P_CORE t → remaining t = 0 →
  state_ok now P_FINISHED (mark_finished now t).
Proof.
  unfold mark_finished. simpl. intros (? & ? & ? & Hf) ?. rewrite Hf. simpl.
  split_and!; (done || lia).
Qed.

Lemma tick_time algo cfg rand s : SIM_TIME (tick algo cfg rand s) = SIM_TIME s + 1.
Proof.
  unfold tick. rewrite (cr_time _ _ (collect_completions_rel _)).
  change (SIM_TIME (cpu_step ?x)) with (SIM_TIME x + 1).
  by rewrite (ps_time _ _ (tick_dispatch_pre_step algo cfg rand s)).
Qed.

Lemma ticks_time algo cfg rand n s :
  SIM_TIME (ticks algo cfg rand n s) = SIM_TIME s + Z.of_nat n.
Proof.
  revert s. induction n as [|n IH]; intros s; simpl ticks; [lia|].
  rewrite IH, tick_time. lia.
Qed.

Lemma tick_state_ok algo cfg rand s :
  0 ≤ SIM_TIME s → placed (state_ok (SIM_TIME s)) s →
  placed (state_ok (SIM_TIME s + 1)) (tick algo cfg rand s).
Proof.
  intros Hnow Hpl. unfold tick, tick_dispatch. cbv zeta.
  set (now := SIM_TIME s) in *.
  set (s1 := workload_admit_tick now s).
  assert (SIM_TIME s1 = now) as T1
    by apply (ps_time _ _ (workload_admit_tick_pre_step now s)).
  rewrite T1.
  set (s2 := waiting_io_resolve now s1).
  assert (SIM_TIME s2 = now) as T2
    by (unfold s2; by rewrite (ps_time _ _ (waiting_io_resolve_pre_step now s1))).
  set (s3 := random_interrupts cfg rand s2).
  assert (SIM_TIME s3 = now) as T3
    by (unfold s3; by rewrite (ps_time _ _ (random_interrupts_pre_step cfg rand s2))).
  set (s4 := dispatch_get algo s3).
  assert (SIM_TIME s4 = now) as T4
    by (unfold s4; by rewrite (ps_time _ _ (dr_pre _ _ (dispatch_get_rel algo s3)))).
  assert (placed (state_ok now) s1) as P1.
  { apply (workload_admit_tick_placed (state_ok now)); auto.
    intros t Ht _. by apply state_ok_admit. }
  assert (placed (state_ok now) s2) as P2
    by (apply waiting_io_resolve_placed; auto using state_ok_resolve).
  assert (placed (state_ok now) s3) as P3
    by (apply random_interrupts_placed; auto using state_ok_block).
  assert (placed (state_ok now) s4) as P4.
  { apply dispatch_get_placed; rewrite ?T3; auto using state_ok_preempt.
    intros th. by apply state_ok_bind. }
  assert (placed (state_ok now) (bump_queue_wait s4)) as P5
    by (apply (bump_queue_wait_placed (state_ok now)); auto using state_ok_bump).
  assert (placed (state_ok (now + 1)) (cpu_step (bump_queue_wait s4))) as P6.
  { apply (cpu_step_placed (state_ok now)); auto using state_ok_step.
    intros pl t _. apply state_ok_mono. lia. }
  apply collect_completions_placed; [done|]. simpl. rewrite T4.
  intros t. apply state_ok_finish.
Qed.

Lemma tagged_load_workload ncores entries :
  tagged (load_workload entries (sim_empty ncores))
    = pair P_NEW <$> seq 0 (length entries).
Proof.
  unfold tagged.
  destruct (load_workload_spec entries (sim_empty ncores))
    as (_ & -> & -> & -> & -> & -> & _).
  simpl. by rewrite occupants_replicate_None, !app_nil_r.
Qed.

Lemma load_workload_placed (ok : Place → Thread → Prop) ncores entries :
  (∀ e, e ∈ entries → ok P_NEW (make_thread e.1.1 e.1.2 e.2)) →
  placed ok (load_workload entries (sim_empty ncores)).
Proof.
  intros Hok. unfold placed. rewrite tagged_load_workload, snd_pair_fmap.
  destruct (load_workload_spec entries (sim_empty ncores)) as (Hh & _).
  simpl in Hh. rewrite Hh. split; [apply NoDup_seq|]. split.
  - intros p Hp%elem_of_seq. rewrite length_fmap. lia.
  - rewrite Forall_fmap. apply Forall_forall. intros p Hp%elem_of_seq. simpl.
    destruct (lookup_lt_is_Some_2 entries p) as [e He]; [lia|].
    rewrite (list_lookup_total_correct _ _ (make_thread e.1.1 e.1.2 e.2))
      by (by rewrite list_lookup_fmap, He).
    apply Hok. by eapply list_elem_of_lookup_2.
Qed.

Lemma sim_start_time ncores entries : SIM_TIME (sim_start ncores entries) = 0.
Proof.
  unfold sim_start. cbv zeta.
  rewrite (ps_time _ _ (workload_admit_tick_pre_step _ _)).
  by destruct (load_workload_spec entries (sim_empty ncores))
    as (_ & _ & _ & _ & _ & _ & ->).
Qed.

Lemma ticks_state_ok algo cfg rand n s :
  0 ≤ SIM_TIME s → placed (state_ok (SIM_TIME s)) s →
  placed (state_ok (SIM_TIME (ticks algo cfg rand n s))) (ticks algo cfg rand n s).
Proof.
  revert s. induction n as [|n IH]; intros s Hnow Hpl; simpl ticks; [done|].
  apply IH; rewrite tick_time; [lia|]. by apply tick_state_ok.
Qed.

Lemma tagged_places s : snd <$> tagged s ≡ₚ places s.
Proof.
  unfold tagged, places, active. rewrite !fmap_app, !snd_pair_fmap.
  solve_Permutation.
Qed.

Lemma tagged_finished_in s p : (P_FINISHED, p) ∈ tagged s → p ∈ finished s.
Proof.
  unfold tagged. rewrite !elem_of_app.
  intros [Hin|[Hin|[Hin|[Hin|Hin]]]];
    (by apply tagged_in in Hin) || (by apply tagged_not_in in Hin).
Qed.

(** X18: At every tick boundary of a run, whatever the policy, the interrupt
    configuration and the random numbers: the clock is the number of ticks
    done; the Thread objects are those of the workload entries, and each of
    them is in exactly one place (the places together hold every thread
    index once); a thread of the workload queue is ST_NEW and has never
    run; one of Ready is ST_READY, one of Waiting ST_WAITING, one on a core
    ST_RUNNING with its start time set; a thread of Finished is ST_FINISHED
    with nothing remaining and [0 ≤ start_time ≤ finish_time ≤ SIM_TIME];
    every thread that is not in Finished has [finish_time = -1]. *)
Theorem run_state_follows_place algo cfg rand ncores entries n :
  let s := ticks algo cfg rand n (sim_start ncores entries) in
  SIM_TIME s = Z.of_nat n ∧
  length (heap s) = length entries ∧
  snd <$> tagged s ≡ₚ seq 0 (length entries) ∧
  placed (state_ok (SIM_TIME s)) s ∧
  (∀ p, (p < length entries)%nat →
     ∃ pl, (pl, p) ∈ tagged s ∧ state_ok (SIM_TIME s) pl (heap s !!! p)) ∧
  (∀ p, (p < length entries)%nat → p ∉ finished s →
     finish_time (heap s !!! p) = -1).
Proof.
  cbv zeta.
  set (s := ticks algo cfg rand n (sim_start ncores entries)).
  assert (placed (state_ok (SIM_TIME s)) s) as Hpl.
  { apply ticks_state_ok; rewrite sim_start_time; [done|].
    unfold sim_start. cbv zeta.
    apply (workload_admit_tick_placed (state_ok 0)); auto.
    - apply load_workload_placed. intros e _. done.
    - intros t Ht _. by apply state_ok_admit. }
  destruct (ticks_places algo cfg rand n (sim_start ncores entries)) as [Hp Hl].
  destruct (sim_start_places ncores entries) as [Hp0 Hl0].
  assert (snd <$> tagged s ≡ₚ seq 0 (length entries)) as Hall
    by (unfold s; by rewrite tagged_places, Hp).
  assert (∀ p, (p < length entries)%nat →
            ∃ pl, (pl, p) ∈ tagged s ∧ state_ok (SIM_TIME s) pl (heap s !!! p))
    as Hsome.
  { intros p Hp'.
    assert (p ∈ snd <$> tagged s) as Hin
      by (rewrite Hall; apply elem_of_seq; lia).
    apply list_elem_of_fmap in Hin as ([pl q] & -> & Hin).
    exists pl. split; [done|].
    destruct Hpl as (_ & _ & Hok).
    by apply (proj1 (Forall_forall _ _) Hok _ Hin). }
  split; [unfold s; rewrite ticks_time, sim_start_time; lia|].
  split; [unfold s; congruence|].
  split; [done|]. split; [done|]. split; [done|].
  intros p Hp' Hnf. destruct (Hsome p Hp') as (pl & Hin & Hok).
  destruct pl; simpl in Hok; try tauto.
  by apply tagged_finished_in in Hin.
Qed.

(** *** Turnaround, burst and wait time *)

Lemma random_interrupts_disabled cfg rand s :
  enable_random cfg = false → random_interrupts cfg rand s = s.
Proof. unfold random_interrupts. by intros ->. Qed.

Lemma tagged_core_in s p : (P_CORE, p) ∈ tagged s → p ∈ occupants (core s).
Proof.
  unfold tagged. rewrite !elem_of_app.
  intros [Hin|[Hin|[Hin|[Hin|Hin]]]];
    (by apply tagged_in in Hin) || (by apply tagged_not_in in Hin).
Qed.

Lemma tick_acct_ok algo cfg rand s :
  enable_random cfg = false →
  0 ≤ SIM_TIME s → placed (acct_ok (SIM_TIME s)) s →
  placed (acct_ok (SIM_TIME s + 1)) (tick algo cfg rand s).
Proof.
  intros Hoff Hnow Hpl. unfold tick, tick_dispatch. cbv zeta.
  set (now := SIM_TIME s) in *.
  set (s1 := workload_admit_tick now s).
  assert (SIM_TIME s1 = now) as T1
    by apply (ps_time _ _ (workload_admit_tick_pre_step now s)).
  rewrite T1.
  set (s2 := waiting_io_resolve now s1).
  assert (SIM_TIME s2 = now) as T2
    by (unfold s2; by rewrite (ps_time _ _ (waiting_io_resolve_pre_step now s1))).
  rewrite random_interrupts_disabled by done.
  set (s4 := dispatch_get algo s2).
  assert (SIM_TIME s4 = now) as T4
    by (unfold s4; by rewrite (ps_time _ _ (dr_pre _ _ (dispatch_get_rel algo s2)))).
  set (F1 := λ pl t, state_ok now pl t ∧ acct (now + 1) now now 1 pl t).
  set (F2 := λ pl t, state_ok now pl t ∧ acct (now + 1) (now + 1) now 1 pl t).
  set (F3 := λ pl t,
         state_ok (now + 1) pl t ∧ acct (now + 1) (now + 1) (now + 1) 0 pl t).
  assert (placed F1 s1) as P1.
  { apply (workload_admit_tick_placed (acct_ok now)); auto.
    - intros t [Hst Hacc] Harr. split; [by apply state_ok_admit|].
      destruct Hst as (_ & Hs & _). simpl in *. lia.
    - intros pl t Hne [Hst Hacc]. split; [done|].
      destruct pl; simpl in *; auto. specialize (Hne eq_refl). lia. }
  assert (placed F1 s2) as P2.
  { apply waiting_io_resolve_placed; [done|]. by intros t [_ []]. }
  assert (placed F1 s4) as P4.
  { apply dispatch_get_placed; rewrite ?T2; auto.
    - intros th [Hst Hacc]. split; [by apply state_ok_bind|].
      unfold mark_running. simpl in *.
      destruct (start_time th <? 0) eqn:E; simpl; [lia|].
      apply Z.ltb_ge in E. lia.
    - intros th [Hst Hacc]. split; [by apply state_ok_preempt|].
      simpl in *. lia. }
  assert (placed F2 (bump_queue_wait s4)) as P5.
  { apply (bump_queue_wait_placed F1); auto.
    - intros t [Hst Hacc]. split; [by apply state_ok_bump|]. simpl in *. lia.
    - intros pl t Hne [Hst Hacc]. split; [done|]. by destruct pl. }
  assert (placed F3 (cpu_step (bump_queue_wait s4))) as P6.
  { apply (cpu_step_placed F2); auto.
    - intros t [Hst Hacc]. split; [by apply state_ok_step|].
      unfold step_one. simpl in *.
      rewrite (proj2 (Z.ltb_lt 0 (remaining t))) by lia. simpl. lia.
    - intros pl t Hne [Hst Hacc]. split; [apply (state_ok_mono now); [lia|done]|].
      by destruct pl. }
  set (s6 := cpu_step (bump_queue_wait s4)) in *.
  assert (placed F3 (collect_completions s6)) as P7.
  { apply collect_completions_placed; [done|]. simpl. rewrite T4.
    intros t [Hst Hacc] Hrem. split; [by apply state_ok_finish|].
    destruct Hst as (_ & _ & _ & Hf). unfold mark_finished. simpl in *.
    rewrite Hf. simpl. lia. }
  apply (placed_same F3 _ _ _ P7); [done..|].
  intros pl p Hin [Hst Hacc]. split; [done|].
  destruct pl; simpl in *; auto.
  apply tagged_core_in, collect_completions_kept in Hin.
  rewrite <- (cr_remaining _ _ (collect_completions_rel s6)) in Hin. lia.
Qed.

(** X19: With random interrupts switched off, as [main] has them, and a
    workload of threads with a non-negative arrival time and a positive
    burst time, the accounts balance at every tick boundary, whatever the
    policy: a thread in Ready or on a core has
    [SIM_TIME - arrival_time = (burst_time - remaining) + wait_time] and
    [1 ≤ remaining]; a finished thread has
    [finish_time - arrival_time = burst_time + wait_time] and did not start
    before it arrived; a thread still in the workload queue arrives no
    earlier than now; no thread is in Waiting. *)
Theorem run_accounts_balance algo cfg rand ncores entries n :
  enable_random cfg = false → Forall entry_ok entries →
  let s := ticks algo cfg rand n (sim_start ncores entries) in
  placed (acct_ok (SIM_TIME s)) s.
Proof.
  intros Hoff Hent. cbv zeta.
  assert (∀ s, 0 ≤ SIM_TIME s → placed (acct_ok (SIM_TIME s)) s →
            placed (acct_ok (SIM_TIME (ticks algo cfg rand n s)))
              (ticks algo cfg rand n s)) as Hrun.
  { induction n as [|n IH]; intros s Hnow Hpl; simpl ticks; [done|].
    apply IH; rewrite tick_time; [lia|]. by apply tick_acct_ok. }
  apply Hrun; rewrite sim_start_time; [done|].
  unfold sim_start. cbv zeta.
  apply (workload_admit_tick_placed (acct_ok 0)); auto.
  - apply load_workload_placed. intros e He.
    apply (proj1 (Forall_forall _ _) Hent) in He as [Ha Hb].
    split; simpl; auto. lia.
  - intros t [Hst Hacc] Harr. split; [by apply state_ok_admit|].
    destruct Hst as (_ & Hs & _). simpl in *.
    destruct (load_workload_spec entries (sim_empty ncores))
      as (_ & _ & _ & _ & _ & _ & Ht).
    rewrite Ht in Harr. simpl in Harr. lia.
Qed.

Lemma run_accounts_balance_witness :
  placed (acct_ok (SIM_TIME (ticks DISP_SRTCF intr_main (λ _, 0) 6
                               (sim_start 2 preset_small))))
    (ticks DISP_SRTCF intr_main (λ _, 0) 6 (sim_start 2 preset_small)).
Proof.
  apply (run_accounts_balance DISP_SRTCF intr_main (λ _, 0) 2 preset_small 6).
  - reflexivity.
  - repeat constructor; simpl; lia.
Defined.
